(** * The Roborock daemon: sessions, subscriptions and request correlation

    A shallow embedding of [packages/backend/scripts/roborock_daemon.py].
    The daemon is an asyncio program: coroutines run without interruption
    between two [await]s, and any other coroutine or transport callback may
    run while one is suspended.  Each coroutine is therefore cut into the
    segments between its [await]s, the suspended coroutines are kept in a
    task table, and one transition of the model runs one segment.

    Conventions:
    - sessions, futures, unsubscribe tokens and coroutines are identified
      by natural numbers, handed out in order;
    - the transport is the environment: whether [start], [close],
      [subscribe] and [publish] return or raise comes with the event that
      resumes the coroutine.  [subscribe] registers the callback when it
      returns, and what it returns is callable, so the two
      [callable(...)] tests of the daemon hold; calling a token removes
      the callback and does not raise;
    - [asyncio.wait_for] is the one of CPython 3.11: the coroutine waits
      until the future is done or the timer of the deadline releases it;
      when it resumes it returns the result of a future that is done, or
      raises its exception; otherwise it cancels the future, is suspended
      once more until the cancellation has been delivered, and then
      raises [TimeoutError].  A reply that comes after the timer and
      before the coroutine resumes is therefore still returned;
    - a call of [_close_session] from outside stands for
      [handle_disconnect]; [shutdown], a loop of such calls, and what the
      HTTP handlers do before they call the daemon come after the
      daemon itself;
    - time is counted in milliseconds. *)

From stdpp Require Import base numbers gmap strings list pretty.
From Stdlib Require Import Strings.Ascii Strings.Byte.

Set Default Proof Using "Type".

(** ** Values *)

(** Decoded JSON, as [json.loads] hands it to the daemon.  Numbers are kept
    as integers: the daemon never computes with them. *)
#[local] Unset Elimination Schemes.
Inductive json :=
| JNull
| JBool (b : bool)
| JNum (z : Z)
| JStr (s : string)
| JArr (l : list json)
| JObj (m : gmap string json).
#[local] Set Elimination Schemes.

Definition bytes := list byte.

(** A Python exception, reduced to what the [except] clauses of the daemon
    tell apart (is it a [RoborockException]?) and to its [str(e)]. *)
Inductive exn :=
| RoborockException (msg : string)
| OtherException (msg : string).

Definition str (e : exn) : string :=
  match e with RoborockException msg | OtherException msg => msg end.

(** A call that returns or raises. *)
Inductive outcome (A : Type) :=
| Ok (a : A)
| Raise (e : exn).
Arguments Ok {A} a.
Arguments Raise {A} e.

Definition obind {A B} (f : A → outcome B) (o : outcome A) : outcome B :=
  match o with Ok a => f a | Raise e => Raise e end.

Notation "'try' x := o 'in' k" := (obind (λ x, k) o)
  (at level 10, x name, o at level 100, k at level 200, only parsing).

(** ** The types of the roborock library that the daemon handles *)

Record Reference := { ref_a : json; ref_m : json; ref_l : json }.

Record RRiot := {
  rriot_u : json; rriot_s : json; rriot_h : json; rriot_k : json;
  rriot_r : Reference
}.

Record MqttParams := { username : string }.

Inductive RoborockMessageProtocol := RPC_REQUEST | RPC_RESPONSE | OTHER_PROTOCOL.

Record RoborockMessage := {
  protocol : RoborockMessageProtocol;
  payload : bytes
}.

(** [api_error] is [None] or an error object (always truthy); the model
    keeps its [str()]. *)
Record ResponseMessage := {
  api_error : option string;
  data : json
}.

(** The collaborators that are not part of the repository: the codec of the
    roborock library, and [repr] of Python, whose text ends up in topics
    and error messages. *)
Record Externals := {
  (** [repr] of a decoded JSON value, [str] of anything but a string *)
  py_repr : json → string;
  create_mqtt_params : RRiot → outcome MqttParams;
  (** lines 174-180: [create_security_data], [RequestMessage(...)],
      [encode_message] and [MessageParser.build], local key second *)
  encode_request : RRiot → string → string → list json → outcome bytes;
  (** [MessageParser.parse(data, local_key)], first component *)
  parse : bytes → string → outcome (list RoborockMessage);
  decode_rpc_response : RoborockMessage → outcome ResponseMessage
}.

(** The dictionaries the daemon returns:
    [{"success": True}], [{"success": True, "result": r}] and
    [{"success": False, "error": msg}]; [PyNone] is the [None] that
    [_close_session] returns. *)
Inductive reply :=
| SuccessOnly
| Success (result : json)
| Failure (error : string)
| PyNone.

(** ** State *)

(** An [asyncio.Future]. *)
Inductive future_state :=
| Pending
| Result (r : ResponseMessage)
| Exception (e : exn)
| Cancelled.

Definition done (f : future_state) : bool :=
  match f with Pending => false | _ => true end.

(** The closure [on_message] of one [send_command] call: the variables it
    captures. *)
Record handler := { h_request_id : string; h_local_key : string }.

(** A callback registered with the transport by [session.subscribe]. *)
Record subscription := {
  sub_session : nat;
  sub_topic : string;
  sub_handler : handler
}.

(** The local variables of a suspended [send_command]. *)
Record send_locals := {
  user_id : string;
  device_id : string;
  local_key : string;
  command : string;
  params : option (list json);
  session : nat;
  rriot : RRiot;
  mqtt_params : MqttParams;
  request_id : string;
  response_future : nat
}.

(** Who awaits [_close_session]: [handle_disconnect], or [initialize] with
    the credentials it still has to use. *)
Inductive caller :=
| FromDisconnect
| FromInitialize (rriot_data : gmap string json).

(** A suspended coroutine, named after the [await] it is suspended at.
    A [send_command] inside [wait_for] waits for its future or for the
    timer ([SendAwaitFuture]), has been released by the timer and not
    resumed yet ([SendTimedOut]), or has cancelled the future and waits
    for the cancellation to be delivered ([SendCancelled]). *)
Inductive task :=
| SendAwaitSubscribe (l : send_locals) (replacing : bool)
| SendAwaitPublish (l : send_locals)
| SendAwaitFuture (l : send_locals) (deadline : N)
| SendTimedOut (l : send_locals)
| SendCancelled (l : send_locals)
| InitAwaitLock (user : string) (rriot_data : gmap string json)
| CloseAwaitClose (user : string) (k : caller)
| InitAwaitStart (user : string) (r : RRiot) (new_session : nat).

(** What a run does to its environment, in the order it happens: the
    calls to the transport, the removals from [pending_responses], the
    resolutions of futures and what each coroutine returns or raises.
    [Allocated] records lines 137-138. *)
Inductive action :=
| Allocated (tid : nat) (n : N) (rid : string)
| Subscribe (sess : nat) (topic : string) (h : handler)
| Unsubscribe (token : nat)
| Publish (sess : nat) (topic : string) (encoded : bytes)
| Start (sess : nat)
| Close (sess : nat)
| Pop (rid : string)
| SetResult (fut : nat) (r : ResponseMessage)
| SetException (fut : nat) (e : exn)
| Cancel (fut : nat)
| Return (tid : nat) (r : reply)
| Raised (tid : nat) (e : exn).

Record state := {
  (** the fields of [RoborockDaemon] *)
  sessions : gmap string nat;
  rriot_data : gmap string RRiot;
  subscriptions : gmap string (gmap string nat);
  pending_responses : gmap string nat;
  request_counter : N;
  _lock : bool;
  (** the futures created so far *)
  futures : gmap nat future_state;
  (** the transport: the callbacks registered and not yet unsubscribed,
      under their unsubscribe token *)
  callbacks : gmap nat subscription;
  (** the event loop: suspended coroutines, the next fresh object
      identity, the time in milliseconds *)
  tasks : gmap nat task;
  next_id : nat;
  clock : N;
  (** what has happened so far, oldest first; never read by the code *)
  history : list action
}.

Definition init : state := {|
  sessions := ∅; rriot_data := ∅; subscriptions := ∅;
  pending_responses := ∅; request_counter := 0; _lock := false;
  futures := ∅; callbacks := ∅; tasks := ∅; next_id := 0; clock := 0;
  history := []
|}.

(** Assignment to one field. *)
Definition set_sessions (v : gmap string nat) (s : state) : state :=
  {| sessions := v; rriot_data := rriot_data s;
     subscriptions := subscriptions s;
     pending_responses := pending_responses s;
     request_counter := request_counter s; _lock := _lock s;
     futures := futures s; callbacks := callbacks s; tasks := tasks s;
     next_id := next_id s; clock := clock s; history := history s |}.
Definition set_rriot_data (v : gmap string RRiot) (s : state) : state :=
  {| sessions := sessions s; rriot_data := v;
     subscriptions := subscriptions s;
     pending_responses := pending_responses s;
     request_counter := request_counter s; _lock := _lock s;
     futures := futures s; callbacks := callbacks s; tasks := tasks s;
     next_id := next_id s; clock := clock s; history := history s |}.
Definition set_subscriptions (v : gmap string (gmap string nat)) (s : state) : state :=
  {| sessions := sessions s; rriot_data := rriot_data s; subscriptions := v;
     pending_responses := pending_responses s;
     request_counter := request_counter s; _lock := _lock s;
     futures := futures s; callbacks := callbacks s; tasks := tasks s;
     next_id := next_id s; clock := clock s; history := history s |}.
Definition set_pending_responses (v : gmap string nat) (s : state) : state :=
  {| sessions := sessions s; rriot_data := rriot_data s;
     subscriptions := subscriptions s; pending_responses := v;
     request_counter := request_counter s; _lock := _lock s;
     futures := futures s; callbacks := callbacks s; tasks := tasks s;
     next_id := next_id s; clock := clock s; history := history s |}.
Definition set_request_counter (v : N) (s : state) : state :=
  {| sessions := sessions s; rriot_data := rriot_data s;
     subscriptions := subscriptions s;
     pending_responses := pending_responses s; request_counter := v;
     _lock := _lock s; futures := futures s; callbacks := callbacks s;
     tasks := tasks s; next_id := next_id s; clock := clock s;
     history := history s |}.
Definition set_lock (v : bool) (s : state) : state :=
  {| sessions := sessions s; rriot_data := rriot_data s;
     subscriptions := subscriptions s;
     pending_responses := pending_responses s;
     request_counter := request_counter s; _lock := v; futures := futures s;
     callbacks := callbacks s; tasks := tasks s; next_id := next_id s;
     clock := clock s; history := history s |}.
Definition set_futures (v : gmap nat future_state) (s : state) : state :=
  {| sessions := sessions s; rriot_data := rriot_data s;
     subscriptions := subscriptions s;
     pending_responses := pending_responses s;
     request_counter := request_counter s; _lock := _lock s; futures := v;
     callbacks := callbacks s; tasks := tasks s; next_id := next_id s;
     clock := clock s; history := history s |}.
Definition set_callbacks (v : gmap nat subscription) (s : state) : state :=
  {| sessions := sessions s; rriot_data := rriot_data s;
     subscriptions := subscriptions s;
     pending_responses := pending_responses s;
     request_counter := request_counter s; _lock := _lock s;
     futures := futures s; callbacks := v; tasks := tasks s;
     next_id := next_id s; clock := clock s; history := history s |}.
Definition set_tasks (v : gmap nat task) (s : state) : state :=
  {| sessions := sessions s; rriot_data := rriot_data s;
     subscriptions := subscriptions s;
     pending_responses := pending_responses s;
     request_counter := request_counter s; _lock := _lock s;
     futures := futures s; callbacks := callbacks s; tasks := v;
     next_id := next_id s; clock := clock s; history := history s |}.
Definition set_next_id (v : nat) (s : state) : state :=
  {| sessions := sessions s; rriot_data := rriot_data s;
     subscriptions := subscriptions s;
     pending_responses := pending_responses s;
     request_counter := request_counter s; _lock := _lock s;
     futures := futures s; callbacks := callbacks s; tasks := tasks s;
     next_id := v; clock := clock s; history := history s |}.
Definition set_clock (v : N) (s : state) : state :=
  {| sessions := sessions s; rriot_data := rriot_data s;
     subscriptions := subscriptions s;
     pending_responses := pending_responses s;
     request_counter := request_counter s; _lock := _lock s;
     futures := futures s; callbacks := callbacks s; tasks := tasks s;
     next_id := next_id s; clock := v; history := history s |}.
Definition set_history (v : list action) (s : state) : state :=
  {| sessions := sessions s; rriot_data := rriot_data s;
     subscriptions := subscriptions s;
     pending_responses := pending_responses s;
     request_counter := request_counter s; _lock := _lock s;
     futures := futures s; callbacks := callbacks s; tasks := tasks s;
     next_id := next_id s; clock := clock s; history := v |}.

Definition emit (a : action) (s : state) : state :=
  set_history (history s ++ [a]) s.

(** A fresh object identity (a future, a session, an unsubscribe token or
    a coroutine). *)
Definition fresh (s : state) : nat * state :=
  (next_id s, set_next_id (S (next_id s)) s).

(** The coroutine [tid] stops at an [await]. *)
Definition suspend (tid : nat) (t : task) (s : state) : state :=
  set_tasks (<[tid := t]> (tasks s)) s.

(** The coroutine [tid] returns [r]. *)
Definition finish (tid : nat) (r : reply) (s : state) : state :=
  emit (Return tid r) (set_tasks (delete tid (tasks s)) s).

(** Calling an unsubscribe token removes its callback from the transport. *)
Definition unsubscribe (token : nat) (s : state) : state :=
  emit (Unsubscribe token) (set_callbacks (delete token (callbacks s)) s).

(** ** The daemon *)

Section Daemon.
Context (X : Externals).

(** [str(v)] for a decoded JSON value, as an f-string inserts it. *)
Definition format (v : json) : string :=
  match v with JStr s => s | _ => py_repr X v end.

Definition KeyError (key : string) : exn :=
  OtherException (py_repr X (JStr key)).

(** [d[key]] on a dictionary. *)
Definition subscript (d : gmap string json) (key : string) : outcome json :=
  match d !! key with
  | Some v => Ok v
  | None => Raise (KeyError key)
  end.

(** [v[key]] on any decoded JSON value: only a dictionary has string
    keys (the messages are CPython's). *)
Definition subscript_value (v : json) (key : string) : outcome json :=
  match v with
  | JObj d => subscript d key
  | JNull => Raise (OtherException "'NoneType' object is not subscriptable")
  | JBool _ => Raise (OtherException "'bool' object is not subscriptable")
  | JNum _ => Raise (OtherException "'int' object is not subscriptable")
  | JStr _ => Raise (OtherException "string indices must be integers, not 'str'")
  | JArr _ =>
      Raise (OtherException "list indices must be integers or slices, not str")
  end.

(** [v.get(key)]: reached only after [v[...]] succeeded, so [v] is a
    dictionary there. *)
Definition get_value (v : json) (key : string) : json :=
  match v with
  | JObj d => default JNull (d !! key)
  | _ => JNull
  end.

(** lines 62-75 *)
Definition _create_rriot (rriot_data : gmap string json) : outcome RRiot :=
  try r := subscript rriot_data "r" in
  try a := subscript_value r "a" in
  let ref := {| ref_a := a; ref_m := get_value r "m"; ref_l := get_value r "l" |} in
  try u := subscript rriot_data "u" in
  try s := subscript rriot_data "s" in
  try h := subscript rriot_data "h" in
  try k := subscript rriot_data "k" in
  Ok {| rriot_u := u; rriot_s := s; rriot_h := h; rriot_k := k; rriot_r := ref |}.

(** lines 190-192: what [send_command] returns for a reply. *)
Definition reply_of (response : ResponseMessage) : reply :=
  match api_error response with
  | Some err => Failure err
  | None => Success (data response)
  end.

(** line 131 *)
Definition not_initialized : reply :=
  Failure "Session not initialized. Call /init first.".

(** lines 197-201: the two [except] clauses around the body of
    [send_command]. *)
Definition except_clauses (e : exn) : reply :=
  match e with
  | RoborockException msg => Failure msg
  | OtherException msg => Failure ("Unexpected error: " +:+ msg)
  end.

(** *** [on_message] (lines 142-158) *)

(** [self.pending_responses.pop(rid)] on an entry that is there. *)
Definition pop_pending (rid : string) (s : state) : state :=
  emit (Pop rid) (set_pending_responses (delete rid (pending_responses s)) s).

(** [set_result], [set_exception] or [cancel] on a future. *)
Definition set_future (fut : nat) (v : future_state) (a : action)
    (s : state) : state :=
  emit a (set_futures (<[fut := v]> (futures s)) s).

(** lines 149-152 and 155-158: take the entry of [rid] out of
    [pending_responses] if it is there, and set the future unless it is
    done. *)
Definition take_and_set (rid : string) (v : future_state)
    (a : nat → action) (s : state) : state :=
  match pending_responses s !! rid with
  | Some fut =>
      let s := pop_pending rid s in
      match futures s !! fut with
      | Some f => if done f then s else set_future fut v (a fut) s
      | None => s
      end
  | None => s
  end.

(** lines 146-152: the loop over the parsed messages; the second
    component is the exception that left the loop, if any. *)
Fixpoint on_message_loop (rid : string) (messages : list RoborockMessage)
    (s : state) : state * option exn :=
  match messages with
  | [] => (s, None)
  | msg :: rest =>
      match protocol msg with
      | RPC_RESPONSE =>
          match decode_rpc_response X msg with
          | Ok response =>
              on_message_loop rid rest
                (take_and_set rid (Result response)
                   (λ fut, SetResult fut response) s)
          | Raise e => (s, Some e)
          end
      | _ => on_message_loop rid rest s
      end
  end.

Definition on_message (h : handler) (data : bytes) (s : state) : state :=
  let rid := h_request_id h in
  let failed e := take_and_set rid (Exception e) (λ fut, SetException fut e) in
  match parse X data (h_local_key h) with
  | Ok messages =>
      match on_message_loop rid messages s with
      | (s, Some e) => failed e s
      | (s, None) => s
      end
  | Raise e => failed e s
  end.

(** *** [send_command] (lines 118-201) *)

Definition subscribe_topic (l : send_locals) : string :=
  "rr/m/o/" +:+ format (rriot_u (rriot l)) +:+ "/"
    +:+ username (mqtt_params l) +:+ "/" +:+ device_id l.

Definition publish_topic (l : send_locals) : string :=
  "rr/m/i/" +:+ format (rriot_u (rriot l)) +:+ "/"
    +:+ username (mqtt_params l) +:+ "/" +:+ device_id l.

(** line 138 *)
Definition make_request_id (user device : string) (n : N) : string :=
  user +:+ ":" +:+ device +:+ ":" +:+ pretty n.

Definition handler_of (l : send_locals) : handler :=
  {| h_request_id := request_id l; h_local_key := local_key l |}.

(** lines 137-140: the counter goes up to [n], a new future [fut] is
    created and stored under [rid]. *)
Definition register (tid : nat) (n : N) (rid : string) (fut : nat)
    (s : state) : state :=
  let s := emit (Allocated tid n rid) (set_request_counter n s) in
  let s := set_futures (<[fut := Pending]> (futures s)) (set_next_id (S fut) s) in
  set_pending_responses (<[rid := fut]> (pending_responses s)) s.

(** lines 127-170, up to the [await] of [session.subscribe].  The wait of
    30.0 seconds at line 189 is the only timeout: there is no parameter
    for it. *)
Definition send_command (tid : nat) (user device key cmd : string)
    (ps : option (list json)) (s : state) : state :=
  match sessions s !! user, rriot_data s !! user with
  | Some sess, Some r =>
      match create_mqtt_params X r with
      | Raise e => finish tid (except_clauses e) s
      | Ok mp =>
          let n := (request_counter s + 1)%N in
          let rid := make_request_id user device n in
          let fut := next_id s in
          let s := register tid n rid fut s in
          let l := {| user_id := user; device_id := device; local_key := key;
                      command := cmd; params := ps; session := sess;
                      rriot := r; mqtt_params := mp; request_id := rid;
                      response_future := fut |} in
          match default ∅ (subscriptions s !! user) !! device with
          | None =>
              suspend tid (SendAwaitSubscribe l false)
                (emit (Subscribe sess (subscribe_topic l) (handler_of l)) s)
          | Some old_unsub =>
              suspend tid (SendAwaitSubscribe l true)
                (emit (Subscribe sess (subscribe_topic l) (handler_of l))
                   (unsubscribe old_unsub s))
          end
      end
  | _, _ => finish tid not_initialized s
  end.

(** lines 164 and 171: the token goes into [subscriptions]; line 171
    subscripts [self.subscriptions[user_id]] and raises [KeyError] when
    the user's entry has gone in the meantime. *)
Definition store_token (l : send_locals) (replacing : bool) (token : nat)
    (s : state) : outcome state :=
  let user := user_id l in
  if replacing then
    match subscriptions s !! user with
    | Some devices =>
        Ok (set_subscriptions
              (<[user := <[device_id l := token]> devices]> (subscriptions s)) s)
    | None => Raise (KeyError user)
    end
  else
    Ok (set_subscriptions
          (<[user := <[device_id l := token]> (default ∅ (subscriptions s !! user))]>
             (subscriptions s)) s).

(** lines 163-183: [session.subscribe] has returned or raised; the
    callback is registered when it returns. *)
Definition send_command_subscribed (tid : nat) (l : send_locals)
    (replacing : bool) (o : outcome unit) (s : state) : state :=
  match o with
  | Raise e => finish tid (except_clauses e) s
  | Ok _ =>
      let '(token, s) := fresh s in
      let sub := {| sub_session := session l; sub_topic := subscribe_topic l;
                    sub_handler := handler_of l |} in
      let s := set_callbacks (<[token := sub]> (callbacks s)) s in
      match store_token l replacing token s with
      | Raise e => finish tid (except_clauses e) s
      | Ok s =>
          match encode_request X (rriot l) (local_key l) (command l)
                  (default [] (params l)) with
          | Raise e => finish tid (except_clauses e) s
          | Ok encoded =>
              suspend tid (SendAwaitPublish l)
                (emit (Publish (session l) (publish_topic l) encoded) s)
          end
      end
  end.

(** line 189: [timeout=30.0] *)
Definition wait_timeout : N := 30000.

(** lines 183-189: [session.publish] has returned or raised; on return
    the coroutine waits for the future. *)
Definition send_command_published (tid : nat) (l : send_locals)
    (o : outcome unit) (s : state) : state :=
  match o with
  | Raise e => finish tid (except_clauses e) s
  | Ok _ => suspend tid (SendAwaitFuture l (clock s + wait_timeout)) s
  end.

(** [asyncio.wait_for] at its deadline: the timer releases the coroutine
    that waits for a future that is not done.  (When the future is done
    the coroutine has been released already, and the timer does nothing.) *)
Definition wait_for_expired (tid : nat) (l : send_locals) (deadline : N)
    (s : state) : option state :=
  match futures s !! response_future l with
  | Some Pending =>
      if decide (deadline ≤ clock s)%N then Some (suspend tid (SendTimedOut l) s)
      else None
  | _ => None
  end.

(** lines 189-192 and 197-201: the future is done, [wait_for] returns its
    result or raises its exception. *)
Definition send_command_resolved (tid : nat) (l : send_locals) (s : state)
    : option state :=
  match futures s !! response_future l with
  | Some (Result response) => Some (finish tid (reply_of response) s)
  | Some (Exception e) => Some (finish tid (except_clauses e) s)
  | _ => None
  end.

(** [asyncio.wait_for], resumed after the timer: a future that is done
    by now gives its outcome; one that is not is cancelled, and the
    coroutine waits for the cancellation to be delivered. *)
Definition wait_for_resumed (tid : nat) (l : send_locals) (s : state)
    : option state :=
  let fut := response_future l in
  match futures s !! fut with
  | Some Pending =>
      Some (suspend tid (SendCancelled l)
              (set_future fut Cancelled (Cancel fut) s))
  | _ => send_command_resolved tid l s
  end.

(** lines 193-195: [TimeoutError] arrives. *)
Definition send_command_timed_out (tid : nat) (l : send_locals) (s : state)
    : state :=
  let rid := request_id l in
  let s := match pending_responses s !! rid with
           | Some _ => pop_pending rid s
           | None => s
           end in
  finish tid (Failure "Command timeout") s.

(** [asyncio.wait_for], resumed after the cancellation: the future is
    cancelled, which [wait_for] turns into [TimeoutError]. *)
Definition wait_for_cancelled (tid : nat) (l : send_locals) (s : state)
    : option state :=
  match futures s !! response_future l with
  | Some Cancelled => Some (send_command_timed_out tid l s)
  | _ => send_command_resolved tid l s
  end.

(** *** [_close_session] (lines 100-116) and [initialize] (lines 77-98) *)

(** The coroutine [tid] ends with an exception that nothing catches. *)
Definition propagate (tid : nat) (e : exn) (s : state) : state :=
  emit (Raised tid e) (set_tasks (delete tid (tasks s)) s).

(** lines 85-86: the credentials, if the two calls do not raise. *)
Definition credentials (rd : gmap string json) : outcome RRiot :=
  try r := _create_rriot rd in
  try mp := create_mqtt_params X r in Ok r.

(** lines 84-98 up to the [await] of [session.start]; [async with]
    releases the lock on the way out. *)
Definition initialize_connect (tid : nat) (user : string)
    (rd : gmap string json) (s : state) : state :=
  match credentials rd with
  | Ok r =>
      let '(sess, s) := fresh s in
      suspend tid (InitAwaitStart user r sess) (emit (Start sess) s)
  | Raise e => finish tid (Failure (str e)) (set_lock false s)
  end.

(** lines 88-98: [session.start] has returned or raised. *)
Definition initialize_started (tid : nat) (user : string) (r : RRiot)
    (sess : nat) (o : outcome unit) (s : state) : state :=
  match o with
  | Ok _ =>
      let s := set_sessions (<[user := sess]> (sessions s)) s in
      let s := set_rriot_data (<[user := r]> (rriot_data s)) s in
      let s := set_subscriptions (<[user := ∅]> (subscriptions s)) s in
      finish tid SuccessOnly (set_lock false s)
  | Raise e => finish tid (Failure (str e)) (set_lock false s)
  end.

(** [_close_session] has returned to whoever awaited it. *)
Definition close_session_return (tid : nat) (user : string) (k : caller)
    (s : state) : state :=
  match k with
  | FromDisconnect => finish tid PyNone s
  | FromInitialize rd => initialize_connect tid user rd s
  end.

(** [_close_session] has raised: the exception leaves [initialize] too,
    which is not inside its [try] yet. *)
Definition close_session_raise (tid : nat) (k : caller) (e : exn)
    (s : state) : state :=
  match k with
  | FromDisconnect => propagate tid e s
  | FromInitialize _ => propagate tid e (set_lock false s)
  end.

(** lines 115-116 *)
Definition forget_rriot (user : string) (s : state) : state :=
  set_rriot_data (delete user (rriot_data s)) s.

(** lines 102-110, up to the [await] of [close]. *)
Definition _close_session (tid : nat) (user : string) (k : caller)
    (s : state) : state :=
  let s := match subscriptions s !! user with
           | Some devices =>
               let s := foldl (λ s token, unsubscribe token s) s
                          (map_to_list devices).*2 in
               set_subscriptions (delete user (subscriptions s)) s
           | None => s
           end in
  match sessions s !! user with
  | Some sess => suspend tid (CloseAwaitClose user k) (emit (Close sess) s)
  | None => close_session_return tid user k (forget_rriot user s)
  end.

(** lines 110-116: [close] has returned, or raised and been logged;
    [del self.sessions[user_id]] raises [KeyError] when the entry has gone
    in the meantime. *)
Definition close_session_closed (tid : nat) (user : string) (k : caller)
    (s : state) : state :=
  match sessions s !! user with
  | Some _ =>
      close_session_return tid user k
        (forget_rriot user (set_sessions (delete user (sessions s)) s))
  | None => close_session_raise tid k (KeyError user) s
  end.

(** lines 79-82, with the lock held. *)
Definition initialize (tid : nat) (user : string) (rd : gmap string json)
    (s : state) : state :=
  let s := set_lock true s in
  match sessions s !! user with
  | Some _ => _close_session tid user (FromInitialize rd) s
  | None => initialize_connect tid user rd s
  end.

(** ** The event loop *)

(** What can happen next: a call of one of the three coroutines (from the
    HTTP handlers), the lock becoming available to a waiting [initialize],
    an awaited transport call returning or raising, the transport calling
    a registered callback with an inbound payload, the timer of
    [wait_for] firing, a coroutine in [wait_for] resuming (its future is
    done, the timer has released it, or its cancellation has been
    delivered), and time passing. *)
Inductive event :=
| CallInitialize (user : string) (rd : gmap string json)
| CallSendCommand (user device key cmd : string) (ps : option (list json))
| CallCloseSession (user : string)
| LockAcquired (tid : nat)
| Resume (tid : nat) (o : outcome unit)
| Message (token : nat) (payload : bytes)
| Timeout (tid : nat)
| Wake (tid : nat)
| Tick (ms : N).

(** One transition; [None] when the event cannot happen in [s]. *)
Definition step (ev : event) (s : state) : option state :=
  match ev with
  | CallInitialize user rd =>
      let '(tid, s) := fresh s in
      if _lock s then Some (suspend tid (InitAwaitLock user rd) s)
      else Some (initialize tid user rd s)
  | CallSendCommand user device key cmd ps =>
      let '(tid, s) := fresh s in
      Some (send_command tid user device key cmd ps s)
  | CallCloseSession user =>
      let '(tid, s) := fresh s in
      Some (_close_session tid user FromDisconnect s)
  | LockAcquired tid =>
      match tasks s !! tid with
      | Some (InitAwaitLock user rd) =>
          if _lock s then None else Some (initialize tid user rd s)
      | _ => None
      end
  | Resume tid o =>
      match tasks s !! tid with
      | Some (SendAwaitSubscribe l replacing) =>
          Some (send_command_subscribed tid l replacing o s)
      | Some (SendAwaitPublish l) => Some (send_command_published tid l o s)
      | Some (CloseAwaitClose user k) => Some (close_session_closed tid user k s)
      | Some (InitAwaitStart user r sess) =>
          Some (initialize_started tid user r sess o s)
      | _ => None
      end
  | Message token payload =>
      match callbacks s !! token with
      | Some sub => Some (on_message (sub_handler sub) payload s)
      | None => None
      end
  | Timeout tid =>
      match tasks s !! tid with
      | Some (SendAwaitFuture l deadline) => wait_for_expired tid l deadline s
      | _ => None
      end
  | Wake tid =>
      match tasks s !! tid with
      | Some (SendAwaitFuture l _) => send_command_resolved tid l s
      | Some (SendTimedOut l) => wait_for_resumed tid l s
      | Some (SendCancelled l) => wait_for_cancelled tid l s
      | _ => None
      end
  | Tick ms => Some (set_clock (clock s + ms) s)
  end.

(** A run from [s]. *)
Fixpoint run (evs : list event) (s : state) : option state :=
  match evs with
  | [] => Some s
  | ev :: evs => s' ← step ev s; run evs s'
  end.

(** The states the daemon can be in. *)
Inductive reachable : state → Prop :=
| reachable_init : reachable init
| reachable_step ev s s' : reachable s → step ev s = Some s' → reachable s'.

End Daemon.

(** * Auxiliary definitions *)

(** ** Request identifiers *)

(** Does [s] contain a colon? *)
Fixpoint has_colon (s : string) : bool :=
  match s with
  | EmptyString => false
  | String c r => if decide (c = ":"%char) then true else has_colon r
  end.

(** The part of [s] after its last colon ([s] itself when there is none). *)
Fixpoint last_field (s : string) : string :=
  match s with
  | EmptyString => EmptyString
  | String c r =>
      if has_colon r then last_field r
      else if decide (c = ":"%char) then r else s
  end.

(** ** Reading the history *)

Fixpoint count (p : action → bool) (h : list action) : nat :=
  match h with
  | [] => 0
  | a :: h => (if p a then 1 else 0) + count p h
  end.

Definition is_pop (rid : string) (a : action) : bool :=
  match a with Pop r => bool_decide (r = rid) | _ => false end.

(** A future is resolved by [set_result], [set_exception] or [cancel]. *)
Definition is_resolution (fut : nat) (a : action) : bool :=
  match a with
  | SetResult f _ | SetException f _ | Cancel f => bool_decide (f = fut)
  | _ => false
  end.

(** How often the entry of [rid] was removed from [pending_responses]. *)
Definition pops (rid : string) (h : list action) : nat := count (is_pop rid) h.

(** How often the future [fut] was resolved. *)
Definition resolutions (fut : nat) (h : list action) : nat :=
  count (is_resolution fut) h.

(** The request identifiers handed out, with their counter values. *)
Definition allocated (h : list action) : list (N * string) :=
  omap (λ a, match a with Allocated _ n rid => Some (n, rid) | _ => None end) h.

(** The calls to the transport. *)
Definition is_transport_call (a : action) : bool :=
  match a with
  | Subscribe _ _ _ | Unsubscribe _ | Publish _ _ _ | Start _ | Close _ => true
  | _ => false
  end.

(** The local variables of a suspended [send_command]. *)
Definition locals (t : task) : option send_locals :=
  match t with
  | SendAwaitSubscribe l _ | SendAwaitPublish l
  | SendAwaitFuture l _ | SendTimedOut l | SendCancelled l => Some l
  | _ => None
  end.

(** [rid] is a request identifier built from a counter value up to [c]. *)
Definition issued (c : N) (rid : string) : Prop :=
  ∃ user device n, rid = make_request_id user device n ∧ (n ≤ c)%N.

(** ** Invariants of the reachable states *)

(** Object identities and request identifiers in use are old ones. *)
Record ids_ok (s : state) : Prop := {
  fresh_future i : next_id s ≤ i → futures s !! i = None;
  pending_issued rid fut :
    pending_responses s !! rid = Some fut →
    issued (request_counter s) rid ∧ fut < next_id s;
  task_issued tid t l :
    tasks s !! tid = Some t → locals t = Some l →
    issued (request_counter s) (request_id l) ∧ response_future l < next_id s;
  callback_issued token sub :
    callbacks s !! token = Some sub →
    issued (request_counter s) (h_request_id (sub_handler sub));
  pop_issued rid :
    0 < pops rid (history s) → issued (request_counter s) rid
}.

(** The pending table, the futures and the history agree. *)
Record correlated (s : state) : Prop := {
  pending_unpopped rid fut :
    pending_responses s !! rid = Some fut → pops rid (history s) = 0;
  pending_unresolved rid fut :
    pending_responses s !! rid = Some fut →
    futures s !! fut = Some Pending ∨ futures s !! fut = Some Cancelled;
  pending_inj rid1 rid2 fut :
    pending_responses s !! rid1 = Some fut →
    pending_responses s !! rid2 = Some fut → rid1 = rid2;
  popped_once rid : pops rid (history s) ≤ 1;
  unresolved fut :
    futures s !! fut = Some Pending ∨ futures s !! fut = None →
    resolutions fut (history s) = 0;
  resolved_once fut : resolutions fut (history s) ≤ 1;
  task_entry tid t l :
    tasks s !! tid = Some t → locals t = Some l →
    pending_responses s !! request_id l = Some (response_future l) ∨
    (pending_responses s !! request_id l = None ∧
     pops (request_id l) (history s) = 1)
}.

(** Suspended [send_command]s have different request identifiers, and
    one that still awaits [session.subscribe] has its entry and no
    callback yet. *)
Record tasks_ok (s : state) : Prop := {
  task_rid_inj tid1 tid2 t1 t2 l1 l2 :
    tasks s !! tid1 = Some t1 → tasks s !! tid2 = Some t2 →
    locals t1 = Some l1 → locals t2 = Some l2 →
    request_id l1 = request_id l2 → tid1 = tid2;
  subscribing tid l replacing :
    tasks s !! tid = Some (SendAwaitSubscribe l replacing) →
    pending_responses s !! request_id l = Some (response_future l) ∧
    ∀ token sub, callbacks s !! token = Some sub →
      h_request_id (sub_handler sub) ≠ request_id l
}.

(** The coroutines inside [async with self._lock]. *)
Definition holds_lock (t : task) : bool :=
  match t with
  | InitAwaitStart _ _ _ | CloseAwaitClose _ (FromInitialize _) => true
  | _ => false
  end.

(** Sessions and credentials go together, and [initialize] is alone past
    the lock. *)
Record lifecycle_ok (s : state) : Prop := {
  credentials_with_session user :
    sessions s !! user = None ↔ rriot_data s !! user = None;
  unlocked tid t :
    _lock s = false → tasks s !! tid = Some t → holds_lock t = false;
  one_holder tid1 tid2 t1 t2 :
    tasks s !! tid1 = Some t1 → tasks s !! tid2 = Some t2 →
    holds_lock t1 = true → holds_lock t2 = true → tid1 = tid2;
  starting tid user r sess :
    tasks s !! tid = Some (InitAwaitStart user r sess) →
    sessions s !! user = None
}.

(** The counter values handed out are 1, 2, ... up to the counter, each
    in the identifier it was handed out with. *)
Record allocations_ok (s : state) : Prop := {
  allocated_counters :
    (allocated (history s)).*1 = N.of_nat <$> seq 1 (N.to_nat (request_counter s));
  allocated_ids :
    Forall (λ a, ∃ user device, a.2 = make_request_id user device a.1)
      (allocated (history s))
}.

(** The entry of [rid] is there, and neither a suspended [send_command]
    nor a registered callback knows [rid]. *)
Record orphaned (rid : string) (fut : nat) (s : state) : Prop := {
  orphan_entry : pending_responses s !! rid = Some fut;
  orphan_issued : issued (request_counter s) rid;
  orphan_task tid t l :
    tasks s !! tid = Some t → locals t = Some l → request_id l ≠ rid;
  orphan_callback token sub :
    callbacks s !! token = Some sub → h_request_id (sub_handler sub) ≠ rid
}.

(** A [send_command] that waits for the cancellation of its future to be
    delivered has cancelled it. *)
Definition cancelled_ok (s : state) : Prop :=
  ∀ tid l, tasks s !! tid = Some (SendCancelled l) →
    futures s !! response_future l = Some Cancelled.

(** A future that is not done has its entry in [pending_responses]. *)
Definition registered_ok (s : state) : Prop :=
  ∀ fut, futures s !! fut = Some Pending →
    ∃ rid, pending_responses s !! rid = Some fut.

(** [rid] has been handed out, and no suspended [send_command] is the
    one of [rid]: its send has returned. *)
Record abandoned (rid : string) (s : state) : Prop := {
  abandoned_issued : issued (request_counter s) rid;
  abandoned_task tid t l :
    tasks s !! tid = Some t → locals t = Some l → request_id l ≠ rid
}.

(** The two paths that take an entry out of [pending_responses]: the
    transport calls a callback of the request with a payload, or the
    [send_command] of the request resumes after its wait was cancelled. *)
Definition removal_path (rid : string) (ev : event) (s : state) : Prop :=
  match ev with
  | Message token _ =>
      ∃ sub, callbacks s !! token = Some sub ∧
        h_request_id (sub_handler sub) = rid
  | Wake tid =>
      ∃ l, tasks s !! tid = Some (SendCancelled l) ∧ request_id l = rid
  | _ => False
  end.

(** The coroutine that an event resumes. *)
Definition resumed (ev : event) : option nat :=
  match ev with
  | LockAcquired tid | Resume tid _ | Timeout tid | Wake tid => Some tid
  | _ => None
  end.

(** The states of a [send_command] inside [wait_for]. *)
Definition in_wait (t : task) : option send_locals :=
  match t with
  | SendAwaitFuture l _ | SendTimedOut l | SendCancelled l => Some l
  | _ => None
  end.

(** ** Operations run alone *)

(** From [s] to [s'] the coroutine [tid] has returned [r] and nothing
    else has happened: no call to the transport, no request identifier,
    no change to the tables of the daemon. *)
Definition only_returned (tid : nat) (r : reply) (s s' : state) : Prop :=
  history s' = history s ++ [Return tid r] ∧
  sessions s' = sessions s ∧ rriot_data s' = rriot_data s ∧
  subscriptions s' = subscriptions s ∧
  pending_responses s' = pending_responses s ∧
  request_counter s' = request_counter s ∧
  futures s' = futures s ∧ callbacks s' = callbacks s.

(** The callbacks registered for a topic of a session. *)
Definition live_callbacks (sess : nat) (topic : string) (s : state)
    : list (nat * subscription) :=
  filter (λ c, sub_session c.2 = sess ∧ sub_topic c.2 = topic)
    (map_to_list (callbacks s)).

Section Runs.
Context (X : Externals).

(** [_close_session(user)] called as [handle_disconnect] does and run to
    its end with no other coroutine in between; [o] is what the transport
    answers if [close] is called. *)
Definition close_alone (user : string) (o : outcome unit) (s : state)
    : option state :=
  let tid := next_id s in
  s1 ← step X (CallCloseSession user) s;
  match tasks s1 !! tid with
  | Some _ => step X (Resume tid o) s1
  | None => Some s1
  end.

(** [initialize(user, rd)] run to its end with no other coroutine in
    between; [closed] and [started] are what the transport answers if
    [close] and [start] are called. *)
Definition initialize_alone (user : string) (rd : gmap string json)
    (closed started : outcome unit) (s : state) : option state :=
  let tid := next_id s in
  s1 ← step X (CallInitialize user rd) s;
  s2 ← match tasks s1 !! tid with
       | Some (CloseAwaitClose _ _) => step X (Resume tid closed) s1
       | _ => Some s1
       end;
  match tasks s2 !! tid with
  | Some (InitAwaitStart _ _ _) => step X (Resume tid started) s2
  | _ => Some s2
  end.

(** The first failure among the replies in a parsed payload, if no reply
    decodes before it. *)
Fixpoint first_failure (messages : list RoborockMessage) : option exn :=
  match messages with
  | [] => None
  | msg :: rest =>
      match protocol msg with
      | RPC_RESPONSE =>
          match decode_rpc_response X msg with
          | Ok _ => None
          | Raise e => Some e
          end
      | _ => first_failure rest
      end
  end.

(** The payload fails to decode under the local key: it does not parse,
    or the first reply in it does not decode. *)
Definition decode_failure (payload : bytes) (key : string) : option exn :=
  match parse X payload key with
  | Ok messages => first_failure messages
  | Raise e => Some e
  end.

End Runs.

(** ** The lock, the users, the HTTP handlers and [shutdown] *)

(** Suspended coroutines have old identities, and the lock is held only
    while a coroutine is inside [async with]. *)
Record lock_ok (s : state) : Prop := {
  fresh_task i : next_id s ≤ i → tasks s !! i = None;
  lock_held :
    _lock s = true → ∃ tid t, tasks s !! tid = Some t ∧ holds_lock t = true
}.

(** The user a suspended coroutine works for. *)
Definition task_user (t : task) : string :=
  match t with
  | SendAwaitSubscribe l _ | SendAwaitPublish l
  | SendAwaitFuture l _ | SendTimedOut l | SendCancelled l => user_id l
  | InitAwaitLock user _ | CloseAwaitClose user _ | InitAwaitStart user _ _ =>
      user
  end.

(** The user a transition works for: the one named in the call, or the
    one of the coroutine that goes on.  Inbound messages and the clock
    work for nobody. *)
Definition user_of (ev : event) (s : state) : option string :=
  match ev with
  | CallInitialize user _ | CallSendCommand user _ _ _ _
  | CallCloseSession user => Some user
  | LockAcquired tid | Resume tid _ | Timeout tid | Wake tid =>
      task_user <$> tasks s !! tid
  | Message _ _ | Tick _ => None
  end.

(** Is the transition a step of [initialize] or of [_close_session]? *)
Definition session_step (ev : event) (s : state) : Prop :=
  match ev with
  | CallInitialize _ _ | CallCloseSession _ | LockAcquired _ => True
  | Resume tid _ => ∃ t, tasks s !! tid = Some t ∧ locals t = None
  | _ => False
  end.

(** The unsubscribe tokens stored for [user]. *)
Definition tokens_of (user : string) (s : state) : list nat :=
  (map_to_list (default ∅ (subscriptions s !! user))).*2.

(** ** The HTTP handlers (lines 216-298) *)

(** Python's truth value of a decoded JSON value. *)
Definition truthy (v : json) : bool :=
  match v with
  | JNull => false
  | JBool b => b
  | JNum z => negb (z =? 0)%Z
  | JStr s => negb (String.eqb s "")
  | JArr l => match l with [] => false | _ => true end
  | JObj m => negb (bool_decide (m = ∅))
  end.

(** What a handler does with the body of a request: it answers with
    status 400 and [{"success": False, "error": msg}]; it awaits
    [initialize], [send_command] or [_close_session] with these
    arguments, to answer with what comes back; or an exception that it
    does not catch leaves it. *)
Inductive handled :=
| BadRequest (error : string)
| Initialize (user_id rriot : json)
| SendCommand (user_id device_id local_key command params : json)
| Disconnect (user_id : json)
| Unhandled.

(** [data.get(key)]; only a dictionary has [get]. *)
Definition get_field (data : json) (key : string) : option json :=
  match data with
  | JObj d => Some (default JNull (d !! key))
  | _ => None
  end.

(** lines 216-235; [body] is what [await request.json()] returns, or the
    [JSONDecodeError] it raises. *)
Definition handle_init (body : outcome json) : handled :=
  match body with
  | Raise _ => BadRequest "Invalid JSON"
  | Ok data =>
      match get_field data "user_id", get_field data "rriot" with
      | Some user_id, Some rriot =>
          if negb (truthy user_id) || negb (truthy rriot)
          then BadRequest "Missing user_id or rriot"
          else Initialize user_id rriot
      | _, _ => Unhandled
      end
  end.

(** lines 238-260 *)
Definition handle_command (body : outcome json) : handled :=
  match body with
  | Raise _ => BadRequest "Invalid JSON"
  | Ok data =>
      match get_field data "user_id", get_field data "device_id",
            get_field data "local_key", get_field data "command",
            get_field data "params" with
      | Some user_id, Some device_id, Some local_key, Some command,
        Some params =>
          if forallb truthy [user_id; device_id; local_key; command]
          then SendCommand user_id device_id local_key command params
          else BadRequest "Missing required fields"
      | _, _, _, _, _ => Unhandled
      end
  end.

(** lines 280-298 *)
Definition handle_disconnect (body : outcome json) : handled :=
  match body with
  | Raise _ => BadRequest "Invalid JSON"
  | Ok data =>
      match get_field data "user_id" with
      | Some user_id =>
          if negb (truthy user_id) then BadRequest "Missing user_id"
          else Disconnect user_id
      | None => Unhandled
      end
  end.

Section More.
Context (X : Externals).

(** The first reply in a parsed payload, if it decodes. *)
Fixpoint first_reply (messages : list RoborockMessage)
    : option ResponseMessage :=
  match messages with
  | [] => None
  | msg :: rest =>
      match protocol msg with
      | RPC_RESPONSE =>
          match decode_rpc_response X msg with
          | Ok response => Some response
          | Raise _ => None
          end
      | _ => first_reply rest
      end
  end.

(** lines 203-209: [shutdown], run with no other coroutine in between.
    [user_ids] is [list(self.sessions.keys())], taken before the loop (a
    dictionary of Python keeps its keys in the order they were added; the
    map of the model does not, so the list is given); [closed user] is
    what the transport answers to the [close] of the session of [user]. *)
Fixpoint shutdown_loop (user_ids : list string)
    (closed : string → outcome unit) (s : state) : option state :=
  match user_ids with
  | [] => Some s
  | user_id :: rest =>
      s1 ← close_alone X user_id (closed user_id) s;
      shutdown_loop rest closed s1
  end.

End More.

(** * The one-shot bridge

    [packages/backend/scripts/roborock_bridge.py]: one process per command.
    [send_mqtt_request] is a single coroutine with a session and a future
    of its own; it is cut at its [await]s like the coroutines of the
    daemon, with the same conventions for the transport and for
    [asyncio.wait_for]. *)

Module Bridge.

(** The dictionaries the bridge returns:
    [{"success": True, "result": r}], [{"success": False, "error": msg}]
    and, from [get_device_status], [{"success": True, "status": st}]. *)
Inductive reply :=
| Success (result : json)
| Failure (error : string)
| Status (status : json).

(** The arguments of [send_mqtt_request] (lines 49-56); [timeout] in
    milliseconds. *)
Record request := {
  rriot : RRiot;
  device_id : string;
  local_key : string;
  command : string;
  params : option (list json);
  timeout : N
}.

(** The calls to the transport and what happens to [response_future], in
    the order they happen. *)
Inductive action :=
| Start
| Subscribe (topic : string)
| Publish (topic : string) (encoded : bytes)
| Unsubscribe
| Close
| SetResult (r : ResponseMessage)
| SetException (e : exn)
| Cancel.

(** Where the coroutine is: suspended at one of its [await]s, or at its
    end.  Inside [wait_for] it waits for its future or for the timer
    ([AwaitFuture]), has been released by the timer and not resumed yet
    ([TimedOut]), or has cancelled the future and waits for the
    cancellation to be delivered ([AwaitCancel]).  [AwaitClose r] is the
    [finally] clause, entered with [r] to be returned. *)
Inductive position :=
| AwaitStart
| AwaitSubscribe
| AwaitPublish
| AwaitFuture (deadline : N)
| TimedOut
| AwaitCancel
| AwaitClose (r : reply)
| Returned (r : reply)
| Raised (e : exn).

Record state := {
  args : request;
  mqtt_params : MqttParams;
  (** [None] until line 65 creates the future *)
  response_future : option future_state;
  (** is [on_message] registered with the transport? *)
  registered : bool;
  at_ : position;
  clock : N;
  history : list action
}.

Definition set_response_future (v : option future_state) (s : state) : state :=
  {| args := args s; mqtt_params := mqtt_params s; response_future := v;
     registered := registered s; at_ := at_ s; clock := clock s;
     history := history s |}.
Definition set_registered (v : bool) (s : state) : state :=
  {| args := args s; mqtt_params := mqtt_params s;
     response_future := response_future s; registered := v; at_ := at_ s;
     clock := clock s; history := history s |}.
Definition set_at (v : position) (s : state) : state :=
  {| args := args s; mqtt_params := mqtt_params s;
     response_future := response_future s; registered := registered s;
     at_ := v; clock := clock s; history := history s |}.
Definition set_clock (v : N) (s : state) : state :=
  {| args := args s; mqtt_params := mqtt_params s;
     response_future := response_future s; registered := registered s;
     at_ := at_ s; clock := v; history := history s |}.
Definition set_history (v : list action) (s : state) : state :=
  {| args := args s; mqtt_params := mqtt_params s;
     response_future := response_future s; registered := registered s;
     at_ := at_ s; clock := clock s; history := v |}.

Definition emit (a : action) (s : state) : state :=
  set_history (history s ++ [a]) s.

(** lines 132-143: what [get_device_status] makes of the dictionary that
    [send_mqtt_request] returned. *)
Definition get_device_status_result (result : reply) : reply :=
  match result with
  | Success raw_status =>
      if truthy raw_status then
        Status match raw_status with
               | JArr (first :: _) => first
               | _ => raw_status
               end
      else result
  | _ => result
  end.

Section Coroutine.
Context (X : Externals).

(** lines 33-46 *)
Definition create_rriot (rriot_data : gmap string json) : outcome RRiot :=
  try r := subscript X rriot_data "r" in
  try a := subscript_value X r "a" in
  let ref := {| ref_a := a; ref_m := get_value r "m"; ref_l := get_value r "l" |} in
  try u := subscript X rriot_data "u" in
  try s := subscript X rriot_data "s" in
  try h := subscript X rriot_data "h" in
  try k := subscript X rriot_data "k" in
  Ok {| rriot_u := u; rriot_s := s; rriot_h := h; rriot_k := k; rriot_r := ref |}.

(** lines 114-117 *)
Definition except_clauses (e : exn) : reply :=
  match e with
  | RoborockException msg => Failure msg
  | OtherException msg => Failure ("Unexpected error: " +:+ msg)
  end.

(** lines 106-109: what is returned for a reply. *)
Definition reply_of (response : ResponseMessage) : reply :=
  match api_error response with
  | Some err => Failure err
  | None => Success (data response)
  end.

(** lines 86-95: [create_security_data], [RequestMessage(...)],
    [encode_message] and [MessageParser.build]. *)
Definition encoded (a : request) : outcome bytes :=
  encode_request X (rriot a) (local_key a) (command a)
    (default [] (params a)).

(** lines 118-119: [finally], entered with [r] to be returned. *)
Definition finally (r : reply) (s : state) : state :=
  set_at (AwaitClose r) (emit Close s).

(** lines 75-76 and 78-79: the future is set unless it is done. *)
Definition set_unless_done (v : future_state) (a : action) (s : state)
    : state :=
  match response_future s with
  | Some f => if done f then s else emit a (set_response_future (Some v) s)
  | None => s
  end.

(** lines 72-76: the loop over the parsed messages; the second component
    is the exception that left the loop, if any. *)
Fixpoint on_message_loop (messages : list RoborockMessage) (s : state)
    : state * option exn :=
  match messages with
  | [] => (s, None)
  | msg :: rest =>
      match protocol msg with
      | RPC_RESPONSE =>
          match decode_rpc_response X msg with
          | Ok response =>
              on_message_loop rest
                (set_unless_done (Result response) (SetResult response) s)
          | Raise e => (s, Some e)
          end
      | _ => on_message_loop rest s
      end
  end.

(** lines 67-79 *)
Definition on_message (data : bytes) (s : state) : state :=
  let failed e := set_unless_done (Exception e) (SetException e) in
  match parse X data (local_key (args s)) with
  | Ok messages =>
      match on_message_loop messages s with
      | (s, Some e) => failed e s
      | (s, None) => s
      end
  | Raise e => failed e s
  end.

(** line 82 *)
Definition subscribe_topic (s : state) : string :=
  "rr/m/o/" +:+ format X (rriot_u (rriot (args s))) +:+ "/"
    +:+ username (mqtt_params s) +:+ "/" +:+ device_id (args s).

(** line 98 *)
Definition publish_topic (s : state) : string :=
  "rr/m/i/" +:+ format X (rriot_u (rriot (args s))) +:+ "/"
    +:+ username (mqtt_params s) +:+ "/" +:+ device_id (args s).

(** lines 58-62, up to the [await] of [session.start].  An exception of
    [create_mqtt_params] leaves the coroutine: it is raised before the
    [try], and no session exists yet. *)
Definition send_mqtt_request (a : request) (now : N) : outcome state :=
  try mp := create_mqtt_params X (rriot a) in
  Ok {| args := a; mqtt_params := mp; response_future := None;
        registered := false; at_ := AwaitStart; clock := now;
        history := [Start] |}.

(** lines 62-83: [session.start] has returned or raised. *)
Definition started (o : outcome unit) (s : state) : state :=
  match o with
  | Raise e => finally (except_clauses e) s
  | Ok _ =>
      let s := set_response_future (Some Pending) s in
      set_at AwaitSubscribe (emit (Subscribe (subscribe_topic s)) s)
  end.

(** lines 83-99: [session.subscribe] has returned or raised; the callback
    is registered when it returns. *)
Definition subscribed (o : outcome unit) (s : state) : state :=
  match o with
  | Raise e => finally (except_clauses e) s
  | Ok _ =>
      let s := set_registered true s in
      match encoded (args s) with
      | Raise e => finally (except_clauses e) s
      | Ok encoded =>
          set_at AwaitPublish (emit (Publish (publish_topic s) encoded) s)
      end
  end.

(** lines 99-103: [session.publish] has returned or raised; on return the
    coroutine waits for the future, for the [timeout] it was given. *)
Definition published (o : outcome unit) (s : state) : state :=
  match o with
  | Raise e => finally (except_clauses e) s
  | Ok _ => set_at (AwaitFuture (clock s + timeout (args s))) s
  end.

(** [asyncio.wait_for] at its deadline: the timer releases the coroutine
    that waits for a future that is not done. *)
Definition wait_for_expired (deadline : N) (s : state) : option state :=
  match response_future s with
  | Some Pending =>
      if decide (deadline ≤ clock s)%N then Some (set_at TimedOut s) else None
  | _ => None
  end.

(** Calling the unsubscribe token removes the callback. *)
Definition unsubscribe (s : state) : state :=
  emit Unsubscribe (set_registered false s).

(** lines 103-109 and 114-119: the future is done; [wait_for] returns its
    result or raises its exception. *)
Definition resolved (s : state) : option state :=
  match response_future s with
  | Some (Result response) =>
      let s := unsubscribe s in
      Some (finally (reply_of response) s)
  | Some (Exception e) => Some (finally (except_clauses e) s)
  | _ => None
  end.

(** [asyncio.wait_for], resumed after the timer: a future that is done
    by now gives its outcome; one that is not is cancelled, and the
    coroutine waits for the cancellation to be delivered. *)
Definition wait_for_resumed (s : state) : option state :=
  match response_future s with
  | Some Pending =>
      Some (set_at AwaitCancel
              (emit Cancel (set_response_future (Some Cancelled) s)))
  | _ => resolved s
  end.

(** lines 110-112 and 118-119: [TimeoutError] arrives. *)
Definition timed_out (s : state) : state :=
  finally (Failure "Command timeout") (unsubscribe s).

(** [asyncio.wait_for], resumed after the cancellation: the future is
    cancelled, which [wait_for] turns into [TimeoutError]. *)
Definition wait_for_cancelled (s : state) : option state :=
  match response_future s with
  | Some Cancelled => Some (timed_out s)
  | _ => resolved s
  end.

(** line 119: [session.close] has returned, and the coroutine returns
    [r], or it has raised, and its exception replaces [r]. *)
Definition closed (r : reply) (o : outcome unit) (s : state) : state :=
  match o with
  | Ok _ => set_at (Returned r) s
  | Raise e => set_at (Raised e) s
  end.

(** What can happen next: the awaited transport call returns or raises,
    the transport calls [on_message] with an inbound payload, the timer
    of [wait_for] fires, the coroutine in [wait_for] resumes (its future
    is done, the timer has released it, or its cancellation has been
    delivered), time passes. *)
Inductive event :=
| Resume (o : outcome unit)
| Message (payload : bytes)
| Timeout
| Wake
| Tick (ms : N).

(** Has the coroutine ended? *)
Definition ended (s : state) : bool :=
  match at_ s with Returned _ | Raised _ => true | _ => false end.

(** One transition; [None] when the event cannot happen in [s]. *)
Definition step (ev : event) (s : state) : option state :=
  match ev with
  | Resume o =>
      match at_ s with
      | AwaitStart => Some (started o s)
      | AwaitSubscribe => Some (subscribed o s)
      | AwaitPublish => Some (published o s)
      | AwaitClose r => Some (closed r o s)
      | _ => None
      end
  | Message payload =>
      if registered s && negb (ended s) then Some (on_message payload s)
      else None
  | Timeout =>
      match at_ s with
      | AwaitFuture deadline => wait_for_expired deadline s
      | _ => None
      end
  | Wake =>
      match at_ s with
      | AwaitFuture _ => resolved s
      | TimedOut => wait_for_resumed s
      | AwaitCancel => wait_for_cancelled s
      | _ => None
      end
  | Tick ms => if ended s then None else Some (set_clock (clock s + ms) s)
  end.

(** A run from [s]. *)
Fixpoint run (evs : list event) (s : state) : option state :=
  match evs with
  | [] => Some s
  | ev :: evs => s' ← step ev s; run evs s'
  end.

(** lines 122-130: the call [get_device_status] makes, with 15.0 seconds
    to wait. *)
Definition status_request (rriot : RRiot) (device_id local_key : string)
    : request :=
  {| rriot := rriot; device_id := device_id; local_key := local_key;
     command := "get_status"; params := None; timeout := 15000 |}.

(** lines 185-191: the call [main] makes for the action "command"; the
    wait is the default of the parameter, 30.0 seconds. *)
Definition command_request (rriot : RRiot)
    (device_id local_key command : string) (params : option (list json))
    : request :=
  {| rriot := rriot; device_id := device_id; local_key := local_key;
     command := command; params := params; timeout := 30000 |}.

(** *** [main] (lines 146-211) *)

(** The exceptions lines 167-172 tell apart: [KeyError] with its key, and
    any other exception with its [str()]. *)
Inductive rriot_error :=
| MissingField (key : string)
| OtherError (msg : string).

(** [v[key]] on any decoded JSON value (the messages are CPython's). *)
Definition item (v : json) (key : string) : rriot_error + json :=
  match v with
  | JObj d =>
      match d !! key with
      | Some x => inr x
      | None => inl (MissingField key)
      end
  | JNull => inl (OtherError "'NoneType' object is not subscriptable")
  | JBool _ => inl (OtherError "'bool' object is not subscriptable")
  | JNum _ => inl (OtherError "'int' object is not subscriptable")
  | JStr _ => inl (OtherError "string indices must be integers, not 'str'")
  | JArr _ =>
      inl (OtherError "list indices must be integers or slices, not str")
  end.

Definition and_then {A B} (f : A → rriot_error + B) (x : rriot_error + A)
    : rriot_error + B :=
  match x with inl e => inl e | inr a => f a end.

(** lines 33-46 again, on whatever [input_data["rriot"]] is, with the
    kind of the exception kept. *)
Definition create_rriot_of (rriot_data : json) : rriot_error + RRiot :=
  and_then (λ r,
  and_then (λ a,
  let ref := {| ref_a := a; ref_m := get_value r "m"; ref_l := get_value r "l" |} in
  and_then (λ u,
  and_then (λ s,
  and_then (λ h,
  and_then (λ k,
  inr {| rriot_u := u; rriot_s := s; rriot_h := h; rriot_k := k; rriot_r := ref |})
    (item rriot_data "k"))
    (item rriot_data "h"))
    (item rriot_data "s"))
    (item rriot_data "u"))
    (item r "a"))
    (item rriot_data "r").

(** Does [s] occur in [t]? *)
Definition occurs_in (s t : string) : bool :=
  match String.index 0 s t with Some _ => true | None => false end.

(** [key in v]; [None] is the [TypeError] of a value that is no
    container. *)
Definition contains (v : json) (key : string) : option bool :=
  match v with
  | JObj d => Some (bool_decide (is_Some (d !! key)))
  | JArr l =>
      Some (existsb (λ x, match x with
                          | JStr s => String.eqb s key
                          | _ => false
                          end) l)
  | JStr s => Some (occurs_in key s)
  | _ => None
  end.

(** How [main] ends: it prints [{"error": msg}] and exits with status 1,
    it calls [send_mqtt_request] or [get_device_status] with these
    arguments (and prints what comes back), or an exception that no
    clause catches ends the process. *)
Inductive cli :=
| ExitError (error : string)
| SendCommand (rriot : RRiot) (device_id local_key command params : json)
| GetStatus (rriot : RRiot) (device_id local_key : json)
| Uncaught.

(** A field the action needs is looked for (lines 175-183, 195-200). *)
Definition require (input_data : json) (key : string) (error : string)
    (k : cli) : cli :=
  match contains input_data key with
  | Some true => k
  | Some false => ExitError error
  | None => Uncaught
  end.

(** [d[key]] where [main] has checked [key in d] before. *)
Definition checked_item (input_data : json) (key : string) : json :=
  match item input_data key with inr v => v | inl _ => JNull end.

(** lines 146-211; [stdin] is what [json.loads(sys.stdin.read())] returns,
    or the [JSONDecodeError] it raises. *)
Definition main (argv : list string) (stdin : outcome json) : cli :=
  match argv with
  | _ :: action :: _ =>
      match stdin with
      | Raise e => ExitError ("Invalid JSON input: " +:+ str e)
      | Ok input_data =>
          require input_data "rriot" "Missing 'rriot' in input"
            match and_then create_rriot_of (item input_data "rriot") with
            | inl (MissingField key) =>
                ExitError ("Missing rriot field: " +:+ py_repr X (JStr key))
            | inl (OtherError msg) =>
                ExitError ("Failed to create rriot: " +:+ msg)
            | inr rriot =>
                if String.eqb action "command" then
                  require input_data "device_id"
                    "Missing 'device_id' for command"
                    (require input_data "local_key"
                       "Missing 'local_key' for command"
                       (require input_data "command"
                          "Missing 'command' for command action"
                          (SendCommand rriot
                             (checked_item input_data "device_id")
                             (checked_item input_data "local_key")
                             (checked_item input_data "command")
                             (get_value input_data "params"))))
                else if String.eqb action "get_status" then
                  require input_data "device_id"
                    "Missing 'device_id' for get_status"
                    (require input_data "local_key"
                       "Missing 'local_key' for get_status"
                       (GetStatus rriot
                          (checked_item input_data "device_id")
                          (checked_item input_data "local_key")))
                else ExitError ("Unknown action: " +:+ action)
            end
      end
  | _ => ExitError "Usage: roborock_bridge.py <action>"
  end.

(** What the coroutine returns when [wait_for] hands it the outcome [f]
    of the future: the reply, or what the [except] clauses make of the
    exception. *)
Definition outcome_reply (f : future_state) : option reply :=
  match f with
  | Result response => Some (reply_of response)
  | Exception e => Some (except_clauses e)
  | _ => None
  end.

End Coroutine.

(** The calls to the transport in a history. *)
Definition is_transport_call (a : action) : bool :=
  match a with
  | SetResult _ | SetException _ | Cancel => false
  | _ => true
  end.

Definition transport_calls (h : list action) : list action :=
  filter (λ a, is_transport_call a) h.

Definition is_failure (r : reply) : bool :=
  match r with Failure _ => true | _ => false end.

(** From [s] to [s'] nothing has changed but, at most, a future that was
    not done, and the history by what was done to it. *)
Record callback_only (s s' : state) : Prop := {
  cb_args : args s' = args s;
  cb_mqtt_params : mqtt_params s' = mqtt_params s;
  cb_registered : registered s' = registered s;
  cb_at : at_ s' = at_ s;
  cb_clock : clock s' = clock s;
  cb_calls : transport_calls (history s') = transport_calls (history s);
  cb_done f :
    response_future s = Some f → done f = true → response_future s' = Some f
}.

Section Shapes.
Context (X : Externals).

(** The calls made when the coroutine is in its [finally] clause or past
    it, with [r] to return: the whole sequence, or a sequence cut short
    by an exception, and then [r] is a failure. *)
Definition closing (s0 : state) (r : reply) (s : state) : Prop :=
  let calls := transport_calls (history s) in
  let sub := Subscribe (subscribe_topic X s0) in
  (∃ enc, encoded X (args s0) = Ok enc ∧
     calls = [Start; sub; Publish (publish_topic X s0) enc; Unsubscribe; Close] ∧
     registered s = false) ∨
  (is_failure r = true ∧
   ((calls = [Start; Close] ∧ registered s = false) ∨
    calls = [Start; sub; Close] ∨
    (∃ enc, encoded X (args s0) = Ok enc ∧
       calls = [Start; sub; Publish (publish_topic X s0) enc; Close] ∧
       registered s = true))).

(** The calls made so far, by the place the coroutine started from [s0]
    is at. *)
Record protocol_ok (s0 s : state) : Prop := {
  same_args : args s = args s0;
  same_mqtt_params : mqtt_params s = mqtt_params s0;
  calls_so_far :
    let calls := transport_calls (history s) in
    let sub := Subscribe (subscribe_topic X s0) in
    match at_ s with
    | AwaitStart => calls = [Start] ∧ registered s = false
    | AwaitSubscribe => calls = [Start; sub] ∧ registered s = false
    | AwaitPublish | AwaitFuture _ | TimedOut | AwaitCancel =>
        ∃ enc, encoded X (args s0) = Ok enc ∧
          calls = [Start; sub; Publish (publish_topic X s0) enc] ∧
          registered s = true
    | AwaitClose r | Returned r => closing s0 r s
    | Raised _ => ∃ r, closing s0 r s
    end
}.

(** Where a coroutine can be that waited at [s0] for a future whose
    outcome is [f], for which it returns [r]: still there, or on its way
    out with [r], after the calls that go with [f]. *)
Definition after_wait (f : future_state) (r : reply) (s0 s : state) : Prop :=
  response_future s = Some f ∧
  ((at_ s = at_ s0 ∧ transport_calls (history s) = transport_calls (history s0) ∧
    registered s = registered s0) ∨
   ((at_ s = AwaitClose r ∨ at_ s = Returned r ∨ ∃ e, at_ s = Raised e) ∧
    transport_calls (history s) =
      transport_calls (history s0)
        ++ match f with Result _ => [Unsubscribe] | _ => [] end ++ [Close] ∧
    registered s = match f with Result _ => false | _ => registered s0 end)).

End Shapes.

End Bridge.

(** ** A codec and runs to evaluate the model on *)

(** A stand-in for the roborock codec: a payload parses into one message,
    a reply when its first byte is 0; a reply decodes into a result when
    it begins with 0, into a device error when it begins with something
    else, and not at all when it is empty. *)
Definition demo : Externals := {|
  py_repr v := match v with JStr s => "'" +:+ s +:+ "'" | _ => "None" end;
  create_mqtt_params r := Ok {| username := "acct" |};
  encode_request r key cmd ps := Ok [];
  parse payload key :=
    match payload with
    | [] => Raise (OtherException "stream ended")
    | x00 :: rest => Ok [ {| protocol := RPC_RESPONSE; payload := rest |} ]
    | _ :: rest => Ok [ {| protocol := OTHER_PROTOCOL; payload := rest |} ]
    end;
  decode_rpc_response msg :=
    match payload msg with
    | [] => Raise (RoborockException "Invalid V1 message payload")
    | x00 :: _ => Ok {| api_error := None; data := JStr "ok" |}
    | _ => Ok {| api_error := Some "device busy"; data := JNull |}
    end
|}.

Definition creds : gmap string json :=
  {[ "u" := JStr "realm"; "s" := JStr "s"; "h" := JStr "h"; "k" := JStr "k";
     "r" := JObj {[ "a" := JStr "https://api" ]} ]}.

(** The user "u1" has a session. *)
Definition to_ready : list event :=
  [CallInitialize "u1" creds; Resume 0 (Ok ())].

(** A send to "d1" has subscribed and awaits [publish]. *)
Definition to_published : list event :=
  to_ready ++
  [CallSendCommand "u1" "d1" "key" "get_status" None; Resume 2 (Ok ())].

(** It waits for its reply. *)
Definition to_waiting : list event := to_published ++ [Resume 2 (Ok ())].

(** It awaits [subscribe]. *)
Definition to_sent : list event :=
  to_ready ++ [CallSendCommand "u1" "d1" "key" "get_status" None].

(** [publish] raised instead. *)
Definition to_publish_failed : list event :=
  to_published ++ [Resume 2 (Raise (OtherException "not connected"))].

(** Two sends to "d1" were called before [subscribe] returned to either. *)
Definition to_raced : list event :=
  to_ready ++
  [CallSendCommand "u1" "d1" "key" "get_status" None;
   CallSendCommand "u1" "d1" "key" "app_start" None;
   Resume 2 (Ok ()); Resume 4 (Ok ())].

(** A disconnect of "u1" ran while a send awaited [subscribe]. *)
Definition to_stale : list event :=
  to_ready ++
  [CallSendCommand "u1" "d1" "key" "get_status" None;
   CallCloseSession "u1"; Resume 2 (Ok ()); Resume 4 (Ok ())].

(** The reply to the waiting send has arrived. *)
Definition to_replied : list event :=
  to_waiting ++ [Message 4 [x00; x00]].

(** Two sends, to two devices. *)
Definition to_sent_twice : list event :=
  to_ready ++
  [CallSendCommand "u1" "d1" "key" "get_status" None;
   CallSendCommand "u1" "d2" "key" "get_status" None].

(** The send has returned the reply. *)
Definition to_returned : list event := to_replied ++ [Wake 2].

(** [subscribe] raised; later a second send to "d1" timed out. *)
Definition to_subscribe_failed : list event :=
  to_sent ++ [Resume 2 (Raise (OtherException "not connected"))].

Definition to_later : list event :=
  to_subscribe_failed ++
  [CallSendCommand "u1" "d1" "key" "get_status" None;
   Resume 4 (Ok ()); Resume 4 (Ok ()); Tick 30000; Timeout 4; Wake 4; Wake 4].

(** The wait of the send has expired: the timer has released it. *)
Definition to_expired : list event := to_waiting ++ [Tick 30000; Timeout 2].

(** It has resumed and cancelled its future. *)
Definition to_cancelling : list event := to_expired ++ [Wake 2].

(** It has resumed once more and returned the timeout failure. *)
Definition to_given_up : list event := to_cancelling ++ [Wake 2].

(** Or the reply has come after the timer, before the send resumed. *)
Definition to_replied_late : list event :=
  to_expired ++ [Message 4 [x00; x00]].

(** The states these runs end in. *)
Definition ready : state :=
  Eval vm_compute in default init (run demo to_ready init).
Definition sent : state :=
  Eval vm_compute in default init (run demo to_sent init).
Definition published : state :=
  Eval vm_compute in default init (run demo to_published init).
Definition waiting : state :=
  Eval vm_compute in default init (run demo to_waiting init).
Definition replied : state :=
  Eval vm_compute in default init (run demo to_replied init).
Definition returned : state :=
  Eval vm_compute in default init (run demo to_returned init).
Definition subscribe_failed : state :=
  Eval vm_compute in default init (run demo to_subscribe_failed init).
Definition later : state :=
  Eval vm_compute in default init (run demo to_later init).
Definition sent_twice : state :=
  Eval vm_compute in default init (run demo to_sent_twice init).
Definition publish_failed : state :=
  Eval vm_compute in default init (run demo to_publish_failed init).
Definition raced : state :=
  Eval vm_compute in default init (run demo to_raced init).
Definition stale : state :=
  Eval vm_compute in default init (run demo to_stale init).
Definition expired : state :=
  Eval vm_compute in default init (run demo to_expired init).
Definition cancelling : state :=
  Eval vm_compute in default init (run demo to_cancelling init).
Definition given_up : state :=
  Eval vm_compute in default init (run demo to_given_up init).
Definition replied_late : state :=
  Eval vm_compute in default init (run demo to_replied_late init).

(** The local variables of the send in [waiting]. *)
Definition waiting_locals : send_locals :=
  {| user_id := "u1"; device_id := "d1"; local_key := "key";
     command := "get_status"; params := None; session := 1;
     rriot := {| rriot_u := JStr "realm"; rriot_s := JStr "s";
                 rriot_h := JStr "h"; rriot_k := JStr "k";
                 rriot_r := {| ref_a := JStr "https://api"; ref_m := JNull;
                               ref_l := JNull |} |};
     mqtt_params := {| username := "acct" |};
     request_id := "u1:d1:1"; response_future := 3 |}.


(** ** More runs of the stand-in codec *)

(** [initialize] for "u1" awaits [session.start], inside the lock. *)
Definition to_connecting : list event := [CallInitialize "u1" creds].

(** Two disconnects of "u1" are both suspended in [close]. *)
Definition to_closing_twice : list event :=
  to_ready ++ [CallCloseSession "u1"; CallCloseSession "u1"].

Definition connecting : state :=
  Eval vm_compute in default init (run demo to_connecting init).
Definition closing_twice : state :=
  Eval vm_compute in default init (run demo to_closing_twice init).

(** A disconnect of "u1" has been called while its send waits. *)
Definition disconnecting : state :=
  Eval vm_compute in default init (step demo (CallCloseSession "u1") waiting).

(** The callback of the send in [waiting]. *)
Definition waiting_callback : subscription :=
  {| sub_session := 1; sub_topic := "rr/m/o/realm/acct/d1";
     sub_handler := handler_of waiting_locals |}.

(** The reply of the stand-in device. *)
Definition ok_response : ResponseMessage :=
  {| api_error := None; data := JStr "ok" |}.

(** The bridge, asked for the status of "d1". *)
Definition bridge_request : Bridge.request :=
  Bridge.status_request (rriot waiting_locals) "d1" "key".

Definition bridge_start : Bridge.state :=
  {| Bridge.args := bridge_request;
     Bridge.mqtt_params := {| username := "acct" |};
     Bridge.response_future := None; Bridge.registered := false;
     Bridge.at_ := Bridge.AwaitStart; Bridge.clock := 0;
     Bridge.history := [Bridge.Start] |}.

(** [start] and [subscribe] have returned; then [publish]; then the
    reply has come and the coroutine has returned it. *)
Definition bridge_to_published : list Bridge.event :=
  [Bridge.Resume (Ok ()); Bridge.Resume (Ok ())].
Definition bridge_to_waiting : list Bridge.event :=
  bridge_to_published ++ [Bridge.Resume (Ok ())].
Definition bridge_after_reply : list Bridge.event :=
  [Bridge.Wake; Bridge.Resume (Ok ())].
Definition bridge_to_returned : list Bridge.event :=
  bridge_to_waiting ++ Bridge.Message [x00; x00] :: bridge_after_reply.

(** [start] raises. *)
Definition bridge_to_refused : list Bridge.event :=
  [Bridge.Resume (Raise (OtherException "not connected"));
   Bridge.Resume (Ok ())].

Definition bridge_published : Bridge.state :=
  Eval vm_compute in
    default bridge_start (Bridge.run demo bridge_to_published bridge_start).
Definition bridge_waiting : Bridge.state :=
  Eval vm_compute in
    default bridge_start (Bridge.run demo bridge_to_waiting bridge_start).
Definition bridge_returned : Bridge.state :=
  Eval vm_compute in
    default bridge_start (Bridge.run demo bridge_to_returned bridge_start).
Definition bridge_refused : Bridge.state :=
  Eval vm_compute in
    default bridge_start (Bridge.run demo bridge_to_refused bridge_start).

(** An undecodable reply has come instead. *)
Definition bridge_undecoded : Bridge.state :=
  Eval vm_compute in
    default bridge_start
      (Bridge.run demo (Bridge.Message [x00] :: bridge_after_reply)
         bridge_waiting).

(** What the bridge reads from its standard input for a command. *)
Definition command_input : gmap string json :=
  {[ "rriot" := JObj creds; "device_id" := JStr "d1";
     "local_key" := JStr "key"; "command" := JStr "app_start" ]}.

(** The body of a POST /command. *)
Definition command_body : gmap string json :=
  {[ "user_id" := JStr "u1"; "device_id" := JStr "d1";
     "local_key" := JStr "key"; "command" := JStr "app_start" ]}.

(** * Properties *)

(** ** Request identifiers *)

Lemma append_nil y : "" +:+ y = y.
Proof. reflexivity. Qed.

Lemma append_cons c x y : String c x +:+ y = String c (x +:+ y).
Proof. reflexivity. Qed.

Lemma has_colon_app x y : has_colon (x +:+ y) = has_colon x || has_colon y.
Proof.
  induction x as [|c x IH]; [done|].
  rewrite append_cons. simpl. by case_decide.
Qed.

Lemma last_field_app x t :
  has_colon t = false → last_field (x +:+ String ":" t) = t.
Proof.
  intros Ht. induction x as [|c x IH].
  - rewrite append_nil. simpl. by rewrite Ht.
  - rewrite append_cons. simpl. rewrite has_colon_app. simpl.
    by rewrite orb_true_r.
Qed.

Lemma pretty_N_char_no_colon x : pretty_N_char x ≠ ":"%char.
Proof. unfold pretty_N_char. by repeat case_match. Qed.

Lemma pretty_N_go_no_colon x s :
  has_colon s = false → has_colon (pretty_N_go x s) = false.
Proof.
  revert s. induction (N.lt_wf_0 x) as [x _ IH]; intros s Hs.
  destruct (decide (x = 0)%N) as [->|]; [by rewrite pretty_N_go_0|].
  rewrite pretty_N_go_step by lia. apply IH.
  - apply N.div_lt; lia.
  - simpl. case_decide; [|done]. by destruct (pretty_N_char_no_colon (x `mod` 10)).
Qed.

Lemma pretty_N_no_colon (n : N) : has_colon (pretty n) = false.
Proof.
  unfold pretty, pretty_N. case_decide; [done|]. by apply pretty_N_go_no_colon.
Qed.

Lemma app_assoc_colon x y z :
  x +:+ ":" +:+ y +:+ ":" +:+ z = (x +:+ String ":" y) +:+ String ":" z.
Proof.
  induction x as [|c x IH]; [done|]. rewrite !append_cons. by f_equal.
Qed.

Lemma last_field_request_id user device n :
  last_field (make_request_id user device n) = pretty n.
Proof.
  unfold make_request_id. rewrite app_assoc_colon.
  apply last_field_app, pretty_N_no_colon.
Qed.

(** The counter alone tells two request identifiers apart. *)
Lemma make_request_id_inj user1 device1 n1 user2 device2 n2 :
  make_request_id user1 device1 n1 = make_request_id user2 device2 n2 →
  n1 = n2.
Proof.
  intros Heq. apply (inj pretty).
  by rewrite <-(last_field_request_id user1 device1 n1), Heq,
    last_field_request_id.
Qed.

(** ** The history *)

Lemma count_app p h1 h2 : count p (h1 ++ h2) = count p h1 + count p h2.
Proof. induction h1 as [|a h1 IH]; simpl; [done|]. rewrite IH. lia. Qed.

Lemma pops_app rid h1 h2 : pops rid (h1 ++ h2) = pops rid h1 + pops rid h2.
Proof. apply count_app. Qed.

Lemma resolutions_app fut h1 h2 :
  resolutions fut (h1 ++ h2) = resolutions fut h1 + resolutions fut h2.
Proof. apply count_app. Qed.

Lemma allocated_app h1 h2 : allocated (h1 ++ h2) = allocated h1 ++ allocated h2.
Proof. apply omap_app. Qed.

(** ** What [on_message] can do *)

Section OnMessage.
Context (X : Externals).

(** A future is set when it is pending. *)
Lemma take_and_set_eq rid v a s :
  take_and_set rid v a s =
  match pending_responses s !! rid with
  | Some fut =>
      match futures s !! fut with
      | Some Pending => set_future fut v (a fut) (pop_pending rid s)
      | _ => pop_pending rid s
      end
  | None => s
  end.
Proof.
  unfold take_and_set. destruct (pending_responses s !! rid); [|done].
  simpl. by destruct (futures s !! _) as [[]|].
Qed.

Lemma take_and_set_absent rid v a s :
  pending_responses s !! rid = None → take_and_set rid v a s = s.
Proof. rewrite take_and_set_eq. by intros ->. Qed.

Lemma take_and_set_taken rid v a s :
  pending_responses (take_and_set rid v a s) !! rid = None.
Proof.
  rewrite take_and_set_eq. destruct (pending_responses s !! rid) eqn:E; [|done].
  repeat case_match; simpl; apply lookup_delete_eq.
Qed.

(** The loop sets the future at most once: with the first reply that
    decodes, if the entry is there. *)
Lemma on_message_loop_cases rid messages s s' e :
  on_message_loop X rid messages s = (s', e) →
  s' = s ∨ ∃ r, s' = take_and_set rid (Result r) (λ fut, SetResult fut r) s.
Proof.
  revert s. induction messages as [|msg rest IH]; intros s; simpl.
  { intros [= <- <-]. by left. }
  destruct (protocol msg); [by apply IH| |by apply IH].
  destruct (decode_rpc_response X msg) as [r|e']; [|intros [= <- <-]; by left].
  intros Hloop. destruct (pending_responses s !! rid) eqn:E.
  - right. exists r. apply IH in Hloop as [->|[r' ->]]; [done|].
    apply take_and_set_absent, take_and_set_taken.
  - rewrite take_and_set_absent in Hloop by done. by apply IH.
Qed.

(** One call of [on_message] is at most one take of the entry and at most
    one resolution of its future. *)
Lemma on_message_cases h payload s :
  on_message X h payload s = s ∨
  ∃ v a, on_message X h payload s = take_and_set (h_request_id h) v a s ∧
    ((∃ r, v = Result r ∧ a = (λ fut, SetResult fut r)) ∨
     (∃ e, v = Exception e ∧ a = (λ fut, SetException fut e))).
Proof.
  unfold on_message. destruct (parse X payload (h_local_key h)) as [msgs|e].
  - destruct (on_message_loop _ _ _ _) as [s' [e|]] eqn:Hloop;
      apply on_message_loop_cases in Hloop as [->|[r ->]].
    + right. eexists _, _. split; [done|]. right. by exists e.
    + destruct (pending_responses s !! h_request_id h) eqn:E.
      * rewrite (take_and_set_absent _ (Exception e))
          by apply take_and_set_taken.
        right. eexists _, _. split; [done|]. left. by exists r.
      * rewrite (take_and_set_absent _ (Result r)) by done.
        rewrite take_and_set_absent by done. by left.
    + by left.
    + right. eexists _, _. split; [done|]. left. by exists r.
  - right. eexists _, _. split; [done|]. right. by exists e.
Qed.

Lemma on_message_loop_absent rid messages s :
  pending_responses s !! rid = None →
  (on_message_loop X rid messages s).1 = s.
Proof.
  intros Habsent. induction messages as [|msg rest IH]; simpl; [done|].
  destruct (protocol msg); [done| |done].
  destruct (decode_rpc_response X msg); [|done].
  by rewrite take_and_set_absent.
Qed.

Lemma on_message_loop_first_reply rid messages response s :
  first_reply X messages = Some response →
  (on_message_loop X rid messages s).1 =
  take_and_set rid (Result response) (λ fut, SetResult fut response) s.
Proof.
  induction messages as [|msg rest IH]; simpl; [done|].
  destruct (protocol msg); [done| |done].
  destruct (decode_rpc_response X msg); [|done].
  intros [= ->]. apply on_message_loop_absent, take_and_set_taken.
Qed.

Lemma on_message_first_reply h payload messages response s :
  parse X payload (h_local_key h) = Ok messages →
  first_reply X messages = Some response →
  on_message X h payload s =
  take_and_set (h_request_id h) (Result response)
    (λ fut, SetResult fut response) s.
Proof.
  intros Hparse Hfirst. unfold on_message. rewrite Hparse.
  pose proof (on_message_loop_first_reply (h_request_id h) _ _ s Hfirst) as Hloop.
  destruct (on_message_loop _ _ _ _) as [s' [e|]]; simpl in Hloop; subst s'; [|done].
  apply take_and_set_absent, take_and_set_taken.
Qed.

Lemma on_message_decode_failure h payload e s :
  decode_failure X payload (h_local_key h) = Some e →
  on_message X h payload s =
  take_and_set (h_request_id h) (Exception e) (λ fut, SetException fut e) s.
Proof.
  unfold on_message, decode_failure.
  destruct (parse X payload _) as [messages|e']; [|by intros [= ->]].
  intros Hfail.
  assert (on_message_loop X (h_request_id h) messages s = (s, Some e)) as ->;
    [|done].
  induction messages as [|msg rest IH]; simpl in *; [done|].
  destruct (protocol msg); eauto.
  destruct (decode_rpc_response X msg); by simplify_eq.
Qed.

(** A payload with a reply in it, or one that fails to decode, takes the
    entry of the callback it reaches. *)
Lemma on_message_takes h payload s :
  (∃ messages response,
     parse X payload (h_local_key h) = Ok messages ∧
     first_reply X messages = Some response) ∨
  (∃ e, decode_failure X payload (h_local_key h) = Some e) →
  pending_responses (on_message X h payload s) !! h_request_id h = None.
Proof.
  intros [(messages & response & Hparse & Hfirst)|[e Hfail]].
  - rewrite (on_message_first_reply _ _ _ _ _ Hparse Hfirst).
    apply take_and_set_taken.
  - rewrite (on_message_decode_failure _ _ _ _ Hfail).
    apply take_and_set_taken.
Qed.

End OnMessage.

(** ** Invariants *)

Lemma issued_mono c1 c2 rid : (c1 ≤ c2)%N → issued c1 rid → issued c2 rid.
Proof. intros ? (user & device & n & -> & ?). exists user, device, n. split; [done|lia]. Qed.

Lemma issued_fresh c user device :
  ¬ issued c (make_request_id user device (c + 1)).
Proof.
  intros (user' & device' & n & Heq & ?).
  apply make_request_id_inj in Heq. lia.
Qed.

Lemma count_fmap_0 {A} p (f : A → action) l :
  (∀ x, p (f x) = false) → count p (f <$> l) = 0.
Proof. intros Hp. induction l as [|x l IH]; simpl; [done|]. by rewrite Hp. Qed.

Lemma pops_unsubscribe rid tokens : pops rid (Unsubscribe <$> tokens) = 0.
Proof. by apply count_fmap_0. Qed.

Lemma resolutions_unsubscribe fut tokens :
  resolutions fut (Unsubscribe <$> tokens) = 0.
Proof. by apply count_fmap_0. Qed.

Lemma allocated_unsubscribe tokens : allocated (Unsubscribe <$> tokens) = [].
Proof. induction tokens as [|token tokens IH]; simpl; [done|]. apply IH. Qed.

Lemma foldl_delete_Some {A} (m : gmap nat A) tokens i x :
  foldl (λ m token, delete token m) m tokens !! i = Some x → m !! i = Some x.
Proof.
  revert m. induction tokens as [|token tokens IH]; intros m; simpl; [done|].
  intros Hi. apply IH in Hi. by apply lookup_delete_Some in Hi as [_ ?].
Qed.

Lemma foldl_unsubscribe s tokens :
  foldl (λ s token, unsubscribe token s) s tokens =
  set_history (history s ++ (Unsubscribe <$> tokens))
    (set_callbacks (foldl (λ m token, delete token m) (callbacks s) tokens) s).
Proof.
  revert s. induction tokens as [|token tokens IH]; intros s; simpl.
  - rewrite app_nil_r. by destruct s.
  - rewrite IH. unfold unsubscribe, emit, set_history, set_callbacks; simpl.
    by rewrite <-app_assoc.
Qed.

Lemma pops_singleton rid a : pops rid [a] = if is_pop rid a then 1 else 0.
Proof. unfold pops; simpl. by destruct (is_pop rid a). Qed.

Lemma resolutions_singleton fut a :
  resolutions fut [a] = if is_resolution fut a then 1 else 0.
Proof. unfold resolutions; simpl. by destruct (is_resolution fut a). Qed.

Ltac unfold_segments :=
  unfold initialize, _close_session, close_session_closed,
    close_session_return, close_session_raise, initialize_connect,
    initialize_started, send_command, send_command_subscribed, store_token,
    send_command_published, send_command_timed_out, forget_rriot, propagate,
    finish, suspend, unsubscribe.

Ltac unfold_primitives :=
  rewrite ?take_and_set_eq; unfold register, pop_pending, set_future, emit.

(** All the ways one transition can go: first the event and the state of
    the coroutine it resumes, then the branches of the segment it runs.
    [on_message] is replaced by what it amounts to. *)
Ltac step_cases X ev Hstep :=
  destruct ev;
  unfold step, wait_for_expired, wait_for_resumed, wait_for_cancelled,
    send_command_resolved, fresh in Hstep;
  simpl in Hstep;
  repeat (case_match; simplify_eq); simplify_eq;
  unfold_segments; unfold fresh; simpl;
  repeat (case_match; simplify_eq/=);
  repeat match goal with
  | H : context [foldl _ _ (map_to_list _).*2] |- _ =>
      rewrite foldl_unsubscribe in H; simpl in H
  end;
  simplify_eq;
  try match goal with
  | |- context [on_message X ?h ?p ?s] =>
      let Heq := fresh "Heq" in
      let Hva := fresh "Hva" in
      destruct (on_message_cases X h p s) as [Heq|(? & ? & Heq & Hva)];
      rewrite Heq; clear Heq;
      [|destruct Hva as [(? & -> & ->)|(? & -> & ->)]]
  end;
  try rewrite foldl_unsubscribe; simpl.

(** The same, down to the fields of the new state. *)
Ltac step_fields X ev Hstep :=
  step_cases X ev Hstep;
  unfold_primitives; simpl;
  repeat (case_match; simplify_eq/=).

(** Lookups in the updated tables. *)
Ltac lookups :=
  repeat match goal with
  | H : <[_:=_]> _ !! _ = Some _ |- _ =>
      apply lookup_insert_Some in H as [[? ?]|[? H]]; simplify_eq/=
  | H : delete _ _ !! _ = Some _ |- _ =>
      apply lookup_delete_Some in H as [? H]
  | H : foldl (λ m token, delete token m) _ _ !! _ = Some _ |- _ =>
      apply foldl_delete_Some in H
  end.

(** Add a fact to the context unless it is there. *)
Ltac learn H :=
  let T := type of H in
  lazymatch goal with
  | _ : T |- _ => fail
  | _ => pose proof H
  end.

Ltac history :=
  repeat first
    [ rewrite pops_app | rewrite resolutions_app
    | rewrite pops_unsubscribe | rewrite resolutions_unsubscribe
    | rewrite pops_singleton | rewrite resolutions_singleton ];
  repeat match goal with
  | H : context [pops _ (_ ++ _)] |- _ => rewrite pops_app in H
  | H : context [resolutions _ (_ ++ _)] |- _ => rewrite resolutions_app in H
  | H : context [pops _ (Unsubscribe <$> _)] |- _ => rewrite pops_unsubscribe in H
  | H : context [resolutions _ (Unsubscribe <$> _)] |- _ =>
      rewrite resolutions_unsubscribe in H
  | H : context [pops _ [_]] |- _ => rewrite pops_singleton in H
  | H : context [resolutions _ [_]] |- _ => rewrite resolutions_singleton in H
  end;
  simpl in *; rewrite ?Nat.add_0_r in *.

Section Invariants.
Context (X : Externals).

Lemma ids_ok_init : ids_ok init.
Proof. split; unfold pops; simpl; intros; first [done|lia]. Qed.

Lemma issued_now user device c :
  issued (c + 1) (make_request_id user device (c + 1)).
Proof. exists user, device, (c + 1)%N. split; [done|lia]. Qed.

Lemma ids_ok_step ev s s' : ids_ok s → step X ev s = Some s' → ids_ok s'.
Proof.
  intros [Hfut Hpend Htask Hcb Hpop] Hstep. step_fields X ev Hstep.
  all: split; simpl; intros.
  all: lookups; history.
  all: repeat match goal with
       | H : pending_responses _ !! _ = Some _ |- _ =>
           apply Hpend in H as [? ?]
       | H : tasks _ !! _ = Some ?t, H' : locals ?t = Some _ |- _ =>
           destruct (Htask _ _ _ H H'); clear H'
       | H : tasks _ !! _ = Some ?t |- _ =>
           destruct (Htask _ _ _ H eq_refl); clear H
       | H : callbacks _ !! _ = Some _ |- _ => apply Hcb in H
       | H : 0 < pops _ (history _) |- _ => apply Hpop in H
       end.
  all: try (rewrite ?lookup_insert_ne by lia; apply Hfut; lia).
  all: try (split; [|lia]).
  all: try (by eauto using issued_now).
  all: try (eapply issued_mono; [|eassumption]; lia).
  all: repeat case_bool_decide; simplify_eq; rewrite ?Nat.add_0_r in *.
  all: by eauto.
Qed.

(** *** The pending table, the futures and the history *)

Lemma correlated_init : correlated init.
Proof.
  split; unfold pops, resolutions; simpl; intros; first [done|lia|by left].
Qed.

(** Steps that leave the table and the futures alone. *)
Lemma correlated_frame s0 s :
  correlated s0 →
  pending_responses s = pending_responses s0 →
  futures s = futures s0 →
  (∀ rid, pops rid (history s) = pops rid (history s0)) →
  (∀ fut, resolutions fut (history s) = resolutions fut (history s0)) →
  (∀ tid t l, tasks s !! tid = Some t → locals t = Some l →
     (∃ tid0 t0, tasks s0 !! tid0 = Some t0 ∧ locals t0 = Some l) ∨
     pending_responses s0 !! request_id l = Some (response_future l)) →
  correlated s.
Proof.
  intros [Hunpop Hunres Hinj Hpop1 Hres0 Hres1 Hentry] HP HF Hp Hr Ht.
  split; rewrite ?HP, ?HF; intros; rewrite ?Hp, ?Hr; eauto.
  edestruct Ht as [(tid0 & t0 & ? & ?)|?]; eauto.
Qed.

Lemma correlated_pop rid fut s :
  correlated s → pending_responses s !! rid = Some fut →
  correlated (pop_pending rid s).
Proof.
  intros [Hunpop Hunres Hinj Hpop1 Hres0 Hres1 Hentry] Hrid.
  pose proof (Hunpop _ _ Hrid).
  split; unfold pop_pending, emit; simpl; intros; lookups; history; eauto.
  - case_bool_decide; simplify_eq. erewrite Hunpop by done. lia.
  - case_bool_decide; simplify_eq; [lia|]. specialize (Hpop1 rid0). lia.
  - destruct (decide (rid = request_id l)) as [->|].
    + right. rewrite lookup_delete_eq, bool_decide_eq_true_2 by done.
      split; [done|]. lia.
    + rewrite lookup_delete_ne, bool_decide_eq_false_2 by done.
      rewrite Nat.add_0_r. eauto.
Qed.

(** A future that is not done is set or cancelled. *)
Lemma correlated_set_future fut v a s :
  correlated s → futures s !! fut = Some Pending → v ≠ Pending →
  (v = Cancelled ∨ ∀ rid, pending_responses s !! rid ≠ Some fut) →
  (∀ rid, is_pop rid a = false) →
  (∀ f, is_resolution f a = bool_decide (fut = f)) →
  correlated (set_future fut v a s).
Proof.
  intros [Hunpop Hunres Hinj Hpop1 Hres0 Hres1 Hentry] Hfut Hv Hentries Hpop Hres.
  split; unfold set_future, emit; simpl; intros; history;
    rewrite ?Hpop, ?Hres, ?Nat.add_0_r; eauto.
  - destruct (decide (fut = fut0)) as [<-|].
    + rewrite lookup_insert_eq. destruct Hentries as [->|Hno]; [by right|].
      by destruct (Hno rid).
    + rewrite lookup_insert_ne by done. eauto.
  - destruct (decide (fut = fut0)) as [<-|].
    + rewrite lookup_insert_eq in H. by destruct H as [[=]|[=]].
    + rewrite lookup_insert_ne in H by done.
      rewrite bool_decide_eq_false_2 by done. rewrite Hres0 by done. lia.
  - case_bool_decide; simplify_eq.
    + rewrite Hres0 by eauto. lia.
    + specialize (Hres1 fut0). lia.
Qed.

Lemma correlated_take_and_set rid v a s :
  correlated s →
  (∃ r, v = Result r ∧ a = (λ fut, SetResult fut r)) ∨
  (∃ e, v = Exception e ∧ a = (λ fut, SetException fut e)) →
  correlated (take_and_set rid v a s).
Proof.
  intros Hcor Hva. rewrite take_and_set_eq.
  destruct (pending_responses s !! rid) as [fut|] eqn:Hrid; [|done].
  pose proof (correlated_pop _ _ _ Hcor Hrid) as Hcor'.
  destruct (futures s !! fut) as [[]|] eqn:Hfut; try done.
  apply correlated_set_future; try done.
  - by destruct Hva as [(? & -> & _)|(? & -> & _)].
  - right. simpl. intros rid' Hrid'. apply lookup_delete_Some in Hrid' as [? ?].
    by destruct (pending_inj _ Hcor rid rid' fut).
  - by destruct Hva as [(? & _ & ->)|(? & _ & ->)].
  - by destruct Hva as [(? & _ & ->)|(? & _ & ->)]; intros f; simpl;
      apply bool_decide_ext.
Qed.

Lemma correlated_register tid user device s s0 :
  ids_ok s → correlated s →
  pending_responses s0 = pending_responses s → futures s0 = futures s →
  history s0 = history s → tasks s0 = tasks s →
  correlated
    (register tid (request_counter s + 1)
       (make_request_id user device (request_counter s + 1))
       (S (next_id s)) s0).
Proof.
  intros [Hfut Hpend Htask Hcb Hpop]
    [Hunpop Hunres Hinj Hpop1 Hres0 Hres1 Hentry] HP HF HH HT.
  pose proof (issued_fresh (request_counter s) user device) as Hfresh.
  assert (futures s !! S (next_id s) = None) as Hnew by (apply Hfut; lia).
  assert (∀ rid, pending_responses s !! rid ≠ Some (S (next_id s))) as Hnone.
  { intros rid Hrid. apply Hpend in Hrid as [_ ?]. lia. }
  split; unfold register, emit; simpl; rewrite ?HP, ?HF, ?HH, ?HT; intros;
    lookups; history; eauto.
  - destruct (pops _ (history s)) eqn:Hp; [done|].
    destruct Hfresh. apply Hpop. lia.
  - rewrite lookup_insert_eq. by left.
  - rewrite lookup_insert_ne; [eauto|]. intros <-. by destruct (Hnone rid).
  - by destruct (Hnone rid1).
  - by destruct (Hnone rid2).
  - apply Hres0. destruct (decide (S (next_id s) = fut)) as [<-|]; [by right|].
    by rewrite lookup_insert_ne in H.
  - rewrite lookup_insert_ne; [eauto|]. intros Heq.
    destruct Hfresh. rewrite Heq. by edestruct Htask.
Qed.

Lemma ids_ok_issued_task s tid t l :
  ids_ok s → tasks s !! tid = Some t → locals t = Some l →
  issued (request_counter s) (request_id l).
Proof. intros Hids ??. by edestruct (task_issued s Hids). Qed.

Ltac quiet_history :=
  intros; simpl; history; rewrite ?Nat.add_0_r; first [done|lia].

Ltac old_tasks :=
  simpl; intros; lookups; simplify_eq/=;
  first [ by left; eauto
        | right; simpl; by rewrite lookup_insert_eq ].

Ltac correlated_frame_from base :=
  eapply (correlated_frame base);
  [|simpl; reflexivity|simpl; reflexivity|quiet_history|quiet_history
   |old_tasks].

Lemma correlated_step ev s s' :
  ids_ok s → correlated s → step X ev s = Some s' → correlated s'.
Proof.
  intros Hids Hcor Hstep. step_cases X ev Hstep.
  all: try (by apply correlated_take_and_set; eauto).
  all: lazymatch goal with
       | |- context [register ?tid ?n ?rid ?fut ?s0] =>
           correlated_frame_from (register tid n rid fut s0);
           [by apply correlated_register|..]
       | |- context [pop_pending ?rid ?s0] =>
           correlated_frame_from (pop_pending rid s0);
           [by eapply correlated_pop|..]
       | |- context [set_future ?fut ?v ?a ?s0] =>
           correlated_frame_from (set_future fut v a s0);
           [apply correlated_set_future; by eauto|..]
       | |- _ => correlated_frame_from s; [done|..]
       end.
Qed.

(** *** The counter values handed out *)

Lemma allocations_ok_init : allocations_ok init.
Proof. by split. Qed.

Lemma allocations_ok_frame s0 s :
  allocations_ok s0 → request_counter s = request_counter s0 →
  allocated (history s) = allocated (history s0) → allocations_ok s.
Proof. intros [Hn Hid] Hc Hh. split; by rewrite ?Hc, Hh. Qed.

Lemma allocations_ok_extend user device s0 s :
  allocations_ok s0 → request_counter s = (request_counter s0 + 1)%N →
  allocated (history s) =
    allocated (history s0) ++
    [((request_counter s0 + 1)%N,
      make_request_id user device (request_counter s0 + 1))] →
  allocations_ok s.
Proof.
  intros [Hn Hid] Hc Hh. split; rewrite Hh, ?Hc.
  - rewrite fmap_app, Hn. simpl.
    replace (N.to_nat (request_counter s0 + 1))
      with (S (N.to_nat (request_counter s0))) by lia.
    rewrite seq_S, fmap_app. simpl. do 3 f_equal. lia.
  - apply Forall_app. split; [done|].
    apply Forall_singleton. by exists user, device.
Qed.

Ltac allocated_history :=
  simpl; rewrite ?allocated_app, ?allocated_unsubscribe; simpl;
  rewrite ?app_nil_r; reflexivity.

Lemma allocations_ok_step ev s s' :
  allocations_ok s → step X ev s = Some s' → allocations_ok s'.
Proof.
  intros Hall Hstep. step_fields X ev Hstep.
  all: first
    [ eapply (allocations_ok_frame s); [done|simpl; reflexivity|allocated_history]
    | eapply (allocations_ok_extend _ _ s);
      [done|simpl; reflexivity|allocated_history] ].
Qed.

(** *** Suspended sends *)

Lemma tasks_ok_init : tasks_ok init.
Proof. split; simpl; intros; done. Qed.

Lemma tasks_ok_step ev s s' :
  ids_ok s → tasks_ok s → step X ev s = Some s' → tasks_ok s'.
Proof.
  intros [Hfut Hpend Htask Hcb Hpop] [Hinj Hsub] Hstep.
  step_fields X ev Hstep.
  all: split; simpl; intros.
  all: lookups; simplify_eq/=.
  all: try done.
  all: try (by eauto).
  all: try match goal with |- _ ∧ _ => split end.
  all: try (intros token' sub' Hsub'; lookups; simplify_eq/=).
  all: repeat match goal with
       | |- context [make_request_id ?u ?d (request_counter ?s0 + 1)] =>
           learn (issued_fresh (request_counter s0) u d)
       | _ : context [make_request_id ?u ?d (request_counter ?s0 + 1)] |- _ =>
           learn (issued_fresh (request_counter s0) u d)
       | H : tasks _ !! _ = Some (SendAwaitSubscribe _ _) |- _ =>
           learn (Hsub _ _ _ H)
       | H : tasks _ !! ?tid = Some ?t, H' : locals ?t = Some ?l |- _ =>
           learn (Htask tid t l H H')
       | H : tasks _ !! ?tid = Some ?t |- _ =>
           learn (Htask tid t _ H eq_refl)
       | H : callbacks _ !! ?tok = Some ?sub |- _ => learn (Hcb tok sub H)
       end.
  all: simpl in *; destruct_and?.
  all: try (rewrite lookup_insert_eq).
  all: try done.
  all: try (by eauto).
  all: try (rewrite lookup_insert_ne; [done|congruence]).
  all: try (rewrite lookup_delete_ne; [done|by eauto]).
  all: congruence.
Qed.

(** *** Sessions and the lock *)

Lemma lifecycle_ok_init : lifecycle_ok init.
Proof. split; simpl; intros; done. Qed.

Lemma lifecycle_ok_step ev s s' :
  lifecycle_ok s → step X ev s = Some s' → lifecycle_ok s'.
Proof.
  intros [Hcred Hunl Hone Hstart] Hstep.
  step_fields X ev Hstep.
  all: split; simpl; intros.
  all: lookups; simplify_eq/=.
  all: try done.
  all: try (by eauto).
  all: repeat match goal with
       | H : tasks _ !! ?tid = Some ?t |- _ =>
           first [learn (Hunl tid t eq_refl H) | learn (Hstart tid _ _ _ H)]
       | Hl : _lock _ = false, H : tasks _ !! ?tid = Some ?t |- _ =>
           learn (Hunl tid t Hl H)
       | H : tasks _ !! ?tid1 = Some ?t1, H' : tasks _ !! ?tid2 = Some ?t2 |- _ =>
           learn (Hone tid1 tid2 t1 t2 H H' eq_refl eq_refl)
       | H : tasks _ !! ?tid1 = Some ?t1, H' : tasks _ !! ?tid2 = Some ?t2,
           Hh : holds_lock ?t1 = true |- _ =>
           learn (Hone tid1 tid2 t1 t2 H H' Hh eq_refl)
       end.
  all: simpl in *.
  all: try (by eauto).
  all: try congruence.
  all: try match goal with
       | |- context [delete ?k _ !! ?k'] => destruct (decide (k = k')) as [<-|]
       | |- context [<[?k:=_]> _ !! ?k'] => destruct (decide (k = k')) as [<-|]
       end.
  all: rewrite ?lookup_delete_eq, ?lookup_insert_eq.
  all: rewrite ?lookup_delete_ne, ?lookup_insert_ne by done.
  all: try done.
  all: try (by eauto).
  all: try (apply Hcred; done).
  all: match goal with
       | Hne : ?tid1 ≠ ?tid2 |- holds_lock ?t = false =>
           destruct (holds_lock t) eqn:Hholds; [|done];
           destruct Hne; by eapply Hone
       end.
Qed.

(** *** Entries that nothing will take *)

Lemma orphaned_step rid fut ev s s' :
  orphaned rid fut s → step X ev s = Some s' → orphaned rid fut s'.
Proof.
  intros [Hentry Hiss Htask Hcb] Hstep.
  step_fields X ev Hstep.
  all: split; simpl; intros.
  all: lookups; simplify_eq/=.
  all: try done.
  all: try (by eauto).
  all: try (eapply issued_mono; [|done]; lia).
  all: try (intros <-; by eapply issued_fresh).
  all: try (rewrite lookup_insert_ne; [done|]; intros <-; by eapply issued_fresh).
  all: rewrite lookup_delete_ne; [done|by eauto].
Qed.

(** *** Futures that are done *)

Lemma done_future_step ev s s' fut f :
  ids_ok s → futures s !! fut = Some f → done f = true →
  step X ev s = Some s' → futures s' !! fut = Some f.
Proof.
  intros [Hfresh _ _ _ _] Hfut Hdone Hstep. step_fields X ev Hstep.
  all: try done.
  all: rewrite lookup_insert_ne; [done|].
  all: intros Heq; simplify_eq/=.
  all: rewrite Hfresh in Hfut by lia; done.
Qed.

Lemma cancelled_ok_init : cancelled_ok init.
Proof. intros tid l. done. Qed.

Lemma cancelled_ok_step ev s s' :
  ids_ok s → cancelled_ok s → step X ev s = Some s' → cancelled_ok s'.
Proof.
  intros Hids Hcan Hstep tid l Htid.
  assert (tasks s !! tid = Some (SendCancelled l) →
          futures s' !! response_future l = Some Cancelled) as Hold.
  { intros Hold. eapply done_future_step; eauto. }
  revert Htid Hold. clear Hcan. step_fields X ev Hstep.
  all: intros Htid Hold; lookups; simplify_eq/=.
  all: try done.
  all: try (by apply Hold).
  all: by rewrite lookup_insert_eq.
Qed.

(** *** Futures that are not done *)

Lemma registered_ok_init : registered_ok init.
Proof. intros fut. done. Qed.

Lemma registered_ok_step ev s s' :
  ids_ok s → correlated s → registered_ok s → step X ev s = Some s' →
  registered_ok s'.
Proof.
  intros Hids Hcor Hreg Hstep fut.
  pose proof (pending_issued s Hids) as Hiss.
  pose proof (task_entry s Hcor) as Hentry.
  step_fields X ev Hstep.
  all: intros Hfut.
  all: try (by apply Hreg).
  all: try (apply lookup_insert_Some in Hfut as [[<- _]|[Hne Hfut]];
            [by eexists; apply lookup_insert_eq|];
            destruct (Hreg _ Hfut) as [rid Hrid]; exists rid;
            rewrite lookup_insert_ne; [done|];
            intros <-; apply Hiss in Hrid as [Hrid _];
            by eapply issued_fresh).
  all: try (apply lookup_insert_Some in Hfut as [[? ?]|[Hne Hfut]]; [done|]).
  all: try (destruct (Hreg _ Hfut) as [rid Hrid]; exists rid;
            rewrite lookup_delete_ne; [done|]; intros <-; congruence).
  all: try (by apply Hreg).
  match goal with
  | H : tasks s !! _ = Some (SendCancelled _) |- _ =>
      destruct (Hentry _ _ _ H eq_refl) as [Hsome|[? _]]; [|by simplify_eq]
  end.
  destruct (Hreg _ Hfut) as [rid Hrid]. exists rid.
  rewrite lookup_delete_ne; [done|]. intros <-. by simplify_eq.
Qed.

(** *** The history grows *)

Lemma history_step ev s s' :
  step X ev s = Some s' → history s `prefix_of` history s'.
Proof.
  intros Hstep. step_fields X ev Hstep.
  all: repeat first [reflexivity | apply prefix_app_r].
Qed.

Lemma history_run evs s s' :
  run X evs s = Some s' → history s `prefix_of` history s'.
Proof.
  revert s. induction evs as [|ev evs IH]; intros s; simpl.
  - by intros [= <-].
  - destruct (step X ev s) as [s1|] eqn:Hstep; [|done]. simpl.
    intros Hrun. etrans; [by eapply history_step|by apply IH].
Qed.

Lemma pops_prefix rid h h' : h `prefix_of` h' → pops rid h ≤ pops rid h'.
Proof. intros [k ->]. rewrite pops_app. lia. Qed.

(** *** Requests whose send has returned *)

Lemma abandoned_step rid ev s s' :
  abandoned rid s → step X ev s = Some s' → abandoned rid s'.
Proof.
  intros [Hiss Htask] Hstep. step_fields X ev Hstep.
  all: split; simpl; intros.
  all: lookups; simplify_eq/=.
  all: try done.
  all: try (by eauto).
  all: try (eapply issued_mono; [|done]; lia).
  all: intros <-; by eapply issued_fresh.
Qed.

Lemma abandoned_run rid evs s s' :
  abandoned rid s → run X evs s = Some s' → abandoned rid s'.
Proof.
  revert s. induction evs as [|ev evs IH]; intros s Hs; simpl.
  - by intros [= <-].
  - destruct (step X ev s) as [s1|] eqn:Hstep; [|done]. simpl.
    apply IH. by eapply abandoned_step.
Qed.

(** An entry leaves the table on one of the two paths only. *)
Lemma entry_removed_by rid fut ev s s' :
  ids_ok s → step X ev s = Some s' →
  pending_responses s !! rid = Some fut →
  pending_responses s' !! rid ≠ Some fut → removal_path rid ev s.
Proof.
  intros [_ Hpend _ _ _] Hstep Hrid. apply Hpend in Hrid as Hissued.
  destruct Hissued as [Hissued _]. revert Hrid. step_fields X ev Hstep.
  all: intros Hrid Hgone.
  all: try done.
  all: try (by eauto).
  all: try (destruct Hgone; rewrite lookup_insert_ne; [done|];
            intros <-; by eapply issued_fresh).
  all: match goal with
       | H : delete ?r _ !! _ ≠ _ |- _ =>
           destruct (decide (r = rid)) as [<-|];
           [by eauto|by rewrite lookup_delete_ne in H]
       end.
Qed.

(** *** The lock and the suspended coroutines *)

Lemma lock_ok_init : lock_ok init.
Proof. by split. Qed.

Lemma lock_ok_step ev s s' :
  lock_ok s → step X ev s = Some s' → lock_ok s'.
Proof.
  intros [Hfresh Hheld] Hstep. step_fields X ev Hstep.
  all: split; simpl; intros.
  all: try match goal with
       | H : _lock _ = true |- _ =>
           first [ apply Hheld in H as (tid0 & t0 & Htid0 & Hhold0)
                 | destruct (Hheld eq_refl) as (tid0 & t0 & Htid0 & Hhold0) ]
       end.
  all: try done.
  all: try (by eauto).
  all: try (by eexists _, _; split; [apply lookup_insert_eq|]).
  all: try (exists tid0, t0; split; [|done]).
  all: rewrite ?lookup_insert_ne, ?lookup_delete_ne; try (apply Hfresh; lia).
  all: try done.
  all: intros Heq; simplify_eq/=.
  all: try lia.
  all: try match goal with
       | H : tasks ?s0 !! next_id ?s0 = Some _ |- _ =>
           rewrite Hfresh in H by lia; done
       | H : tasks ?s0 !! ?i = Some _, Hi : S (next_id ?s0) ≤ ?i |- _ =>
           rewrite Hfresh in H by lia; done
       | H : tasks ?s0 !! ?i = Some _, Hi : next_id ?s0 ≤ ?i |- _ =>
           rewrite Hfresh in H by lia; done
       end.
Qed.

(** A suspended coroutine stays where it is until an event resumes it. *)
Lemma task_stays ev s s' tid t :
  lock_ok s → step X ev s = Some s' → tasks s !! tid = Some t →
  resumed ev ≠ Some tid → tasks s' !! tid = Some t.
Proof.
  intros [Hfresh _] Hstep Htid Hev. step_fields X ev Hstep.
  all: simpl in Hev.
  all: rewrite ?lookup_insert_ne, ?lookup_delete_ne; try done.
  all: try (intros <-; rewrite Hfresh in Htid by lia; done).
  all: try (intros ->; by destruct Hev).
Qed.

(** *** Every reachable state *)

Lemma reachable_ids_ok s : reachable X s → ids_ok s.
Proof.
  induction 1; eauto using ids_ok_init, ids_ok_step.
Qed.

Lemma reachable_correlated s : reachable X s → correlated s.
Proof.
  induction 1; eauto using correlated_init, correlated_step, reachable_ids_ok.
Qed.

Lemma reachable_allocations_ok s : reachable X s → allocations_ok s.
Proof.
  induction 1; eauto using allocations_ok_init, allocations_ok_step.
Qed.

Lemma reachable_tasks_ok s : reachable X s → tasks_ok s.
Proof.
  induction 1; eauto using tasks_ok_init, tasks_ok_step, reachable_ids_ok.
Qed.

Lemma reachable_lifecycle_ok s : reachable X s → lifecycle_ok s.
Proof.
  induction 1; eauto using lifecycle_ok_init, lifecycle_ok_step.
Qed.

Lemma reachable_cancelled_ok s : reachable X s → cancelled_ok s.
Proof.
  induction 1; eauto using cancelled_ok_init, cancelled_ok_step, reachable_ids_ok.
Qed.

Lemma reachable_registered_ok s : reachable X s → registered_ok s.
Proof.
  induction 1;
    eauto using registered_ok_init, registered_ok_step, reachable_ids_ok,
      reachable_correlated.
Qed.

Lemma reachable_lock_ok s : reachable X s → lock_ok s.
Proof. induction 1; eauto using lock_ok_init, lock_ok_step. Qed.

Lemma reachable_run evs s s' :
  reachable X s → run X evs s = Some s' → reachable X s'.
Proof.
  revert s. induction evs as [|ev evs IH]; intros s Hs; simpl.
  - by intros [= <-].
  - destruct (step X ev s) as [s1|] eqn:Hstep; [|done]. simpl.
    apply IH. by eapply reachable_step.
Qed.

End Invariants.

(** * The behaviour of the daemon *)

Section Behaviour.
Context (X : Externals).

Lemma on_message_absent h payload s :
  pending_responses s !! h_request_id h = None → on_message X h payload s = s.
Proof.
  intros Habsent.
  destruct (on_message_cases X h payload s) as [->|(v & a & -> & _)]; [done|].
  by apply take_and_set_absent.
Qed.

(** What a send does when it comes back from its wait with a future that
    is done. *)
Lemma send_command_resolved_pops tid l s s1 :
  correlated s →
  (∃ t, tasks s !! tid = Some t ∧ locals t = Some l) →
  send_command_resolved tid l s = Some s1 →
  pops (request_id l) (history s1) = 1.
Proof.
  intros Hcor (t & Ht & Hl) Hstep.
  pose proof (task_entry s Hcor tid t l Ht Hl) as Hentry.
  unfold send_command_resolved in Hstep.
  assert (pops (request_id l) (history s) = 1) as Hone.
  { destruct Hentry as [Hsome|[_ ?]]; [|done].
    apply (pending_unresolved s Hcor) in Hsome as [Hp|Hp];
      rewrite Hp in Hstep; done. }
  repeat case_match; simplify_eq/=.
  all: by rewrite pops_app, Hone, pops_singleton.
Qed.

(** C1: in every run each future is resolved at most once and each entry
    is removed at most once.  A send that comes back from its wait has
    had its entry removed exactly once, and so it stays.  An entry
    leaves the table only when a callback of its request is called with a
    payload or when its send resumes after the cancellation of its wait.
    The path that comes second does nothing: a message for an entry that
    is gone changes nothing, and a timeout that finds the entry gone only
    returns.  A future that is not done has its entry in the table, and
    no step changes a future that is done. *)
Theorem resolved_and_removed_once s :
  reachable X s →
  (∀ fut, resolutions fut (history s) ≤ 1) ∧
  (∀ rid, pops rid (history s) ≤ 1) ∧
  (∀ tid t l s1 evs s2,
     tasks s !! tid = Some t → in_wait t = Some l →
     step X (Wake tid) s = Some s1 → tasks s1 !! tid = None →
     run X evs s1 = Some s2 →
     pops (request_id l) (history s2) = 1 ∧
     pending_responses s2 !! request_id l = None) ∧
  (∀ rid fut ev s1,
     pending_responses s !! rid = Some fut → step X ev s = Some s1 →
     pending_responses s1 !! rid ≠ Some fut → removal_path rid ev s) ∧
  (∀ token sub payload,
     callbacks s !! token = Some sub →
     pending_responses s !! h_request_id (sub_handler sub) = None →
     step X (Message token payload) s = Some s) ∧
  (∀ tid l,
     tasks s !! tid = Some (SendCancelled l) →
     pending_responses s !! request_id l = None →
     step X (Wake tid) s = Some (finish tid (Failure "Command timeout") s)) ∧
  (∀ fut, futures s !! fut = Some Pending →
     ∃ rid, pending_responses s !! rid = Some fut) ∧
  (∀ fut f ev s1,
     futures s !! fut = Some f → done f = true → step X ev s = Some s1 →
     futures s1 !! fut = Some f).
Proof.
  intros Hs. pose proof (reachable_correlated X s Hs) as Hcor.
  pose proof (reachable_ids_ok X s Hs) as Hids.
  split_and!.
  - apply Hcor.
  - apply Hcor.
  - intros tid t l s1 evs s2 Htid Hl Hstep Hgone Hrun.
    assert (pops (request_id l) (history s1) = 1) as Hone.
    { assert (∃ t, tasks s !! tid = Some t ∧ locals t = Some l) as Htask.
      { exists t. split; [done|]. by destruct t; simplify_eq/=. }
      unfold step in Hstep. rewrite Htid in Hstep.
      destruct t; simplify_eq/=.
      - by eapply send_command_resolved_pops; eauto.
      - unfold wait_for_resumed in Hstep.
        destruct (futures s !! response_future l) as [[]|] eqn:Hfut;
          try (by eapply send_command_resolved_pops; eauto).
        simplify_eq/=. by rewrite lookup_insert_eq in Hgone.
      - unfold wait_for_cancelled in Hstep.
        destruct (futures s !! response_future l) as [[]|] eqn:Hfut;
          try (by eapply send_command_resolved_pops; eauto).
        simplify_eq/=. destruct Htask as (t & Ht & Hlt).
        pose proof (task_entry s Hcor tid t l Ht Hlt) as Hentry.
        unfold send_command_timed_out, finish, pop_pending, emit.
        destruct (pending_responses s !! request_id l) as [fut|] eqn:Hrid;
          simpl.
        + rewrite !pops_app, !pops_singleton. simpl.
          rewrite (pending_unpopped s Hcor _ _ Hrid).
          by rewrite bool_decide_eq_true_2.
        + destruct Hentry as [?|[_ Hone]]; [done|].
          by rewrite pops_app, Hone, pops_singleton. }
    assert (reachable X s2) as Hs2.
    { eapply reachable_run; [|done]. by eapply reachable_step. }
    pose proof (reachable_correlated X s2 Hs2) as Hcor2.
    assert (pops (request_id l) (history s2) = 1) as Hone2.
    { pose proof (popped_once s2 Hcor2 (request_id l)).
      pose proof (pops_prefix (request_id l) _ _ (history_run X evs s1 s2 Hrun)).
      lia. }
    split; [done|].
    destruct (pending_responses s2 !! request_id l) as [fut|] eqn:Hrid; [|done].
    pose proof (pending_unpopped s2 Hcor2 _ _ Hrid). lia.
  - intros rid fut ev s1 Hrid Hstep Hgone. by eapply entry_removed_by.
  - intros token sub payload Hsub Habsent. unfold step. rewrite Hsub.
    by rewrite on_message_absent.
  - intros tid l Htid Habsent. unfold step. rewrite Htid.
    unfold wait_for_cancelled.
    rewrite (reachable_cancelled_ok X s Hs tid l Htid).
    unfold send_command_timed_out. by rewrite Habsent.
  - apply (reachable_registered_ok X s Hs).
  - intros fut f ev s1 Hfut Hdone Hstep. by eapply done_future_step.
Qed.

(** C2: a send that waits for a future that is not done cannot resume
    and cannot be released by the timer before its deadline; at the
    deadline the timer releases it, and nothing else happens.  When it
    then resumes with the future still not done, it cancels the future,
    and when it resumes after that it returns the timeout failure, the
    entry of its request is gone and the coroutine has ended.  When the
    inbound handler has set the future, before the deadline or between
    the timer and the resumption, the timer does not fire and the send
    returns what the handler put there.  Between these steps the send
    stays where it is: only an event that resumes it moves it on. *)
Theorem send_times_out_or_returns_reply s tid l :
  reachable X s →
  (∀ deadline, tasks s !! tid = Some (SendAwaitFuture l deadline) →
     futures s !! response_future l = Some Pending →
     step X (Wake tid) s = None ∧
     ((clock s < deadline)%N → step X (Timeout tid) s = None) ∧
     ((deadline ≤ clock s)%N →
        step X (Timeout tid) s = Some (suspend tid (SendTimedOut l) s))) ∧
  (tasks s !! tid = Some (SendTimedOut l) →
     futures s !! response_future l = Some Pending →
     step X (Wake tid) s =
       Some (suspend tid (SendCancelled l)
               (set_future (response_future l) Cancelled
                  (Cancel (response_future l)) s))) ∧
  (tasks s !! tid = Some (SendCancelled l) →
     ∃ s1, step X (Wake tid) s = Some s1 ∧
       last (history s1) = Some (Return tid (Failure "Command timeout")) ∧
       pending_responses s1 !! request_id l = None ∧
       tasks s1 !! tid = None) ∧
  (∀ t, tasks s !! tid = Some t →
     (∃ deadline, t = SendAwaitFuture l deadline) ∨ t = SendTimedOut l →
     (∀ response, futures s !! response_future l = Some (Result response) →
        step X (Timeout tid) s = None ∧
        step X (Wake tid) s = Some (finish tid (reply_of response) s)) ∧
     (∀ e, futures s !! response_future l = Some (Exception e) →
        step X (Timeout tid) s = None ∧
        step X (Wake tid) s = Some (finish tid (except_clauses e) s))) ∧
  (∀ t ev s1, tasks s !! tid = Some t → step X ev s = Some s1 →
     resumed ev ≠ Some tid → tasks s1 !! tid = Some t).
Proof.
  intros Hs. split_and!.
  - intros deadline Htid Hfut. unfold step. rewrite Htid.
    unfold send_command_resolved, wait_for_expired. rewrite Hfut.
    split_and!; [done|..]; intros; case_decide; first [done|lia].
  - intros Htid Hfut. unfold step. rewrite Htid.
    unfold wait_for_resumed. by rewrite Hfut.
  - intros Htid. eexists. unfold step. rewrite Htid.
    unfold wait_for_cancelled.
    rewrite (reachable_cancelled_ok X s Hs tid l Htid).
    split; [done|]. unfold send_command_timed_out, finish, pop_pending, emit.
    destruct (pending_responses s !! request_id l) eqn:Hrid; simpl;
      rewrite last_snoc, lookup_delete_eq; split_and!; try done.
    apply lookup_delete_eq.
  - intros t Htid Ht. unfold step. rewrite Htid.
    destruct Ht as [[deadline ->]| ->];
      unfold wait_for_expired, wait_for_resumed, send_command_resolved.
    all: split; [intros response Hfut|intros e Hfut]; by rewrite Hfut.
  - intros t ev s1 Htid Hstep Hev.
    by eapply (task_stays X); [apply (reachable_lock_ok X)|..].
Qed.

Lemma allocated_counter s i n rid :
  allocations_ok s → allocated (history s) !! i = Some (n, rid) →
  n = N.of_nat (S i) ∧ ∃ user device, rid = make_request_id user device n.
Proof.
  intros [Hn Hid] Hi. split.
  - assert ((allocated (history s)).*1 !! i = Some n) as Hi'
      by (by rewrite list_lookup_fmap, Hi).
    rewrite Hn, list_lookup_fmap in Hi'.
    destruct (seq 1 _ !! i) as [k|] eqn:Hk; simplify_eq/=.
    apply lookup_seq in Hk as [-> _]. done.
  - by apply (Forall_lookup_1 _ _ _ _ Hid Hi).
Qed.

(** C4: two request identifiers handed out in one run differ, and the
    later one carries the larger counter value, whatever the users and
    devices are. *)
Theorem request_ids_unique s i j n1 rid1 n2 rid2 :
  reachable X s →
  allocated (history s) !! i = Some (n1, rid1) →
  allocated (history s) !! j = Some (n2, rid2) →
  i < j →
  (n1 < n2)%N ∧ rid1 ≠ rid2.
Proof.
  intros Hs%reachable_allocations_ok Hi Hj Hij.
  apply (allocated_counter _ _ _ _ Hs) in Hi as [-> (u1 & d1 & ->)].
  apply (allocated_counter _ _ _ _ Hs) in Hj as [-> (u2 & d2 & ->)].
  split; [lia|]. intros Heq%make_request_id_inj. lia.
Qed.

Lemma foldl_delete_None {A} (m : gmap nat A) tokens token :
  token ∈ tokens →
  foldl (λ m token, delete token m) m tokens !! token = None.
Proof.
  revert m. induction tokens as [|t tokens IH]; intros m; [by inversion 1|].
  intros [->|Hin]%elem_of_cons; simpl; [|by apply IH].
  destruct (foldl _ _ tokens !! t) eqn:Hl; [|done].
  apply foldl_delete_Some in Hl. by rewrite lookup_delete_eq in Hl.
Qed.

Lemma close_alone_closed user o s :
  ∃ s1, close_alone X user o s = Some s1 ∧
    sessions s1 !! user = None ∧ rriot_data s1 !! user = None ∧
    subscriptions s1 !! user = None.
Proof.
  unfold close_alone, step, fresh; simpl.
  unfold _close_session, close_session_return, forget_rriot, finish, suspend;
    simpl.
  destruct (subscriptions s !! user) as [devices|] eqn:Hsub; simpl;
    rewrite ?foldl_unsubscribe; simpl.
  all: destruct (sessions s !! user) as [sess|] eqn:Hsess; simpl.
  all: rewrite ?lookup_insert_eq, ?lookup_delete_eq; simpl.
  all: unfold close_session_closed, close_session_return, forget_rriot,
         finish; simpl; rewrite ?Hsess; simpl.
  all: eexists; (split; [reflexivity|]); simpl.
  all: by rewrite ?lookup_delete_eq.
Qed.

Lemma close_alone_absent user o s :
  sessions s !! user = None → rriot_data s !! user = None →
  subscriptions s !! user = None →
  ∃ s1, close_alone X user o s = Some s1 ∧
    only_returned (next_id s) PyNone s s1.
Proof.
  intros Hsess Hcred Hsub.
  unfold close_alone, step, fresh; simpl.
  unfold _close_session, close_session_return, forget_rriot, finish; simpl.
  rewrite Hsub; simpl. rewrite Hsess; simpl. rewrite lookup_delete_eq.
  eexists. split; [done|]. unfold only_returned; simpl.
  by rewrite delete_id.
Qed.

Lemma close_alone_session user o s sess :
  sessions s !! user = Some sess →
  let devices := default ∅ (subscriptions s !! user) in
  ∃ s1, close_alone X user o s = Some s1 ∧
    history s1 =
      history s ++ (Unsubscribe <$> (map_to_list devices).*2)
        ++ [Close sess; Return (next_id s) PyNone] ∧
    (∀ device token, devices !! device = Some token →
       callbacks s1 !! token = None).
Proof.
  intros Hsess devices. subst devices.
  unfold close_alone, step, fresh; simpl.
  unfold _close_session, close_session_return, forget_rriot, finish, suspend;
    simpl.
  destruct (subscriptions s !! user) as [devices|] eqn:Hsub; simpl;
    rewrite ?foldl_unsubscribe; simpl.
  all: rewrite Hsess; simpl; rewrite lookup_insert_eq.
  all: unfold close_session_closed, close_session_return, forget_rriot,
         finish; simpl; rewrite Hsess; simpl.
  all: eexists; (split; [reflexivity|]); simpl.
  - split; [by rewrite <-!app_assoc|].
    intros device token Hdev. apply foldl_delete_None.
    apply list_elem_of_fmap. exists (device, token).
    split; [done|]. by apply elem_of_map_to_list.
  - split; [by rewrite map_to_list_empty, <-!app_assoc|].
    intros device token. by rewrite lookup_empty.
Qed.

(** C5: [initialize(user, rd)], run alone with the lock free,
    tears the user's session down first when the session table has one
    (every unsubscribe token stored for the user is called, the transport
    is closed, the user's three entries are deleted) and only then starts
    a new connection.  On success the new session, the credentials and an
    empty subscription table are stored.  When the credentials or the
    start fail it returns the text of the exception, stores nothing, and
    the session and credential tables have no entry for the user; the
    subscription table has none either, unless one was there without a
    session before the call, which is then left alone. *)
Theorem initialize_replaces_session s user rd closed started :
  reachable X s → _lock s = false →
  let tid := next_id s in
  let teardown :=
    match sessions s !! user with
    | Some old =>
        (Unsubscribe <$> (map_to_list (default ∅ (subscriptions s !! user))).*2)
          ++ [Close old]
    | None => []
    end in
  let remaining :=
    match sessions s !! user with
    | Some _ => None
    | None => subscriptions s !! user
    end in
  ∃ s', initialize_alone X user rd closed started s = Some s' ∧
    _lock s' = false ∧
    match credentials X rd, started with
    | Ok r, Ok _ =>
        ∃ new,
          history s' =
            history s ++ teardown ++ [Start new; Return tid SuccessOnly] ∧
          sessions s' !! user = Some new ∧
          rriot_data s' !! user = Some r ∧
          subscriptions s' !! user = Some ∅
    | Ok r, Raise e =>
        ∃ new,
          history s' =
            history s ++ teardown ++ [Start new; Return tid (Failure (str e))] ∧
          sessions s' !! user = None ∧
          rriot_data s' !! user = None ∧
          subscriptions s' !! user = remaining
    | Raise e, _ =>
        history s' = history s ++ teardown ++ [Return tid (Failure (str e))] ∧
        sessions s' !! user = None ∧
        rriot_data s' !! user = None ∧
        subscriptions s' !! user = remaining
    end.
Proof.
  intros Hs Hlock tid teardown remaining. subst tid teardown remaining.
  pose proof (credentials_with_session s (reachable_lifecycle_ok X s Hs) user)
    as Hcred.
  unfold initialize_alone, step, fresh; simpl. rewrite Hlock.
  unfold initialize; simpl.
  destruct (sessions s !! user) as [old|] eqn:Hsess; simpl.
  - unfold _close_session, suspend; simpl.
    destruct (subscriptions s !! user) as [devices|] eqn:Hsub; simpl;
      rewrite ?foldl_unsubscribe; simpl; rewrite Hsess; simpl.
    all: rewrite lookup_insert_eq; simpl.
    all: unfold close_session_closed, close_session_return, forget_rriot; simpl.
    all: rewrite Hsess; simpl.
    all: unfold initialize_connect, credentials, finish, suspend, fresh; simpl.
    all: destruct (obind _ (_create_rriot X rd)) as [r|e]; simpl.
    all: repeat (first [rewrite lookup_insert_eq|rewrite lookup_delete_eq]; simpl).
    all: unfold initialize_started, finish; simpl.
    all: try destruct started as [[]|e]; simpl.
    all: eexists; (split; [reflexivity|]); simpl.
    all: try (split; [done|]; eexists).
    all: rewrite ?lookup_insert_eq, ?lookup_delete_eq.
    all: rewrite ?map_to_list_empty; simpl.
    all: by rewrite <-?app_assoc.
  - assert (rriot_data s !! user = None) as Hrriot by by apply Hcred.
    unfold initialize_connect, credentials, finish, suspend, fresh; simpl.
    destruct (obind _ (_create_rriot X rd)) as [r|e]; simpl.
    all: repeat (first [rewrite lookup_insert_eq|rewrite lookup_delete_eq]; simpl).
    all: unfold initialize_started, finish; simpl.
    all: try destruct started as [[]|e]; simpl.
    all: eexists; (split; [reflexivity|]); simpl.
    all: try (split; [done|]; eexists).
    all: rewrite ?lookup_insert_eq, ?lookup_delete_eq.
    all: by rewrite <-?app_assoc.
Qed.

(** C6: for a user without a session, [send_command] returns the "not
    initialized" failure and does nothing else: no transport call, no
    request identifier, no change to the tables; and after
    [_close_session(user)] has run, the user has no session. *)
Theorem send_without_session s user device key cmd ps :
  sessions s !! user = None →
  (∃ s', step X (CallSendCommand user device key cmd ps) s = Some s' ∧
     history s' = history s ++ [Return (next_id s) not_initialized] ∧
     request_counter s' = request_counter s ∧
     pending_responses s' = pending_responses s ∧
     futures s' = futures s ∧
     callbacks s' = callbacks s ∧
     subscriptions s' = subscriptions s ∧
     sessions s' = sessions s ∧ rriot_data s' = rriot_data s) ∧
  (∀ s0 o, ∃ s1, close_alone X user o s0 = Some s1 ∧ sessions s1 !! user = None).
Proof.
  intros Hsess. split.
  - eexists. unfold step, fresh, send_command; simpl. rewrite Hsess.
    split; [done|]. done.
  - intros s0 o. destruct (close_alone_closed user o s0) as (s1 & ? & ? & _).
    eauto.
Qed.


Lemma close_alone_no_session user o s :
  sessions s !! user = None → rriot_data s !! user = None →
  ∃ s1, close_alone X user o s = Some s1 ∧
    history s1 =
      history s ++ (Unsubscribe <$> tokens_of user s)
        ++ [Return (next_id s) PyNone] ∧
    (∀ token, token ∈ tokens_of user s → callbacks s1 !! token = None) ∧
    subscriptions s1 = delete user (subscriptions s) ∧
    sessions s1 = sessions s ∧ rriot_data s1 = rriot_data s ∧
    pending_responses s1 = pending_responses s ∧
    request_counter s1 = request_counter s ∧ futures s1 = futures s ∧
    (subscriptions s !! user = None → callbacks s1 = callbacks s).
Proof.
  intros Hsess Hcred.
  unfold close_alone, step, fresh, tokens_of; simpl.
  unfold _close_session, close_session_return, forget_rriot, finish; simpl.
  destruct (subscriptions s !! user) as [devices|] eqn:Hsub; simpl;
    rewrite ?foldl_unsubscribe; simpl; rewrite Hsess; simpl;
    rewrite lookup_delete_eq.
  all: eexists; (split; [reflexivity|]); simpl.
  all: rewrite (delete_id (rriot_data s)) by done.
  - split_and!; try done; [by rewrite <-!app_assoc|].
    intros token Hin. by apply foldl_delete_None.
  - rewrite (delete_id (subscriptions s)) by done.
    rewrite map_to_list_empty. split_and!; try done.
    intros token Hin. by apply elem_of_nil in Hin.
Qed.

(** C8: [_close_session(user)], run alone on a user with a session, calls
    every unsubscribe token stored for the user (the model keeps the
    tokens in a map, not in the order of the dictionary, so the order of
    these calls is left open), closes the transport and deletes the
    user's entries.  On a user without a session it calls the tokens of a
    subscription entry that is left, deletes that entry and returns; when
    there is no such entry either, it does nothing but return.  So a
    second call right after the first does nothing but return. *)
Theorem close_session_idempotent user :
  (∀ s o sess, sessions s !! user = Some sess →
     ∃ s1 tokens, close_alone X user o s = Some s1 ∧
       tokens ≡ₚ tokens_of user s ∧
       history s1 =
         history s ++ (Unsubscribe <$> tokens)
           ++ [Close sess; Return (next_id s) PyNone] ∧
       (∀ token, token ∈ tokens → callbacks s1 !! token = None) ∧
       sessions s1 !! user = None ∧ rriot_data s1 !! user = None ∧
       subscriptions s1 !! user = None) ∧
  (∀ s o, reachable X s → sessions s !! user = None →
     ∃ s1 tokens, close_alone X user o s = Some s1 ∧
       tokens ≡ₚ tokens_of user s ∧
       history s1 =
         history s ++ (Unsubscribe <$> tokens) ++ [Return (next_id s) PyNone] ∧
       (∀ token, token ∈ tokens → callbacks s1 !! token = None) ∧
       subscriptions s1 = delete user (subscriptions s) ∧
       sessions s1 = sessions s ∧ rriot_data s1 = rriot_data s ∧
       (subscriptions s !! user = None →
          only_returned (next_id s) PyNone s s1)) ∧
  (∀ s o1 o2, ∃ s1 s2,
     close_alone X user o1 s = Some s1 ∧
     close_alone X user o2 s1 = Some s2 ∧
     only_returned (next_id s1) PyNone s1 s2).
Proof.
  split_and!.
  - intros s o sess Hsess.
    destruct (close_alone_session user o s sess Hsess) as (s1 & Hrun & ? & Hcb).
    destruct (close_alone_closed user o s) as (s1' & Hrun' & ? & ? & ?).
    simplify_eq. exists s1, (tokens_of user s). split_and!; try done.
    intros token (dt & -> & Hin)%list_elem_of_fmap.
    destruct dt as [device token]. apply elem_of_map_to_list in Hin.
    by eapply Hcb.
  - intros s o Hs Hsess.
    assert (rriot_data s !! user = None) as Hcred.
    { by apply (credentials_with_session s (reachable_lifecycle_ok X s Hs)). }
    destruct (close_alone_no_session user o s Hsess Hcred)
      as (s1 & Hrun & Hhist & Hcb & Hsubs & ? & ? & ? & ? & ? & Hsame).
    exists s1, (tokens_of user s). split_and!; try done.
    intros Hsub. unfold only_returned. rewrite Hhist, Hsubs.
    unfold tokens_of. rewrite Hsub; simpl. rewrite map_to_list_empty.
    rewrite delete_id by done. split_and!; try done. by apply Hsame.
  - intros s o1 o2.
    destruct (close_alone_closed user o1 s) as (s1 & Hrun & ? & ? & ?).
    destruct (close_alone_absent user o2 s1) as (s2 & ? & ?); eauto.
Qed.

Lemma orphaned_run rid fut evs s s' :
  orphaned rid fut s → run X evs s = Some s' → orphaned rid fut s'.
Proof.
  revert s. induction evs as [|ev evs IH]; intros s Hs; simpl.
  - by intros [= <-].
  - destruct (step X ev s) as [s1|] eqn:Hstep; [|done]. simpl.
    apply IH. by eapply orphaned_step.
Qed.

(** When [session.subscribe] raises, nothing is left that knows the
    request identifier. *)
Lemma orphaned_after_subscribe_raised s tid l replacing r :
  reachable X s → tasks s !! tid = Some (SendAwaitSubscribe l replacing) →
  orphaned (request_id l) (response_future l) (finish tid r s).
Proof.
  intros Hs Htid.
  pose proof (reachable_ids_ok X s Hs) as Hids.
  pose proof (reachable_tasks_ok X s Hs) as Htasks.
  destruct (subscribing s Htasks tid l replacing Htid) as [Hentry Hcb].
  split; simpl; try done.
  - by eapply ids_ok_issued_task.
  - intros tid' t' l' Htid' Hl' Heq.
    apply lookup_delete_Some in Htid' as [Hne Htid'].
    destruct Hne. by eapply (task_rid_inj s Htasks tid tid').
Qed.

(** When a send ends on its way to the wait, no suspended send is left
    that has its request identifier. *)
Lemma abandoned_after_resume s tid t l o s1 :
  reachable X s → tasks s !! tid = Some t →
  (∃ replacing, t = SendAwaitSubscribe l replacing) ∨ t = SendAwaitPublish l →
  step X (Resume tid o) s = Some s1 → tasks s1 !! tid = None →
  (∃ e, history s1 = history s ++ [Return tid (except_clauses e)]) ∧
  abandoned (request_id l) s1.
Proof.
  intros Hs Htid Ht Hstep.
  pose proof (reachable_ids_ok X s Hs) as Hids.
  pose proof (reachable_tasks_ok X s Hs) as Htasks.
  assert (issued (request_counter s) (request_id l)) as Hissued.
  { eapply ids_ok_issued_task; [done..|]. by destruct Ht as [[? ->]| ->]. }
  assert (locals t = Some l) as Hl by by destruct Ht as [[? ->]| ->].
  unfold step in Hstep. rewrite Htid in Hstep. clear Ht.
  destruct t; simplify_eq/=.
  all: unfold send_command_subscribed, send_command_published, store_token,
         finish, suspend, fresh, emit.
  all: destruct o as [[]|e]; simpl; repeat (case_match; simplify_eq/=).
  all: intros Hend; try (by rewrite lookup_insert_eq in Hend).
  all: (split; [first [by eauto|by exists (KeyError X (user_id l))]|]);
       split; simpl; [done|].
  all: intros tid' t' l' Htid' Hl' Heq;
       apply lookup_delete_Some in Htid' as [Hne Htid'];
       destruct Hne; by eapply (task_rid_inj s Htasks tid tid').
Qed.

(** C9: a send whose [subscribe] or [publish] raises returns the failure
    that the [except] clauses make of the exception.  No step that
    resumes a send after [subscribe] or [publish] touches the pending
    table, and when the send ends at such a step, it returns a failure
    made by the [except] clauses, and from then on a step that removes
    its entry is a payload that the transport hands to a callback
    subscribed for this request.  When it is [subscribe] that raised,
    the entry stays for the rest of the run and is never removed.  A
    payload with a reply in it, or one that fails to decode, that
    reaches a callback subscribed for the request leaves the table
    without the entry. *)
Theorem failed_send_keeps_entry s tid t l :
  reachable X s → tasks s !! tid = Some t →
  (∃ replacing, t = SendAwaitSubscribe l replacing) ∨ t = SendAwaitPublish l →
  (∀ e, step X (Resume tid (Raise e)) s
          = Some (finish tid (except_clauses e) s)) ∧
  (∀ o s1, step X (Resume tid o) s = Some s1 →
     pending_responses s1 = pending_responses s ∧
     (tasks s1 !! tid = None →
        (∃ e, history s1 = history s ++ [Return tid (except_clauses e)]) ∧
        ∀ evs s2 ev s3 fut,
          run X evs s1 = Some s2 →
          pending_responses s2 !! request_id l = Some fut →
          step X ev s2 = Some s3 →
          pending_responses s3 !! request_id l ≠ Some fut →
          ∃ token payload sub,
            ev = Message token payload ∧ callbacks s2 !! token = Some sub ∧
            h_request_id (sub_handler sub) = request_id l)) ∧
  (∀ replacing e evs s2,
     t = SendAwaitSubscribe l replacing →
     run X evs (finish tid (except_clauses e) s) = Some s2 →
     pending_responses s2 !! request_id l = Some (response_future l) ∧
     pops (request_id l) (history s2) = 0) ∧
  (∀ s2 token sub payload,
     callbacks s2 !! token = Some sub →
     h_request_id (sub_handler sub) = request_id l →
     (∃ messages response,
        parse X payload (h_local_key (sub_handler sub)) = Ok messages ∧
        first_reply X messages = Some response) ∨
     (∃ e, decode_failure X payload (h_local_key (sub_handler sub)) = Some e) →
     ∃ s3, step X (Message token payload) s2 = Some s3 ∧
       pending_responses s3 !! request_id l = None).
Proof.
  intros Hs Htid Ht. split_and!.
  - intros e. unfold step. rewrite Htid.
    by destruct Ht as [[replacing ->]| ->].
  - intros o s1 Hstep. split.
    + unfold step in Hstep. rewrite Htid in Hstep.
      destruct Ht as [[replacing ->]| ->]; simplify_eq.
      * unfold send_command_subscribed, store_token, finish, suspend, fresh,
          emit.
        destruct o as [[]|e]; simpl; [|done].
        by repeat (case_match; simplify_eq/=).
      * unfold send_command_published, finish, suspend, emit.
        by destruct o as [[]|e].
    + intros Hend.
      destruct (abandoned_after_resume s tid t l o s1 Hs Htid Ht Hstep Hend)
        as [Hret Hab].
      split; [done|]. intros evs s2 ev s3 fut Hrun Hrid Hstep2 Hgone.
      assert (reachable X s2) as Hs2.
      { eapply reachable_run; [|done]. by eapply reachable_step. }
      pose proof (abandoned_run X _ _ _ _ Hab Hrun) as Hab2.
      pose proof (entry_removed_by X _ _ _ _ _ (reachable_ids_ok X s2 Hs2)
                    Hstep2 Hrid Hgone) as Hpath.
      destruct ev; simpl in Hpath; try done.
      * destruct Hpath as (sub & Hsub & Heq). by eauto 10.
      * destruct Hpath as (l' & Htid' & Heq).
        by destruct (abandoned_task _ s2 Hab2 _ _ l' Htid' eq_refl).
  - intros replacing e evs s2 -> Hrun.
    assert (orphaned (request_id l) (response_future l) s2) as Horph.
    { eapply orphaned_run; [|done]. by eapply orphaned_after_subscribe_raised. }
    assert (reachable X s2) as Hs2.
    { eapply reachable_run; [|done].
      apply (reachable_step X (Resume tid (Raise e)) s); [done|].
      unfold step. by rewrite Htid. }
    split; [by apply Horph|].
    eapply (pending_unpopped s2 (reachable_correlated X s2 Hs2)), Horph.
  - intros s2 token sub payload Hsub Heq Hpayload. eexists.
    unfold step. rewrite Hsub. split; [done|]. rewrite <-Heq.
    by apply on_message_takes.
Qed.


End Behaviour.

(** * Runs with the stand-in codec *)

Lemma reachable_ready : reachable demo ready.
Proof.
  apply (reachable_run demo to_ready init); [apply reachable_init|].
  vm_compute. reflexivity.
Qed.

Lemma reachable_waiting : reachable demo waiting.
Proof.
  apply (reachable_run demo to_waiting init); [apply reachable_init|].
  vm_compute. reflexivity.
Qed.

Lemma reachable_replied : reachable demo replied.
Proof.
  apply (reachable_run demo to_replied init); [apply reachable_init|].
  vm_compute. reflexivity.
Qed.

Lemma reachable_publish_failed : reachable demo publish_failed.
Proof.
  apply (reachable_run demo to_publish_failed init); [apply reachable_init|].
  vm_compute. reflexivity.
Qed.

Lemma reachable_raced : reachable demo raced.
Proof.
  apply (reachable_run demo to_raced init); [apply reachable_init|].
  vm_compute. reflexivity.
Qed.

Lemma reachable_stale : reachable demo stale.
Proof.
  apply (reachable_run demo to_stale init); [apply reachable_init|].
  vm_compute. reflexivity.
Qed.

Lemma reachable_sent : reachable demo sent.
Proof.
  apply (reachable_run demo to_sent init); [apply reachable_init|].
  vm_compute. reflexivity.
Qed.

Lemma reachable_expired : reachable demo expired.
Proof.
  apply (reachable_run demo to_expired init); [apply reachable_init|].
  vm_compute. reflexivity.
Qed.

Lemma reachable_cancelling : reachable demo cancelling.
Proof.
  apply (reachable_run demo to_cancelling init); [apply reachable_init|].
  vm_compute. reflexivity.
Qed.

Lemma reachable_replied_late : reachable demo replied_late.
Proof.
  apply (reachable_run demo to_replied_late init); [apply reachable_init|].
  vm_compute. reflexivity.
Qed.

(** C1 fails for a send whose [subscribe] raised: the send has returned
    its failure, the entry of its request is in the table, and in no
    continuation of the run is it ever removed. *)
Lemma failed_send_is_never_removed :
  run demo to_subscribe_failed init = Some subscribe_failed ∧
  last (history subscribe_failed)
    = Some (Return 2 (Failure "Unexpected error: not connected")) ∧
  ∀ evs s, run demo evs subscribe_failed = Some s →
    pending_responses s !! "u1:d1:1" = Some 3 ∧
    pops "u1:d1:1" (history s) = 0.
Proof.
  split; [vm_compute; reflexivity|]. split; [vm_compute; reflexivity|].
  intros evs s Hrun.
  pose proof (orphaned_after_subscribe_raised demo sent 2 waiting_locals false
                (Failure "Unexpected error: not connected") reachable_sent
                ltac:(vm_compute; reflexivity)) as Horph.
  assert (finish 2 (Failure "Unexpected error: not connected") sent
          = subscribe_failed) as Heq by (vm_compute; reflexivity).
  rewrite Heq in Horph.
  pose proof (orphan_entry _ _ _ (orphaned_run demo _ _ _ _ _ Horph Hrun))
    as Hentry.
  split; [exact Hentry|].
  eapply pending_unpopped; [|exact Hentry].
  apply reachable_correlated with demo.
  eapply reachable_run; [|exact Hrun].
  apply (reachable_run demo to_subscribe_failed init); [apply reachable_init|].
  vm_compute. reflexivity.
Qed.

(** C1 on the run in which the reply arrives, and on the one in which
    the wait expires: each send comes back with its entry taken exactly
    once. *)
Lemma resolved_and_removed_once_witness :
  resolutions 3 (history replied) ≤ 1 ∧
  pops "u1:d1:1" (history replied) ≤ 1 ∧
  (pops "u1:d1:1" (history returned) = 1 ∧
   pending_responses returned !! "u1:d1:1" = None) ∧
  (pops "u1:d1:1" (history given_up) = 1 ∧
   pending_responses given_up !! "u1:d1:1" = None).
Proof.
  destruct (resolved_and_removed_once demo replied reachable_replied)
    as (Hres & Hpop & Hwake & _).
  destruct (resolved_and_removed_once demo cancelling reachable_cancelling)
    as (_ & _ & Hwake' & _).
  split; [apply Hres|]. split; [apply Hpop|]. split.
  - apply (Hwake 2 (SendAwaitFuture waiting_locals 30000) waiting_locals
             returned [] returned); vm_compute; reflexivity.
  - apply (Hwake' 2 (SendCancelled waiting_locals) waiting_locals
             given_up [] given_up); vm_compute; reflexivity.
Defined.

(** C2 fails when the reply comes between the timer and the resumption
    of the send: the future is not done when the 30 seconds are over and
    the timer fires, and the send returns the reply all the same. *)
Lemma reply_after_expiry_is_returned :
  run demo to_expired init = Some expired ∧
  clock expired = 30000%N ∧
  futures expired !! 3 = Some Pending ∧
  tasks expired !! 2 = Some (SendTimedOut waiting_locals) ∧
  (λ s, (last (history s), tasks s !! 2))
    <$> run demo [Message 4 [x00; x00]; Wake 2] expired
  = Some (Some (Return 2 (Success (JStr "ok"))), None).
Proof. vm_compute. done. Qed.

(** C2 on the waiting send: the timer cannot fire at time 0; once it has
    fired, the send cancels its future and then returns the timeout
    failure; and a reply, before or after the timer, is what the send
    returns. *)
Lemma send_times_out_or_returns_reply_witness :
  step demo (Timeout 2) waiting = None ∧
  step demo (Wake 2) expired = Some cancelling ∧
  (∃ s1, step demo (Wake 2) cancelling = Some s1 ∧
     last (history s1) = Some (Return 2 (Failure "Command timeout")) ∧
     pending_responses s1 !! "u1:d1:1" = None ∧ tasks s1 !! 2 = None) ∧
  step demo (Wake 2) replied = Some returned ∧
  step demo (Wake 2) replied_late
    = Some (finish 2 (Success (JStr "ok")) replied_late).
Proof.
  split_and!.
  - destruct (send_times_out_or_returns_reply demo waiting 2 waiting_locals
                reachable_waiting) as (Hpending & _).
    destruct (Hpending 30000%N) as (_ & Hearly & _);
      [vm_compute; reflexivity..|].
    apply Hearly. vm_compute. reflexivity.
  - destruct (send_times_out_or_returns_reply demo expired 2 waiting_locals
                reachable_expired) as (_ & Hresumed & _).
    rewrite Hresumed; [|vm_compute; reflexivity..].
    vm_compute. reflexivity.
  - destruct (send_times_out_or_returns_reply demo cancelling 2 waiting_locals
                reachable_cancelling) as (_ & _ & Hcancelled & _).
    apply Hcancelled. vm_compute. reflexivity.
  - destruct (send_times_out_or_returns_reply demo replied 2 waiting_locals
                reachable_replied) as (_ & _ & _ & Hdone & _).
    destruct (Hdone (SendAwaitFuture waiting_locals 30000))
      as [Hresult _]; [vm_compute; reflexivity|by eauto|].
    destruct (Hresult {| api_error := None; data := JStr "ok" |})
      as [_ Hwake]; [vm_compute; reflexivity|].
    rewrite Hwake. vm_compute. reflexivity.
  - destruct (send_times_out_or_returns_reply demo replied_late 2
                waiting_locals reachable_replied_late) as (_ & _ & _ & Hdone & _).
    destruct (Hdone (SendTimedOut waiting_locals))
      as [Hresult _]; [vm_compute; reflexivity|by right|].
    destruct (Hresult {| api_error := None; data := JStr "ok" |})
      as [_ Hwake]; [vm_compute; reflexivity|].
    exact Hwake.
Defined.

Lemma reachable_sent_twice : reachable demo sent_twice.
Proof.
  apply (reachable_run demo to_sent_twice init); [apply reachable_init|].
  vm_compute. reflexivity.
Qed.

(** C4 on two sends to two devices. *)
Lemma request_ids_unique_witness :
  (1 < 2)%N ∧ "u1:d1:1" ≠ "u1:d2:2".
Proof.
  apply (request_ids_unique demo sent_twice 0 1).
  - apply reachable_sent_twice.
  - vm_compute. reflexivity.
  - vm_compute. reflexivity.
  - lia.
Defined.

(** C3 on two sends to one device that overlap: both find no token for
    the device and both subscribe; two callbacks are then registered for
    the topic of the device, the table knows the token of the second
    only, and closing the session leaves the first registered. *)
Theorem concurrent_sends_leave_two_callbacks :
  run demo to_raced init = Some raced ∧
  (live_callbacks 1 "rr/m/o/realm/acct/d1" raced).*1 = [6; 7] ∧
  subscriptions raced !! "u1" = Some {[ "d1" := 7 ]} ∧
  (λ s, dom (callbacks s)) <$> close_alone demo "u1" (Ok ()) raced
    = Some {[ 6 ]}.
Proof. vm_compute. done. Qed.

(** C5 fails after a disconnect that ran while a send awaited
    [subscribe]: the user has no session, so nothing is torn down, the
    credentials are rejected, and the subscription table still has the
    user's entry. *)
Lemma failed_initialize_leaves_subscriptions :
  sessions stale !! "u1" = None ∧
  (λ s', (last (history s'), sessions s' !! "u1", subscriptions s' !! "u1"))
    <$> initialize_alone demo "u1" ∅ (Ok ()) (Ok ()) stale
  = Some (Some (Return 6 (Failure "'r'")), None, Some {[ "d1" := 5 ]}).
Proof. vm_compute. done. Qed.

(** C5 on a user with a session and good credentials. *)
Lemma initialize_replaces_session_witness :
  ∃ s', initialize_alone demo "u1" creds (Ok ()) (Ok ()) ready = Some s' ∧
    _lock s' = false ∧
    sessions s' !! "u1" = Some 3 ∧ subscriptions s' !! "u1" = Some ∅.
Proof.
  destruct (initialize_replaces_session demo ready "u1" creds (Ok ()) (Ok ())
              reachable_ready eq_refl) as (s' & Hrun & Hlock & Hok).
  exists s'. split; [done|]. split; [done|].
  assert (Some s' = Some (default init
            (initialize_alone demo "u1" creds (Ok ()) (Ok ()) ready))) as [= ->]
    by (rewrite <-Hrun; vm_compute; reflexivity).
  vm_compute. done.
Defined.

(** C6 on the daemon before any [initialize]. *)
Lemma send_without_session_witness :
  ∃ s', step demo (CallSendCommand "u1" "d1" "key" "get_status" None) init
          = Some s' ∧
    history s' = [Return 0 not_initialized] ∧ request_counter s' = 0%N.
Proof.
  destruct (send_without_session demo init "u1" "d1" "key" "get_status" None
              eq_refl) as [(s' & Hstep & Hhist & Hcounter & _) _].
  exists s'. done.
Defined.


Lemma reachable_published : reachable demo published.
Proof.
  apply (reachable_run demo to_published init); [apply reachable_init|].
  vm_compute. reflexivity.
Qed.


(** C8 fails after a disconnect that ran while a send awaited
    [subscribe]: the user has no session, and yet the call unsubscribes
    the callback of the send and deletes the user's subscription entry. *)
Lemma close_without_session_unsubscribes :
  run demo to_stale init = Some stale ∧
  sessions stale !! "u1" = None ∧
  subscriptions stale !! "u1" = Some {[ "d1" := 5 ]} ∧
  is_Some (callbacks stale !! 5) ∧
  (λ s1, (drop (length (history stale)) (history s1),
          subscriptions s1 !! "u1", callbacks s1 !! 5))
    <$> close_alone demo "u1" (Ok ()) stale
  = Some ([Unsubscribe 5; Return 6 PyNone], None, None).
Proof. vm_compute. split_and!; by eauto. Qed.

(** C8 on the user with a session and one device, closed twice; on the
    user whose subscription entry has outlived the session; and on the
    daemon that knows no user. *)
Lemma close_session_idempotent_witness :
  (∃ s1 s2,
     close_alone demo "u1" (Ok ()) waiting = Some s1 ∧
     close_alone demo "u1" (Ok ()) s1 = Some s2 ∧
     only_returned (next_id s1) PyNone s1 s2) ∧
  (∃ s1, close_alone demo "u1" (Ok ()) stale = Some s1 ∧
     history s1 = history stale ++ [Unsubscribe 5; Return 6 PyNone] ∧
     subscriptions s1 = delete "u1" (subscriptions stale)) ∧
  (∃ s1, close_alone demo "u1" (Ok ()) init = Some s1 ∧
     only_returned 0 PyNone init s1).
Proof.
  destruct (close_session_idempotent demo "u1") as (_ & Hnone & Htwice).
  split; [apply Htwice|]. split.
  - destruct (Hnone stale (Ok ()) reachable_stale)
      as (s1 & tokens & Hrun & Hperm & Hhist & _ & Hsubs & _);
      [vm_compute; reflexivity|].
    assert (tokens_of "u1" stale = [5]) as Heq by (vm_compute; reflexivity).
    rewrite Heq in Hperm. apply Permutation_singleton_r in Hperm as ->.
    exists s1. split; [exact Hrun|]. split; [exact Hhist|exact Hsubs].
  - destruct (Hnone init (Ok ()) (reachable_init demo))
      as (s1 & tokens & Hrun & _ & _ & _ & _ & _ & _ & Honly);
      [vm_compute; reflexivity|].
    exists s1. split; [exact Hrun|]. apply Honly. vm_compute. reflexivity.
Defined.

(** C9 fails when [publish] raises: the send returns its
    failure and the entry is still there, but the callback that the send
    registered is still there too, and the next reply that reaches it
    takes the entry away. *)
Lemma entry_removed_after_failed_publish :
  last (history publish_failed)
    = Some (Return 2 (Failure "Unexpected error: not connected")) ∧
  pending_responses publish_failed !! "u1:d1:1" = Some 3 ∧
  pending_responses <$> step demo (Message 4 [x00; x00]) publish_failed
    = Some ∅.
Proof. vm_compute. done. Qed.

(** C9 on the send whose [subscribe] raises: its entry is there after a
    second send to the device has timed out; and on the send whose
    [publish] raises: it returns the failure, and the reply that reaches
    its callback afterwards takes the entry. *)
Lemma failed_send_keeps_entry_witness :
  pending_responses later !! "u1:d1:1" = Some 3 ∧
  step demo (Resume 2 (Raise (OtherException "not connected"))) published
    = Some publish_failed ∧
  ∃ s3, step demo (Message 4 [x00; x00]) publish_failed = Some s3 ∧
    pending_responses s3 !! "u1:d1:1" = None.
Proof.
  split_and!.
  - destruct (failed_send_keeps_entry demo sent 2
                (SendAwaitSubscribe waiting_locals false) waiting_locals
                reachable_sent)
      as (_ & _ & Hstays & _); [vm_compute; reflexivity|by eauto|].
    apply (Hstays false (OtherException "not connected")
             [CallSendCommand "u1" "d1" "key" "get_status" None;
              Resume 4 (Ok ()); Resume 4 (Ok ()); Tick 30000; Timeout 4;
              Wake 4; Wake 4]
             later); [reflexivity|vm_compute; reflexivity].
  - destruct (failed_send_keeps_entry demo published 2
                (SendAwaitPublish waiting_locals) waiting_locals
                reachable_published)
      as (Hfails & _); [vm_compute; reflexivity|by right|].
    rewrite Hfails. vm_compute. reflexivity.
  - destruct (failed_send_keeps_entry demo published 2
                (SendAwaitPublish waiting_locals) waiting_locals
                reachable_published)
      as (_ & _ & _ & Htakes); [vm_compute; reflexivity|by right|].
    apply (Htakes publish_failed 4 waiting_callback [x00; x00]);
      [vm_compute; reflexivity|reflexivity|].
    left. exists [ {| protocol := RPC_RESPONSE; payload := [x00] |} ],
      {| api_error := None; data := JStr "ok" |}.
    split; vm_compute; reflexivity.
Defined.



(** * More on the daemon *)

Section DaemonFacts.
Context (X : Externals).

(** ** Credentials *)

(** X1: [_create_rriot] returns exactly when the five fields are there
    and "r" is a dictionary with an "a"; "m" and "l" are optional and
    default to [None].  A missing "r" is a [KeyError] for "r", and with
    "r" a dictionary every failure is the [KeyError] of a field that is
    missing.  The bridge has the same function under the name
    [create_rriot]. *)
Theorem create_rriot_needs_its_fields rd :
  (∀ r, _create_rriot X rd = Ok r ↔
     ∃ d a u s h k,
       rd !! "r" = Some (JObj d) ∧ d !! "a" = Some a ∧
       rd !! "u" = Some u ∧ rd !! "s" = Some s ∧
       rd !! "h" = Some h ∧ rd !! "k" = Some k ∧
       r = {| rriot_u := u; rriot_s := s; rriot_h := h; rriot_k := k;
              rriot_r := {| ref_a := a;
                            ref_m := default JNull (d !! "m");
                            ref_l := default JNull (d !! "l") |} |}) ∧
  (rd !! "r" = None → _create_rriot X rd = Raise (KeyError X "r")) ∧
  (∀ d e, rd !! "r" = Some (JObj d) → _create_rriot X rd = Raise e →
     ∃ key, e = KeyError X key ∧
       (key = "a" ∧ d !! "a" = None ∨
        key ∈ ["u"; "s"; "h"; "k"] ∧ rd !! key = None)) ∧
  Bridge.create_rriot X rd = _create_rriot X rd.
Proof.
  split_and!; [|by unfold _create_rriot, subscript; intros ->| |done].
  - intros r. unfold _create_rriot, subscript. split.
    + destruct (rd !! "r") as [[| | | | |d]|] eqn:Hr; simpl; try done.
      unfold subscript.
      destruct (d !! "a") as [a|] eqn:Ha; simpl; [|done].
      destruct (rd !! "u") as [u|] eqn:Hu; simpl; [|done].
      destruct (rd !! "s") as [s|] eqn:Hs; simpl; [|done].
      destruct (rd !! "h") as [h|] eqn:Hh; simpl; [|done].
      destruct (rd !! "k") as [k|] eqn:Hk; simpl; [|done].
      intros [= <-]. by exists d, a, u, s, h, k.
    + intros (d & a & u & s & h & k & -> & Ha & -> & -> & -> & -> & ->); simpl.
      unfold subscript. by rewrite Ha.
  - intros d e Hr. unfold _create_rriot, subscript. rewrite Hr; simpl.
    unfold subscript.
    destruct (d !! "a") as [a|] eqn:Ha; simpl;
      [|intros [= <-]; exists "a"; by eauto].
    destruct (rd !! "u") as [u|] eqn:Hu; simpl;
      [|intros [= <-]; exists "u"; split; [done|]; right; split; [set_solver|done]].
    destruct (rd !! "s") as [s|] eqn:Hs; simpl;
      [|intros [= <-]; exists "s"; split; [done|]; right; split; [set_solver|done]].
    destruct (rd !! "h") as [h|] eqn:Hh; simpl;
      [|intros [= <-]; exists "h"; split; [done|]; right; split; [set_solver|done]].
    destruct (rd !! "k") as [k|] eqn:Hk; simpl;
      [|intros [= <-]; exists "k"; split; [done|]; right; split; [set_solver|done]].
    done.
Qed.

(** ** Inbound replies *)

(** X2: a payload whose first reply decodes, arriving while the request
    of the registered callback is pending, resolves that request with
    the reply: the entry is taken, the future gets the reply, and the
    send that waits for it returns the device error of the reply if it
    has one and its data otherwise.  Whatever follows the reply in the
    payload changes nothing. *)
Theorem reply_resolves_request s token sub payload messages response fut :
  callbacks s !! token = Some sub →
  parse X payload (h_local_key (sub_handler sub)) = Ok messages →
  first_reply X messages = Some response →
  pending_responses s !! h_request_id (sub_handler sub) = Some fut →
  futures s !! fut = Some Pending →
  ∃ s1, step X (Message token payload) s = Some s1 ∧
    history s1 =
      history s ++ [Pop (h_request_id (sub_handler sub)); SetResult fut response] ∧
    pending_responses s1 =
      delete (h_request_id (sub_handler sub)) (pending_responses s) ∧
    futures s1 = <[fut := Result response]> (futures s) ∧
    ∀ tid l deadline,
      tasks s !! tid = Some (SendAwaitFuture l deadline) →
      response_future l = fut →
      step X (Wake tid) s1 =
        Some (finish tid
                match api_error response with
                | Some err => Failure err
                | None => Success (data response)
                end s1).
Proof.
  intros Hsub Hparse Hfirst Hrid Hfut. eexists. unfold step. rewrite Hsub.
  rewrite (on_message_first_reply X _ _ _ _ _ Hparse Hfirst).
  split; [done|]. rewrite take_and_set_eq, Hrid, Hfut.
  unfold pop_pending, set_future, emit; simpl.
  split_and!; [by rewrite <-app_assoc|done|done|].
  intros tid l deadline Htid <-. rewrite Htid.
  unfold send_command_resolved; simpl. by rewrite lookup_insert_eq.
Qed.

(** X3: a payload that parses into messages none of which is a reply
    changes nothing, whatever is pending. *)
Theorem other_messages_are_ignored s token sub payload messages :
  callbacks s !! token = Some sub →
  parse X payload (h_local_key (sub_handler sub)) = Ok messages →
  Forall (λ msg, protocol msg ≠ RPC_RESPONSE) messages →
  step X (Message token payload) s = Some s.
Proof.
  intros Hsub Hparse Hother. unfold step. rewrite Hsub. f_equal.
  unfold on_message. rewrite Hparse.
  assert (on_message_loop X (h_request_id (sub_handler sub)) messages s
          = (s, None)) as ->; [|done].
  clear Hparse. induction Hother as [|msg rest Hmsg _ IH]; simpl; [done|].
  by destruct (protocol msg).
Qed.

(** ** The lock *)

(** X4: in every state the daemon can be in, at most one coroutine is
    inside [async with self._lock], and the lock is held exactly when
    there is one: no path out of [initialize], not even the [KeyError]
    of [_close_session], leaves the lock held. *)
Theorem initialize_is_exclusive s :
  reachable X s →
  (∀ tid1 tid2 t1 t2,
     tasks s !! tid1 = Some t1 → tasks s !! tid2 = Some t2 →
     holds_lock t1 = true → holds_lock t2 = true → tid1 = tid2) ∧
  (_lock s = true ↔ ∃ tid t, tasks s !! tid = Some t ∧ holds_lock t = true).
Proof.
  intros Hs. pose proof (reachable_lifecycle_ok X s Hs) as Hlife.
  pose proof (reachable_lock_ok X s Hs) as Hlock.
  split; [apply Hlife|]. split; [apply Hlock|].
  intros (tid & t & Htid & Hhold). destruct (_lock s) eqn:Hl; [done|].
  rewrite (unlocked s Hlife tid t Hl Htid) in Hhold. done.
Qed.

(** X5: in every state the daemon can be in, a user has a session exactly
    when the daemon has the user's credentials, and while [initialize]
    awaits [session.start] for a user, the user has neither. *)
Theorem sessions_and_credentials_agree s user :
  reachable X s →
  (sessions s !! user = None ↔ rriot_data s !! user = None) ∧
  ∀ tid r sess, tasks s !! tid = Some (InitAwaitStart user r sess) →
    sessions s !! user = None ∧ rriot_data s !! user = None.
Proof.
  intros Hs. pose proof (reachable_lifecycle_ok X s Hs) as Hlife.
  split; [apply Hlife|]. intros tid r sess Htid.
  pose proof (starting s Hlife _ _ _ _ Htid) as Hnone.
  split; [done|]. by apply Hlife.
Qed.

(** ** Futures and the pending table *)

(** X6: a future that is done stays as it is for the rest of the run: a
    reply, an exception or a cancellation, once set, is never replaced. *)
Theorem done_future_is_final evs s s' fut f :
  reachable X s → futures s !! fut = Some f → done f = true →
  run X evs s = Some s' → futures s' !! fut = Some f.
Proof.
  revert s. induction evs as [|ev evs IH]; intros s Hs Hfut Hdone; simpl.
  - by intros [= <-].
  - destruct (step X ev s) as [s1|] eqn:Hstep; [|done]. simpl.
    apply IH; [by eapply reachable_step| |done].
    eapply done_future_step; eauto using reachable_ids_ok.
Qed.

(** X7: in every state the daemon can be in, an entry of the pending
    table belongs to one request only: its future is neither set to a
    reply nor to an exception, no other request identifier has the same
    future, and the identifier has not been taken out before. *)
Theorem pending_entry_is_unresolved s rid fut :
  reachable X s → pending_responses s !! rid = Some fut →
  (futures s !! fut = Some Pending ∨ futures s !! fut = Some Cancelled) ∧
  (∀ rid', pending_responses s !! rid' = Some fut → rid' = rid) ∧
  pops rid (history s) = 0 ∧
  resolutions fut (history s) ≤ 1.
Proof.
  intros Hs%reachable_correlated Hrid. split_and!.
  - by eapply pending_unresolved.
  - intros rid' Hrid'. by eapply pending_inj.
  - by eapply pending_unpopped.
  - by apply resolved_once.
Qed.

(** ** Subscriptions *)

Lemma foldl_delete_lookup {A} (m : gmap nat A) tokens i :
  foldl (λ m token, delete token m) m tokens !! i =
  if decide (i ∈ tokens) then None else m !! i.
Proof.
  revert m. induction tokens as [|t tokens IH]; intros m; simpl; [done|].
  rewrite IH. destruct (decide (i = t)) as [->|Hne].
  - rewrite lookup_delete_eq. rewrite (decide_True (P := t ∈ t :: tokens))
      by apply list_elem_of_here. by case_decide.
  - rewrite lookup_delete_ne by done.
    destruct (decide (i ∈ tokens)).
    + rewrite decide_True; [done|by apply list_elem_of_further].
    + rewrite decide_False; [done|by intros [?|?]%elem_of_cons].
Qed.

(** X8: a registered callback goes away only when a later send to its
    device replaces it or when [_close_session] runs for its user (from a
    disconnect, or from [initialize] on a user with a session).  An
    inbound message, a timeout and the return of a send never
    unsubscribe: the callback of a send outlives the send. *)
Theorem callback_removed_only_by_send_or_close ev s s' token sub :
  step X ev s = Some s' →
  callbacks s !! token = Some sub → callbacks s' !! token = None →
  match ev with
  | CallSendCommand user device _ _ _ =>
      default ∅ (subscriptions s !! user) !! device = Some token
  | CallCloseSession user => token ∈ tokens_of user s
  | CallInitialize user _ =>
      is_Some (sessions s !! user) ∧ token ∈ tokens_of user s
  | LockAcquired tid =>
      ∃ user rd, tasks s !! tid = Some (InitAwaitLock user rd) ∧
        is_Some (sessions s !! user) ∧ token ∈ tokens_of user s
  | _ => False
  end.
Proof.
  intros Hstep Hcb Hgone. revert Hgone. step_fields X ev Hstep.
  all: unfold tokens_of; intros Hgone.
  all: repeat match goal with
       | H : foldl _ _ _ !! _ = None |- _ =>
           rewrite foldl_delete_lookup in H; case_decide
       | H : <[_:=_]> _ !! _ = None |- _ =>
           apply lookup_insert_None in H as [H ?]
       | H : delete _ _ !! _ = None |- _ =>
           apply lookup_delete_None in H as [H|H]
       end.
  all: try congruence.
  all: simplify_eq/=.
  all: try done.
  all: try (eexists _, _; split; [reflexivity|]).
  all: repeat match goal with
       | H : subscriptions _ !! _ = _ |- _ => rewrite H; clear H
       | H : sessions _ !! _ = _ |- _ => rewrite H; clear H
       end; simpl.
  all: by eauto.
Qed.

Lemma send_command_subscribed_stores tid l s devices :
  subscriptions s !! user_id l = Some devices →
  callbacks (send_command_subscribed X tid l true (Ok ()) s) =
    <[next_id s := {| sub_session := session l;
                      sub_topic := subscribe_topic X l;
                      sub_handler := handler_of l |}]> (callbacks s) ∧
  subscriptions (send_command_subscribed X tid l true (Ok ()) s) =
    <[user_id l := <[device_id l := next_id s]> devices]> (subscriptions s).
Proof.
  intros Hsub. unfold send_command_subscribed, store_token, fresh; simpl.
  rewrite Hsub. by destruct (encode_request _ _ _ _ _).
Qed.

Lemma tasks_suspend tid t s : tasks (suspend tid t s) !! tid = Some t.
Proof. apply lookup_insert_eq. Qed.

(** X9: a send to a device that has a stored unsubscribe token calls the
    token before it subscribes again; when [subscribe] returns, the new
    callback has taken the place of the old one with the transport, and
    the new token the place of the old one in the table. *)
Theorem later_send_replaces_callback s user device key cmd ps sess r mp
    devices old :
  sessions s !! user = Some sess → rriot_data s !! user = Some r →
  create_mqtt_params X r = Ok mp →
  subscriptions s !! user = Some devices → devices !! device = Some old →
  let tid := next_id s in
  let token := S (S (next_id s)) in
  let rid := make_request_id user device (request_counter s + 1) in
  let topic :=
    "rr/m/o/" +:+ format X (rriot_u r) +:+ "/" +:+ username mp +:+ "/"
      +:+ device in
  let h := {| h_request_id := rid; h_local_key := key |} in
  ∃ s1 s2,
    step X (CallSendCommand user device key cmd ps) s = Some s1 ∧
    history s1 =
      history s ++ [Allocated tid (request_counter s + 1) rid;
                    Unsubscribe old; Subscribe sess topic h] ∧
    callbacks s1 = delete old (callbacks s) ∧
    step X (Resume tid (Ok ())) s1 = Some s2 ∧
    callbacks s2 =
      <[token := {| sub_session := sess; sub_topic := topic;
                    sub_handler := h |}]> (delete old (callbacks s)) ∧
    subscriptions s2 = <[user := <[device := token]> devices]> (subscriptions s).
Proof.
  intros Hsess Hcred Hmp Hsub Hold tid token rid topic h.
  subst tid token rid topic h.
  eexists _, _. split.
  { unfold step, fresh, send_command; simpl.
    rewrite Hsess, Hcred, Hmp; simpl. rewrite Hsub; simpl. rewrite Hold.
    reflexivity. }
  split.
  { unfold suspend, unsubscribe, register, emit; simpl.
    by rewrite <-!app_assoc. }
  split; [done|].
  split; [unfold step; rewrite tasks_suspend; reflexivity|].
  match goal with
  | |- callbacks (send_command_subscribed _ ?tid ?l _ _ ?s1) = _ ∧ _ =>
      destruct (send_command_subscribed_stores tid l s1 devices Hsub)
        as [Hcallbacks Htable]
  end.
  split; [exact Hcallbacks|exact Htable].
Qed.

(** ** Users *)

(** X20: a transition touches the session, the credentials and the
    subscription table of one user only, the one it works for: the
    entries of every other user are as they were, whatever is
    interleaved. *)
Theorem tables_change_for_one_user ev s s' user :
  step X ev s = Some s' → user_of ev s ≠ Some user →
  sessions s' !! user = sessions s !! user ∧
  rriot_data s' !! user = rriot_data s !! user ∧
  subscriptions s' !! user = subscriptions s !! user.
Proof.
  intros Hstep. step_fields X ev Hstep.
  all: intros Hother.
  all: repeat match goal with
       | H : tasks _ !! _ = Some _ |- _ => rewrite H in Hother
       end; simpl in Hother.
  all: rewrite ?lookup_insert_ne, ?lookup_delete_ne by congruence.
  all: done.
Qed.

(** X21: the session table, the credentials and the lock change only in
    a step of [initialize] or of [_close_session]: no step of a send, no
    inbound message and no timeout touches them. *)
Theorem sessions_change_only_in_session_steps ev s s' :
  step X ev s = Some s' →
  sessions s' ≠ sessions s ∨ rriot_data s' ≠ rriot_data s ∨ _lock s' ≠ _lock s →
  session_step ev s.
Proof.
  intros Hstep. step_fields X ev Hstep.
  all: intros Hchanged.
  all: try done.
  all: try (by eexists).
  all: by destruct Hchanged as [?|[?|?]].
Qed.

(** ** Disconnects that overlap *)

(** X10: [_close_session] deletes the session entry after it has awaited
    [close], without a test.  When two calls for one user are both
    suspended in [close], the one that resumes first returns, and the
    other finds the entry gone and ends with a [KeyError] for the user;
    if the other was called by [initialize], the exception leaves
    [initialize] too, which releases the lock. *)
Theorem overlapping_close_raises_key_error s tid1 tid2 user k2 sess o1 o2 :
  tasks s !! tid1 = Some (CloseAwaitClose user FromDisconnect) →
  tasks s !! tid2 = Some (CloseAwaitClose user k2) → tid1 ≠ tid2 →
  sessions s !! user = Some sess →
  ∃ s1 s2,
    step X (Resume tid1 o1) s = Some s1 ∧
    step X (Resume tid2 o2) s1 = Some s2 ∧
    history s2 =
      history s ++ [Return tid1 PyNone; Raised tid2 (KeyError X user)] ∧
    sessions s2 !! user = None ∧ tasks s2 !! tid2 = None ∧
    _lock s2 = match k2 with
               | FromInitialize _ => false
               | FromDisconnect => _lock s
               end.
Proof.
  intros Htid1 Htid2 Hne Hsess. eexists _, _.
  split; [unfold step; rewrite Htid1; reflexivity|].
  unfold close_session_closed. rewrite Hsess.
  unfold close_session_return, forget_rriot, finish, emit; simpl.
  split.
  { unfold step; simpl. rewrite lookup_delete_ne, Htid2 by done. reflexivity. }
  unfold close_session_closed; simpl. rewrite lookup_delete_eq.
  unfold close_session_raise, propagate, emit.
  destruct k2; simpl; rewrite !lookup_delete_eq, <-app_assoc; done.
Qed.

(** ** [shutdown] *)

Lemma close_alone_fields user o s :
  ∃ s1, close_alone X user o s = Some s1 ∧
    sessions s1 = delete user (sessions s) ∧
    rriot_data s1 = delete user (rriot_data s) ∧
    subscriptions s1 = delete user (subscriptions s) ∧
    callbacks s1 =
      foldl (λ m token, delete token m) (callbacks s) (tokens_of user s) ∧
    history s1 =
      history s ++ (Unsubscribe <$> tokens_of user s)
        ++ match sessions s !! user with
           | Some sess => [Close sess]
           | None => []
           end ++ [Return (next_id s) PyNone].
Proof.
  unfold close_alone, step, fresh, tokens_of; simpl.
  unfold _close_session, close_session_return, forget_rriot, finish, suspend;
    simpl.
  destruct (subscriptions s !! user) as [devices|] eqn:Hsub; simpl;
    rewrite ?foldl_unsubscribe; simpl.
  all: destruct (sessions s !! user) as [sess|] eqn:Hsess; simpl.
  all: rewrite ?lookup_insert_eq, ?lookup_delete_eq; simpl.
  all: unfold close_session_closed, close_session_return, forget_rriot,
         finish; simpl; rewrite ?Hsess; simpl.
  all: eexists; (split; [reflexivity|]); simpl.
  all: rewrite ?map_to_list_empty; simpl.
  all: rewrite ?(delete_id (sessions s)), ?(delete_id (subscriptions s)) by done.
  all: rewrite <-?app_assoc; simpl.
  all: by rewrite ?app_nil_r.
Qed.

Lemma shutdown_loop_fields user_ids closed s :
  ∃ s', shutdown_loop X user_ids closed s = Some s' ∧
    (∀ u, sessions s' !! u =
            if decide (u ∈ user_ids) then None else sessions s !! u) ∧
    (∀ u, rriot_data s' !! u =
            if decide (u ∈ user_ids) then None else rriot_data s !! u) ∧
    (∀ u, subscriptions s' !! u =
            if decide (u ∈ user_ids) then None else subscriptions s !! u) ∧
    (∀ token,
       callbacks s !! token = None ∨
       (∃ u, u ∈ user_ids ∧ token ∈ tokens_of u s) →
       callbacks s' !! token = None) ∧
    (∀ a, a ∈ history s → a ∈ history s') ∧
    (∀ u sess, u ∈ user_ids → sessions s !! u = Some sess →
       Close sess ∈ history s').
Proof.
  revert s. induction user_ids as [|user rest IH]; intros s; simpl.
  { exists s. split_and!; try done.
    - intros token [?|(u & Hu & _)]; [done|by inversion Hu].
    - intros u sess Hu. by inversion Hu. }
  destruct (close_alone_fields user (closed user) s)
    as (s1 & -> & Hsess & Hcred & Hsub & Hcb & Hhist); simpl.
  destruct (IH s1) as (s' & -> & Hsess' & Hcred' & Hsub' & Hcb' & Hhist' & Hclose').
  exists s'. split; [done|].
  assert (∀ {A} (m1 m : gmap string A) u,
            m1 = delete user m →
            (if decide (u ∈ rest) then None else m1 !! u) =
            (if decide (u ∈ user :: rest) then None else m !! u)) as Hdel.
  { intros A m1 m u ->. destruct (decide (u = user)) as [->|Hne].
    - rewrite lookup_delete_eq.
      rewrite (decide_True (P := user ∈ user :: rest))
        by apply list_elem_of_here.
      by case_decide.
    - rewrite lookup_delete_ne by done. destruct (decide (u ∈ rest)).
      + rewrite decide_True; [done|by apply list_elem_of_further].
      + rewrite decide_False; [done|by intros [?|?]%elem_of_cons]. }
  split_and!.
  - intros u. rewrite Hsess'. by apply Hdel.
  - intros u. rewrite Hcred'. by apply Hdel.
  - intros u. rewrite Hsub'. by apply Hdel.
  - intros token Htoken. apply Hcb'.
    assert (token ∈ tokens_of user s → callbacks s1 !! token = None) as Hnow.
    { intros Hin. rewrite Hcb, foldl_delete_lookup. by rewrite decide_True. }
    destruct Htoken as [Hnone|(u & Hu & Hin)].
    + left. rewrite Hcb, foldl_delete_lookup. by case_decide.
    + destruct (decide (u = user)) as [->|Hne]; [left; by apply Hnow|].
      right. exists u. apply elem_of_cons in Hu as [?|Hu]; [done|].
      split; [done|]. unfold tokens_of in *.
      by rewrite Hsub, lookup_delete_ne.
  - intros a Ha. apply Hhist'. rewrite Hhist. apply elem_of_app. by left.
  - intros u sess Hu Hu'. destruct (decide (u = user)) as [->|Hne].
    + apply Hhist'. rewrite Hhist, Hu'. rewrite !elem_of_app.
      right. right. left. apply list_elem_of_here.
    + apply elem_of_cons in Hu as [?|Hu]; [done|].
      apply (Hclose' u); [done|]. by rewrite Hsess, lookup_delete_ne.
Qed.

(** X11: [shutdown], run with no other coroutine in between over the
    keys of the session table, closes the transport of every session and
    calls every unsubscribe token stored for these users; afterwards the
    daemon has no session and no credentials, and no subscription entry
    for these users.  A subscription entry of a user without a session is
    not looked at and stays. *)
Theorem shutdown_closes_every_session s user_ids closed :
  reachable X s →
  user_ids ≡ₚ (map_to_list (sessions s)).*1 →
  ∃ s', shutdown_loop X user_ids closed s = Some s' ∧
    sessions s' = ∅ ∧ rriot_data s' = ∅ ∧
    (∀ user sess, sessions s !! user = Some sess →
       Close sess ∈ history s' ∧
       subscriptions s' !! user = None ∧
       ∀ token, token ∈ tokens_of user s → callbacks s' !! token = None) ∧
    (∀ user, sessions s !! user = None →
       subscriptions s' !! user = subscriptions s !! user).
Proof.
  intros Hs Hperm.
  assert (∀ user, user ∈ user_ids ↔ is_Some (sessions s !! user)) as Hkeys.
  { intros user. rewrite Hperm, list_elem_of_fmap. split.
    - intros ([u sess] & -> & Hin). apply elem_of_map_to_list in Hin.
      by eexists.
    - intros [sess Hsess]. exists (user, sess). split; [done|].
      by apply elem_of_map_to_list. }
  pose proof (credentials_with_session s (reachable_lifecycle_ok X s Hs)) as Hcreds.
  destruct (shutdown_loop_fields user_ids closed s)
    as (s' & Hrun & Hsess & Hcred & Hsub & Hcb & _ & Hclose).
  exists s'. split; [done|]. split_and!.
  - apply map_eq. intros u. rewrite lookup_empty, Hsess.
    case_decide as Hin; [done|]. apply eq_None_not_Some. by rewrite <-Hkeys.
  - apply map_eq. intros u. rewrite lookup_empty, Hcred.
    case_decide as Hin; [done|]. apply Hcreds, eq_None_not_Some.
    by rewrite <-Hkeys.
  - intros user sess Huser.
    assert (user ∈ user_ids) as Hin by (apply Hkeys; by eexists).
    split_and!.
    + by eapply Hclose.
    + by rewrite Hsub, decide_True.
    + intros token Htoken. apply Hcb. right. by exists user.
  - intros user Huser. rewrite Hsub, decide_False; [done|].
    rewrite Hkeys, Huser. by intros [? [=]].
Qed.

End DaemonFacts.

(** ** The HTTP handlers *)

Lemma truthy_field (d : gmap string json) (key : string) v :
  default JNull (d !! key) = v → truthy v = true → d !! key = Some v.
Proof. destruct (d !! key); simpl; [congruence|by intros <-]. Qed.

(** X22: the handlers pass a request on to the daemon exactly when its
    body is a JSON object in which the fields they need are there and
    truthy: "user_id" and "rriot" for /init, "user_id", "device_id",
    "local_key" and "command" for /command ("params" is optional),
    "user_id" for /disconnect.  An empty string or object, [0], [false]
    or [null] in such a field counts as missing.  The values are passed
    on as they are. *)
Theorem handlers_pass_on_truthy_fields body :
  (∀ u r, handle_init body = Initialize u r ↔
     ∃ d, body = Ok (JObj d) ∧
       d !! "user_id" = Some u ∧ d !! "rriot" = Some r ∧
       truthy u = true ∧ truthy r = true) ∧
  (∀ u dev k c p, handle_command body = SendCommand u dev k c p ↔
     ∃ d, body = Ok (JObj d) ∧
       d !! "user_id" = Some u ∧ d !! "device_id" = Some dev ∧
       d !! "local_key" = Some k ∧ d !! "command" = Some c ∧
       truthy u = true ∧ truthy dev = true ∧ truthy k = true ∧
       truthy c = true ∧ p = default JNull (d !! "params")) ∧
  (∀ u, handle_disconnect body = Disconnect u ↔
     ∃ d, body = Ok (JObj d) ∧ d !! "user_id" = Some u ∧ truthy u = true).
Proof.
  split_and!.
  - intros u r. split.
    + destruct body as [[| | | | |d]|e]; simpl; try done.
      destruct (truthy (default JNull (d !! "user_id"))) eqn:Hu; [|done].
      destruct (truthy (default JNull (d !! "rriot"))) eqn:Hr; [|done].
      simpl. intros [= Heq1 Heq2]. exists d.
      rewrite Heq1 in Hu. rewrite Heq2 in Hr.
      by rewrite (truthy_field d "user_id" u), (truthy_field d "rriot" r).
    + intros (d & -> & Hu & Hr & Htu & Htr). simpl.
      by rewrite Hu, Hr; simpl; rewrite Htu, Htr.
  - intros u dev k c p. split.
    + destruct body as [[| | | | |d]|e]; simpl; try done.
      destruct (truthy (default JNull (d !! "user_id"))) eqn:Hu; [|done].
      destruct (truthy (default JNull (d !! "device_id"))) eqn:Hd; [|done].
      destruct (truthy (default JNull (d !! "local_key"))) eqn:Hk; [|done].
      destruct (truthy (default JNull (d !! "command"))) eqn:Hc; [|done].
      simpl. intros [= Heq1 Heq2 Heq3 Heq4 <-]. exists d.
      rewrite Heq1 in Hu. rewrite Heq2 in Hd. rewrite Heq3 in Hk.
      rewrite Heq4 in Hc.
      by rewrite (truthy_field d "user_id" u), (truthy_field d "device_id" dev),
        (truthy_field d "local_key" k), (truthy_field d "command" c).
    + intros (d & -> & Hu & Hd & Hk & Hc & Htu & Htd & Htk & Htc & ->). simpl.
      by rewrite Hu, Hd, Hk, Hc; simpl; rewrite Htu, Htd, Htk, Htc.
  - intros u. split.
    + destruct body as [[| | | | |d]|e]; simpl; try done.
      destruct (truthy (default JNull (d !! "user_id"))) eqn:Hu; [|done].
      simpl. intros [= Heq1]. exists d. rewrite Heq1 in Hu.
      by rewrite (truthy_field d "user_id" u).
    + intros (d & -> & Hu & Htu). simpl. by rewrite Hu; simpl; rewrite Htu.
Qed.

(** * The bridge *)

Module BridgeFacts.
Import Bridge.

Section Facts.
Context (X : Externals).

Lemma transport_calls_snoc h a :
  transport_calls (h ++ [a]) =
  transport_calls h ++ (if is_transport_call a then [a] else []).
Proof.
  unfold transport_calls. rewrite filter_app. f_equal.
  rewrite filter_cons, filter_nil. by destruct (is_transport_call a).
Qed.

(** ** The callback *)

Lemma callback_only_refl s : callback_only s s.
Proof. by split. Qed.

Lemma callback_only_trans s1 s2 s3 :
  callback_only s1 s2 → callback_only s2 s3 → callback_only s1 s3.
Proof.
  intros [] []. split; try congruence. eauto.
Qed.

Lemma set_unless_done_only v a s :
  is_transport_call a = false → callback_only s (set_unless_done v a s).
Proof.
  intros Ha. unfold set_unless_done.
  destruct (response_future s) as [f|] eqn:Hfut; [|apply callback_only_refl].
  destruct (done f) eqn:Hdone; [apply callback_only_refl|].
  split; simpl; try done.
  - by rewrite transport_calls_snoc, Ha, app_nil_r.
  - intros f' Hf' Hdone'. rewrite Hfut in Hf'. simplify_eq. congruence.
Qed.

Lemma bridge_on_message_loop_only messages s :
  callback_only s (on_message_loop X messages s).1.
Proof.
  revert s. induction messages as [|msg rest IH]; intros s; simpl.
  { apply callback_only_refl. }
  destruct (protocol msg); try apply IH.
  destruct (decode_rpc_response X msg); [|apply callback_only_refl].
  eapply callback_only_trans; [|apply IH]. by apply set_unless_done_only.
Qed.

Lemma bridge_on_message_only payload s : callback_only s (on_message X payload s).
Proof.
  unfold on_message.
  destruct (parse X payload _) as [messages|e];
    [|by apply set_unless_done_only].
  pose proof (bridge_on_message_loop_only messages s) as Hloop.
  destruct (on_message_loop X messages s) as [s' [e|]]; simpl in *; [|done].
  eapply callback_only_trans; [done|]. by apply set_unless_done_only.
Qed.

Lemma set_unless_done_done v a s f :
  response_future s = Some f → done f = true → set_unless_done v a s = s.
Proof. intros Hf Hdone. unfold set_unless_done. by rewrite Hf, Hdone. Qed.

Lemma bridge_on_message_loop_done messages s f :
  response_future s = Some f → done f = true →
  (on_message_loop X messages s).1 = s.
Proof.
  intros Hf Hdone. induction messages as [|msg rest IH]; simpl; [done|].
  destruct (protocol msg); try done.
  destruct (decode_rpc_response X msg); [|done].
  by erewrite set_unless_done_done.
Qed.

Lemma bridge_on_message_done payload s f :
  response_future s = Some f → done f = true → on_message X payload s = s.
Proof.
  intros Hf Hdone. unfold on_message.
  destruct (parse X payload _) as [messages|e];
    [|by erewrite set_unless_done_done].
  pose proof (bridge_on_message_loop_done messages s f Hf Hdone) as Hloop.
  destruct (on_message_loop X messages s) as [s' [e|]]; simpl in *; subst;
    [|done].
  by erewrite set_unless_done_done.
Qed.

Lemma bridge_on_message_first_reply payload messages response s :
  parse X payload (local_key (args s)) = Ok messages →
  first_reply X messages = Some response →
  response_future s = Some Pending →
  on_message X payload s =
  emit (SetResult response) (set_response_future (Some (Result response)) s).
Proof.
  intros Hparse Hfirst Hfut. unfold on_message. rewrite Hparse.
  assert ((on_message_loop X messages s).1 =
          emit (SetResult response)
            (set_response_future (Some (Result response)) s)) as Hloop.
  { clear Hparse. induction messages as [|msg rest IH]; simpl in *; [done|].
    destruct (protocol msg); try by apply IH.
    destruct (decode_rpc_response X msg); [|done]. simplify_eq.
    unfold set_unless_done at 1. rewrite Hfut. simpl.
    by eapply bridge_on_message_loop_done. }
  destruct (on_message_loop X messages s) as [s' [e|]]; simpl in *; subst; [|done].
  by eapply set_unless_done_done.
Qed.

Lemma bridge_on_message_decode_failure payload e s :
  decode_failure X payload (local_key (args s)) = Some e →
  response_future s = Some Pending →
  on_message X payload s =
  emit (SetException e) (set_response_future (Some (Exception e)) s).
Proof.
  intros Hfail Hfut. unfold on_message, decode_failure in *.
  destruct (parse X payload _) as [messages|e'].
  - assert (on_message_loop X messages s = (s, Some e)) as ->.
    { induction messages as [|msg rest IH]; simpl in *; [done|].
      destruct (protocol msg); try by apply IH.
      destruct (decode_rpc_response X msg); by simplify_eq. }
    unfold set_unless_done. by rewrite Hfut.
  - simplify_eq. unfold set_unless_done. by rewrite Hfut.
Qed.

(** ** The calls to the transport *)

Lemma is_failure_except_clauses e : is_failure (except_clauses e) = true.
Proof. by destruct e. Qed.

Lemma protocol_ok_init a now s0 :
  send_mqtt_request X a now = Ok s0 → protocol_ok X s0 s0.
Proof.
  unfold send_mqtt_request. destruct (create_mqtt_params X _); [|done].
  intros [= <-]. by split.
Qed.

Lemma send_mqtt_request_args a now s0 :
  send_mqtt_request X a now = Ok s0 → args s0 = a.
Proof.
  unfold send_mqtt_request. destruct (create_mqtt_params X _); [|done].
  by intros [= <-].
Qed.

Lemma protocol_ok_callback s0 s s' :
  protocol_ok X s0 s → callback_only s s' → protocol_ok X s0 s'.
Proof.
  intros [Ha Hm Hc] [Ha' Hm' Hr' Hat' _ Hc' _].
  split; [congruence|congruence|]. unfold closing in *.
  rewrite Hat', Hc', Hr'. done.
Qed.

Lemma protocol_ok_step s0 ev s s' :
  protocol_ok X s0 s → step X ev s = Some s' → protocol_ok X s0 s'.
Proof.
  intros Hok Hstep.
  destruct ev as [o|payload| | |ms]; simpl in Hstep.
  - destruct Hok as [Ha Hm Hc]. unfold closing in Hc.
    destruct (at_ s) eqn:Hat; simplify_eq; simpl in Hc.
    + destruct Hc as [Hc Hr]. destruct o as [[]|e];
        (split; [done|done|]); unfold closing; simpl;
        rewrite transport_calls_snoc, Hc; simpl.
      * unfold subscribe_topic; simpl. by rewrite Ha, Hm.
      * right. rewrite is_failure_except_clauses. by eauto.
    + destruct Hc as [Hc Hr]. destruct o as [[]|e]; unfold subscribed; simpl.
      * rewrite Ha. destruct (encoded X (args s0)) as [enc|e] eqn:Henc;
          (split; [done|done|]); unfold closing; simpl;
          rewrite transport_calls_snoc, Hc; simpl.
        -- exists enc. unfold publish_topic; simpl. by rewrite Ha, Hm.
        -- right. rewrite is_failure_except_clauses. by eauto.
      * split; [done|done|]. unfold closing; simpl.
        rewrite transport_calls_snoc, Hc; simpl.
        right. rewrite is_failure_except_clauses. by eauto.
    + destruct Hc as (enc & Henc & Hc & Hr). destruct o as [[]|e].
      * split; [done|done|]. simpl. by eauto.
      * split; [done|done|]. unfold closing; simpl.
        rewrite transport_calls_snoc, Hc; simpl.
        right. rewrite is_failure_except_clauses. by eauto 10.
    + destruct o as [[]|e]; (split; [done|done|]); simpl; by eauto.
  - destruct (registered s && negb (ended s)); simplify_eq.
    eapply protocol_ok_callback; [done|]. apply bridge_on_message_only.
  - destruct Hok as [Ha Hm Hc].
    destruct (at_ s) eqn:Hat; simplify_eq.
    unfold wait_for_expired in Hstep.
    destruct (response_future s) as [[]|]; simplify_eq.
    case_decide; simplify_eq.
    split; [done|done|]. simpl. done.
  - destruct Hok as [Ha Hm Hc].
    unfold wait_for_resumed, wait_for_cancelled, resolved in Hstep.
    destruct (at_ s) eqn:Hat; simplify_eq; simpl in Hc;
      destruct Hc as (enc & Henc & Hc & Hr).
    all: destruct (response_future s) as [[]|]; simplify_eq;
        (split; [done|done|]); unfold closing; simpl;
        rewrite ?transport_calls_snoc, ?Hc; simpl.
    all: try (left; by eauto).
    all: try (right; rewrite is_failure_except_clauses; by eauto 10).
    all: by eauto.
  - destruct (ended s) eqn:Hend; simplify_eq.
    destruct Hok as [Ha Hm Hc]. by split.
Qed.

Lemma protocol_ok_run s0 evs s s' :
  protocol_ok X s0 s → run X evs s = Some s' → protocol_ok X s0 s'.
Proof.
  revert s. induction evs as [|ev evs IH]; intros s Hok; simpl.
  - by intros [= <-].
  - destruct (step X ev s) as [s1|] eqn:Hstep; [|done]. simpl.
    apply IH. by eapply protocol_ok_step.
Qed.

(** X12: whatever fails, [send_mqtt_request] closes the session it has
    started, once, and as its last call to the transport.  The calls of a
    run that has ended are [start] and [close] with, in between, as far
    as the run got: [subscribe], then [publish], then the one call of the
    unsubscribe token. *)
Theorem bridge_closes_on_every_path a now s0 evs s :
  send_mqtt_request X a now = Ok s0 → run X evs s0 = Some s →
  ended s = true →
  let calls := transport_calls (history s) in
  let sub := Subscribe (subscribe_topic X s0) in
  calls = [Start; Close] ∨ calls = [Start; sub; Close] ∨
  ∃ enc, encoded X a = Ok enc ∧
    (calls = [Start; sub; Publish (publish_topic X s0) enc; Close] ∨
     calls = [Start; sub; Publish (publish_topic X s0) enc; Unsubscribe; Close]).
Proof.
  intros Hstart Hrun Hended.
  rewrite <-(send_mqtt_request_args _ _ _ Hstart).
  pose proof (protocol_ok_run s0 evs s0 s (protocol_ok_init _ _ _ Hstart) Hrun)
    as [_ _ Hc].
  unfold ended in Hended. simpl in Hc.
  destruct (at_ s); try done; [|destruct Hc as [r Hc]].
  all: destruct Hc as [(enc & ? & ? & _)|(_ & [[? _]|[?|(enc & ? & ? & _)]])];
    by eauto 10.
Qed.

(** X13: [send_mqtt_request] returns a success only after the whole
    sequence: it has started the session, subscribed, published the
    request, called the unsubscribe token and closed the session, each
    once and in this order, and its callback is no longer registered. *)
Theorem bridge_success_follows_the_protocol a now s0 evs s result :
  send_mqtt_request X a now = Ok s0 → run X evs s0 = Some s →
  at_ s = Returned (Success result) →
  ∃ enc, encoded X a = Ok enc ∧
    transport_calls (history s) =
      [Start; Subscribe (subscribe_topic X s0);
       Publish (publish_topic X s0) enc; Unsubscribe; Close] ∧
    registered s = false.
Proof.
  intros Hstart Hrun Hat.
  rewrite <-(send_mqtt_request_args _ _ _ Hstart).
  pose proof (protocol_ok_run s0 evs s0 s (protocol_ok_init _ _ _ Hstart) Hrun)
    as [_ _ Hc].
  simpl in Hc. rewrite Hat in Hc.
  destruct Hc as [(enc & ? & ? & ?)|[? _]]; [by eauto|done].
Qed.

(** X14: the wait of [send_mqtt_request] is the [timeout] it was called
    with: when [publish] returns, the deadline is set that far ahead, and
    while the future is not done the timer fires exactly when the
    deadline has come. *)
Theorem bridge_waits_as_long_as_asked a now s0 evs s :
  send_mqtt_request X a now = Ok s0 → run X evs s0 = Some s →
  at_ s = AwaitPublish →
  ∃ s1, step X (Resume (Ok ())) s = Some s1 ∧
    at_ s1 = AwaitFuture (clock s + timeout a) ∧
    ∀ s2, at_ s2 = AwaitFuture (clock s + timeout a) →
      response_future s2 = Some Pending →
      (is_Some (step X Timeout s2) ↔ (clock s + timeout a ≤ clock s2)%N).
Proof.
  intros Hstart Hrun Hat.
  rewrite <-(send_mqtt_request_args _ _ _ Hstart).
  pose proof (protocol_ok_run s0 evs s0 s (protocol_ok_init _ _ _ Hstart) Hrun)
    as [Ha _ _].
  eexists. simpl. rewrite Hat. split; [done|]. simpl. rewrite Ha.
  split; [done|]. intros s2 Hat2 Hfut. rewrite Hat2.
  unfold wait_for_expired. rewrite Hfut.
  case_decide; split; intros; first [done|by eexists|by destruct select (is_Some _)].
Qed.

(** ** After the wait *)

Lemma after_wait_step f r s0 ev s s' deadline :
  at_ s0 = AwaitFuture deadline → outcome_reply f = Some r →
  after_wait f r s0 s → step X ev s = Some s' → after_wait f r s0 s'.
Proof.
  intros Hat0 Hr [Hfut Hwhere] Hstep.
  assert (done f = true) as Hdone by by destruct f.
  destruct ev as [o|payload| | |ms]; simpl in Hstep.
  - destruct Hwhere as [(Hat & Hc & Hreg)|(Hat & Hc & Hreg)].
    { rewrite Hat, Hat0 in Hstep. done. }
    destruct Hat as [Hat|[Hat|[e Hat]]]; rewrite Hat in Hstep; simplify_eq.
    split; [by destruct o as [[]|e]|]. right.
    split; [|by destruct o as [[]|e]].
    destruct o as [[]|e]; simpl; by eauto.
  - destruct (registered s && negb (ended s)); simplify_eq.
    rewrite (bridge_on_message_done payload s f) by done. by split.
  - destruct Hwhere as [(Hat & Hc & Hreg)|(Hat & Hc & Hreg)].
    + rewrite Hat, Hat0 in Hstep. unfold wait_for_expired in Hstep.
      rewrite Hfut in Hstep. by destruct f.
    + by destruct Hat as [Hat|[Hat|[e Hat]]]; rewrite Hat in Hstep.
  - destruct Hwhere as [(Hat & Hc & Hreg)|(Hat & Hc & Hreg)].
    + rewrite Hat, Hat0 in Hstep. unfold resolved in Hstep.
      rewrite Hfut in Hstep. destruct f; simplify_eq/=.
      * split; [done|]. right. simpl.
        rewrite !transport_calls_snoc, Hc; simpl.
        split; [by left|]. by rewrite <-app_assoc.
      * split; [done|]. right. simpl.
        rewrite !transport_calls_snoc, Hc; simpl.
        split; [by left|]. done.
    + by destruct Hat as [Hat|[Hat|[e Hat]]]; rewrite Hat in Hstep.
  - destruct (ended s); simplify_eq. by split.
Qed.

Lemma after_wait_run f r s0 evs s s' deadline :
  at_ s0 = AwaitFuture deadline → outcome_reply f = Some r →
  after_wait f r s0 s → run X evs s = Some s' → after_wait f r s0 s'.
Proof.
  intros Hat0 Hr. revert s. induction evs as [|ev evs IH]; intros s Hs; simpl.
  - by intros [= <-].
  - destruct (step X ev s) as [s1|] eqn:Hstep; [|done]. simpl.
    apply IH. by eapply after_wait_step.
Qed.

(** X15: the first payload whose first reply decodes decides what
    [send_mqtt_request] returns: it sets the future, nothing that arrives
    later changes the future, and the coroutine, if it returns, returns
    the device error of that reply or else its data, after it has called
    the unsubscribe token and closed the session. *)
Theorem bridge_returns_the_first_reply s deadline payload messages response
    evs s' :
  at_ s = AwaitFuture deadline → registered s = true →
  response_future s = Some Pending →
  parse X payload (local_key (args s)) = Ok messages →
  first_reply X messages = Some response →
  run X (Message payload :: evs) s = Some s' →
  response_future s' = Some (Result response) ∧
  ∀ r, at_ s' = Returned r →
    r = reply_of response ∧ registered s' = false ∧
    transport_calls (history s') =
      transport_calls (history s) ++ [Unsubscribe; Close].
Proof.
  intros Hat Hreg Hfut Hparse Hfirst Hrun. simpl in Hrun.
  unfold ended in Hrun. rewrite Hreg, Hat in Hrun. simpl in Hrun.
  rewrite (bridge_on_message_first_reply _ _ _ _ Hparse Hfirst Hfut) in Hrun.
  eapply (after_wait_run (Result response) (reply_of response)) in Hrun
    as [Hfut' Hwhere]; [|done|done|].
  2: { split; [done|]. left. simpl. by rewrite transport_calls_snoc, app_nil_r. }
  split; [done|]. intros r Hr.
  destruct Hwhere as [(Hat' & _)|(Hat' & Hc & Hreg')].
  { simpl in Hat'. congruence. }
  destruct Hat' as [Hat'|[Hat'|[e Hat']]]; rewrite Hat' in Hr; simplify_eq.
  split; [done|]. split; [done|]. by rewrite Hc.
Qed.

(** X16: a payload that fails to decode while [send_mqtt_request] waits
    fails the request: the future gets the exception, and the coroutine,
    if it returns, returns the failure that the [except] clauses make of
    it.  On this path the unsubscribe token is not called: the session is
    closed with the callback still registered. *)
Theorem bridge_decode_failure_skips_unsubscribe s deadline payload e evs s' :
  at_ s = AwaitFuture deadline → registered s = true →
  response_future s = Some Pending →
  decode_failure X payload (local_key (args s)) = Some e →
  run X (Message payload :: evs) s = Some s' →
  response_future s' = Some (Exception e) ∧
  ∀ r, at_ s' = Returned r →
    r = except_clauses e ∧ registered s' = true ∧
    transport_calls (history s') = transport_calls (history s) ++ [Close].
Proof.
  intros Hat Hreg Hfut Hfail Hrun. simpl in Hrun.
  unfold ended in Hrun. rewrite Hreg, Hat in Hrun. simpl in Hrun.
  rewrite (bridge_on_message_decode_failure _ _ _ Hfail Hfut) in Hrun.
  eapply (after_wait_run (Exception e) (except_clauses e)) in Hrun
    as [Hfut' Hwhere]; [|done|done|].
  2: { split; [done|]. left. simpl. by rewrite transport_calls_snoc, app_nil_r. }
  split; [done|]. intros r Hr.
  destruct Hwhere as [(Hat' & _)|(Hat' & Hc & Hreg')].
  { simpl in Hat'. congruence. }
  destruct Hat' as [Hat'|[Hat'|[e' Hat']]]; rewrite Hat' in Hr; simplify_eq.
  split; [done|]. split; [by rewrite Hreg'|]. by rewrite Hc.
Qed.

(** ** [get_device_status] *)

(** X17: [get_device_status] hands a failure on as it is, and a success
    too when its result is falsy (no "status" then); every other success
    becomes a "status": the first element of a list, or the result
    itself.  So a dictionary with "result" that comes back from
    [get_device_status] has a falsy result. *)
Theorem status_or_falsy_result result :
  match get_device_status_result result with
  | Status st =>
      result = Status st ∨
      ∃ raw, result = Success raw ∧ truthy raw = true ∧
        st = match raw with JArr (first :: _) => first | _ => raw end
  | Success raw => result = Success raw ∧ truthy raw = false
  | Failure msg => result = Failure msg
  end.
Proof.
  destruct result as [raw|msg|st]; simpl; [|done|by left].
  destruct (truthy raw) eqn:Hraw; [|done]. right. by exists raw.
Qed.

(** ** [main] *)

Lemma require_object m key error k :
  require (JObj m) key error k =
  match m !! key with Some _ => k | None => ExitError error end.
Proof.
  unfold require, contains. destruct (m !! key) eqn:Hkey.
  - by rewrite bool_decide_eq_true_2.
  - rewrite bool_decide_eq_false_2; [done|]. by intros [? [=]].
Qed.

Lemma require_inv input_data key error k r :
  (∀ e, r ≠ ExitError e) → r ≠ Uncaught →
  require input_data key error k = r →
  contains input_data key = Some true ∧ k = r.
Proof.
  unfold require. intros Herr Hun.
  destruct (contains input_data key) as [[]|]; intros <-; try done.
  by destruct (Herr error).
Qed.

Lemma item_inv v key x :
  item v key = inr x → ∃ m, v = JObj m ∧ m !! key = Some x.
Proof.
  destruct v as [| | | | |m]; simpl; try done.
  destruct (m !! key) eqn:Hkey; [|done]. intros [= <-]. by exists m.
Qed.

(** X18: [main] calls [send_mqtt_request] exactly when the action is
    "command", the input is a JSON object whose "rriot" makes a
    credentials object, and "device_id", "local_key" and "command" are
    there; "params" is optional.  It calls [get_device_status] exactly
    when the action is "get_status" and the input has usable "rriot",
    "device_id" and "local_key".  The values go to the call as they are
    in the input. *)
Theorem main_sends_only_checked_requests argv stdin :
  (∀ r d k c p, main X argv stdin = SendCommand r d k c p ↔
     ∃ prog rest m rd,
       argv = prog :: "command" :: rest ∧ stdin = Ok (JObj m) ∧
       m !! "rriot" = Some rd ∧ create_rriot_of rd = inr r ∧
       m !! "device_id" = Some d ∧ m !! "local_key" = Some k ∧
       m !! "command" = Some c ∧ p = default JNull (m !! "params")) ∧
  (∀ r d k, main X argv stdin = GetStatus r d k ↔
     ∃ prog rest m rd,
       argv = prog :: "get_status" :: rest ∧ stdin = Ok (JObj m) ∧
       m !! "rriot" = Some rd ∧ create_rriot_of rd = inr r ∧
       m !! "device_id" = Some d ∧ m !! "local_key" = Some k).
Proof.
  split.
  - intros r d k c p. split.
    + unfold main. destruct argv as [|prog [|action rest]]; try done.
      destruct stdin as [input_data|e]; [|done].
      intros [_ Hmain]%require_inv; [|done..].
      destruct (item input_data "rriot") as [err|rd] eqn:Hrd; simpl in Hmain;
        [by destruct err|].
      apply item_inv in Hrd as (m & -> & Hrd).
      destruct (create_rriot_of rd) as [[]|r'] eqn:Hr; try done.
      destruct (String.eqb action "command") eqn:Haction.
      * apply String.eqb_eq in Haction as ->.
        rewrite !require_object in Hmain. unfold checked_item in Hmain.
        simpl in Hmain.
        destruct (m !! "device_id") eqn:?; [|done].
        destruct (m !! "local_key") eqn:?; [|done].
        destruct (m !! "command") eqn:?; [|done].
        simplify_eq. by exists prog, rest, m, rd.
      * destruct (String.eqb action "get_status"); [|done].
        rewrite !require_object in Hmain.
        by repeat case_match.
    + intros (prog & rest & m & rd & -> & -> & Hrd & Hr & Hd & Hk & Hc & ->).
      unfold main. rewrite require_object, Hrd. cbn [item and_then].
      rewrite Hrd. cbn [and_then]. rewrite Hr.
      rewrite !require_object. unfold checked_item; simpl.
      by rewrite Hd, Hk, Hc.
  - intros r d k. split.
    + unfold main. destruct argv as [|prog [|action rest]]; try done.
      destruct stdin as [input_data|e]; [|done].
      intros [_ Hmain]%require_inv; [|done..].
      destruct (item input_data "rriot") as [err|rd] eqn:Hrd; simpl in Hmain;
        [by destruct err|].
      apply item_inv in Hrd as (m & -> & Hrd).
      destruct (create_rriot_of rd) as [[]|r'] eqn:Hr; try done.
      destruct (String.eqb action "command") eqn:Haction.
      * rewrite !require_object in Hmain. by repeat case_match.
      * destruct (String.eqb action "get_status") eqn:Haction'; [|done].
        apply String.eqb_eq in Haction' as ->.
        rewrite !require_object in Hmain. unfold checked_item in Hmain.
        simpl in Hmain.
        destruct (m !! "device_id") eqn:?; [|done].
        destruct (m !! "local_key") eqn:?; [|done].
        simplify_eq. by exists prog, rest, m, rd.
    + intros (prog & rest & m & rd & -> & -> & Hrd & Hr & Hd & Hk).
      unfold main. rewrite require_object, Hrd. cbn [item and_then].
      rewrite Hrd. cbn [and_then]. rewrite Hr.
      rewrite !require_object. unfold checked_item; simpl.
      by rewrite Hd, Hk.
Qed.

(** X19: [main] looks at the credentials before it looks at the action:
    when the input has no "rriot" or no credentials object can be made
    of it, [main] ends in the same way whatever the action is, an
    unknown one included.  With a JSON object as input it always ends
    with a printed error or with a call: no exception escapes. *)
Theorem main_checks_credentials_first prog action rest action' rest'
    input_data :
  ((∀ r, and_then create_rriot_of (item input_data "rriot") ≠ inr r) →
   main X (prog :: action :: rest) (Ok input_data) =
   main X (prog :: action' :: rest') (Ok input_data)) ∧
  (∀ m, input_data = JObj m →
     main X (prog :: action :: rest) (Ok input_data) ≠ Uncaught).
Proof.
  split.
  - intros Hbad. unfold main.
    destruct (and_then create_rriot_of (item input_data "rriot"))
      as [[]|r] eqn:Hr; [done|done|]. by destruct (Hbad r).
  - intros m ->. unfold main. rewrite require_object. cbn [item].
    destruct (m !! "rriot") as [rd|]; [|done]. cbn [and_then].
    destruct (create_rriot_of rd) as [[]|r]; [done|done|].
    rewrite !require_object. by repeat case_match.
Qed.

End Facts.

End BridgeFacts.

(** * More runs with the stand-in codec *)

Lemma reachable_connecting : reachable demo connecting.
Proof.
  apply (reachable_run demo to_connecting init); [apply reachable_init|].
  vm_compute. reflexivity.
Qed.

(** X1 on an empty dictionary. *)
Lemma create_rriot_needs_its_fields_witness :
  _create_rriot demo ∅ = Raise (KeyError demo "r").
Proof.
  apply (create_rriot_needs_its_fields demo ∅). reflexivity.
Defined.

(** X2 on the reply that reaches the waiting send. *)
Lemma reply_resolves_request_witness :
  ∃ s1, step demo (Message 4 [x00; x00]) waiting = Some s1 ∧
    futures s1 = <[3 := Result ok_response]> (futures waiting).
Proof.
  destruct (reply_resolves_request demo waiting 4 waiting_callback
              [x00; x00] [ {| protocol := RPC_RESPONSE; payload := [x00] |} ]
              ok_response 3)
    as (s1 & Hstep & _ & _ & Hfut & _); [vm_compute; reflexivity..|].
  exists s1. split; [exact Hstep|exact Hfut].
Defined.

(** X3 on a message of another protocol. *)
Lemma other_messages_are_ignored_witness :
  step demo (Message 4 [x01]) waiting = Some waiting.
Proof.
  apply (other_messages_are_ignored demo waiting 4 waiting_callback [x01]
           [ {| protocol := OTHER_PROTOCOL; payload := [] |} ]).
  - vm_compute. reflexivity.
  - vm_compute. reflexivity.
  - apply List.Forall_cons; [simpl; discriminate|apply List.Forall_nil].
Defined.

(** X4 while [initialize] awaits [start]: the lock is held, by the
    coroutine 0. *)
Lemma initialize_is_exclusive_witness :
  _lock connecting = true ↔
  ∃ tid t, tasks connecting !! tid = Some t ∧ holds_lock t = true.
Proof.
  apply (initialize_is_exclusive demo connecting reachable_connecting).
Defined.

(** X5 in the same state. *)
Lemma sessions_and_credentials_agree_witness :
  sessions connecting !! "u1" = None ∧ rriot_data connecting !! "u1" = None.
Proof.
  destruct (sessions_and_credentials_agree demo connecting "u1"
              reachable_connecting) as [_ Hstart].
  apply (Hstart 0 (rriot waiting_locals) 1). vm_compute. reflexivity.
Defined.

(** X6 on the future of the answered send, after the send has returned. *)
Lemma done_future_is_final_witness :
  futures returned !! 3 = Some (Result ok_response).
Proof.
  apply (done_future_is_final demo [Wake 2] replied returned 3
           (Result ok_response) reachable_replied);
    vm_compute; reflexivity.
Defined.

(** X7 on the entry of the waiting send. *)
Lemma pending_entry_is_unresolved_witness :
  futures waiting !! 3 = Some Pending ∨ futures waiting !! 3 = Some Cancelled.
Proof.
  apply (pending_entry_is_unresolved demo waiting "u1:d1:1" 3 reachable_waiting).
  vm_compute. reflexivity.
Defined.

(** X8 on a disconnect: the callback 4 goes, and it is a token of "u1". *)
Lemma callback_removed_only_by_send_or_close_witness :
  4 ∈ tokens_of "u1" waiting.
Proof.
  apply (callback_removed_only_by_send_or_close demo (CallCloseSession "u1")
           waiting disconnecting 4 waiting_callback);
    vm_compute; reflexivity.
Defined.

(** X9 on a second send to "d1" after the first has stored its token 4. *)
Lemma later_send_replaces_callback_witness :
  ∃ s1 s2,
    step demo (CallSendCommand "u1" "d1" "key" "app_start" None) waiting
      = Some s1 ∧
    callbacks s1 = delete 4 (callbacks waiting) ∧
    step demo (Resume 5 (Ok ())) s1 = Some s2 ∧
    subscriptions s2 = <[ "u1" := <[ "d1" := 7 ]> {[ "d1" := 4 ]} ]>
                         (subscriptions waiting).
Proof.
  destruct (later_send_replaces_callback demo waiting "u1" "d1" "key"
              "app_start" None 1 (rriot waiting_locals)
              {| username := "acct" |} {[ "d1" := 4 ]} 4)
    as (s1 & s2 & Hcall & _ & Hgone & Hresume & _ & Htable);
    [vm_compute; reflexivity..|].
  exists s1, s2. split; [exact Hcall|]. split; [exact Hgone|].
  split; [exact Hresume|exact Htable].
Defined.

(** X10 on two disconnects of "u1" that overlap. *)
Lemma overlapping_close_raises_key_error_witness :
  ∃ s1 s2,
    step demo (Resume 2 (Ok ())) closing_twice = Some s1 ∧
    step demo (Resume 3 (Ok ())) s1 = Some s2 ∧
    history s2 =
      history closing_twice ++ [Return 2 PyNone; Raised 3 (KeyError demo "u1")].
Proof.
  destruct (overlapping_close_raises_key_error demo closing_twice 2 3 "u1"
              FromDisconnect 1 (Ok ()) (Ok ()))
    as (s1 & s2 & Hfirst & Hsecond & Hhist & _);
    [vm_compute; reflexivity|vm_compute; reflexivity|lia
    |vm_compute; reflexivity|].
  exists s1, s2. split; [exact Hfirst|]. split; [exact Hsecond|exact Hhist].
Defined.

(** X11 on the daemon with the one session of "u1". *)
Lemma shutdown_closes_every_session_witness :
  ∃ s', shutdown_loop demo ["u1"] (λ _, Ok ()) waiting = Some s' ∧
    sessions s' = ∅ ∧ rriot_data s' = ∅.
Proof.
  destruct (shutdown_closes_every_session demo waiting ["u1"] (λ _, Ok ())
              reachable_waiting)
    as (s' & Hrun & Hsess & Hcred & _); [vm_compute; reflexivity|].
  exists s'. split; [exact Hrun|]. split; [exact Hsess|exact Hcred].
Defined.

(** X20 on the same disconnect: nothing of "u2" changes. *)
Lemma tables_change_for_one_user_witness :
  sessions disconnecting !! "u2" = sessions waiting !! "u2" ∧
  rriot_data disconnecting !! "u2" = rriot_data waiting !! "u2" ∧
  subscriptions disconnecting !! "u2" = subscriptions waiting !! "u2".
Proof.
  apply (tables_change_for_one_user demo (CallCloseSession "u1")).
  - vm_compute. reflexivity.
  - simpl. discriminate.
Defined.

(** X21 on the step that stores the session of "u1": it is a step of
    [initialize]. *)
Lemma sessions_change_only_in_session_steps_witness :
  session_step (Resume 0 (Ok ())) connecting.
Proof.
  apply (sessions_change_only_in_session_steps demo (Resume 0 (Ok ()))
           connecting ready).
  - vm_compute. reflexivity.
  - right. right. vm_compute. discriminate.
Defined.

(** X12 on a run in which [start] raises: [start], then [close]. *)
Lemma bridge_closes_on_every_path_witness :
  Bridge.transport_calls (Bridge.history bridge_refused) =
    [Bridge.Start; Bridge.Close].
Proof.
  destruct (BridgeFacts.bridge_closes_on_every_path demo bridge_request 0
              bridge_start bridge_to_refused bridge_refused)
    as [Hcalls|[Hcalls|(enc & _ & [Hcalls|Hcalls])]];
    [vm_compute; reflexivity..|exact Hcalls| | |];
    vm_compute in Hcalls; discriminate.
Defined.

(** X13 on the run in which the reply comes. *)
Lemma bridge_success_follows_the_protocol_witness :
  ∃ enc,
    Bridge.transport_calls (Bridge.history bridge_returned) =
      [Bridge.Start; Bridge.Subscribe "rr/m/o/realm/acct/d1";
       Bridge.Publish "rr/m/i/realm/acct/d1" enc;
       Bridge.Unsubscribe; Bridge.Close].
Proof.
  destruct (BridgeFacts.bridge_success_follows_the_protocol demo
              bridge_request 0 bridge_start bridge_to_returned
              bridge_returned (JStr "ok"))
    as (enc & _ & Hcalls & _); [vm_compute; reflexivity..|].
  exists enc. exact Hcalls.
Defined.

(** X14 on [get_device_status]: the wait is 15 seconds. *)
Lemma bridge_waits_as_long_as_asked_witness :
  ∃ s1, Bridge.step demo (Bridge.Resume (Ok ())) bridge_published = Some s1 ∧
    Bridge.at_ s1 = Bridge.AwaitFuture 15000.
Proof.
  destruct (BridgeFacts.bridge_waits_as_long_as_asked demo bridge_request 0
              bridge_start bridge_to_published bridge_published)
    as (s1 & Hstep & Hat & _); [vm_compute; reflexivity..|].
  exists s1. split; [exact Hstep|exact Hat].
Defined.

(** X15 on the reply of the stand-in device. *)
Lemma bridge_returns_the_first_reply_witness :
  Bridge.response_future bridge_returned = Some (Result ok_response).
Proof.
  apply (BridgeFacts.bridge_returns_the_first_reply demo bridge_waiting 15000
           [x00; x00] [ {| protocol := RPC_RESPONSE; payload := [x00] |} ]
           ok_response bridge_after_reply bridge_returned);
    vm_compute; reflexivity.
Defined.

(** X16 on a reply that does not decode. *)
Lemma bridge_decode_failure_skips_unsubscribe_witness :
  Bridge.response_future bridge_undecoded =
    Some (Exception (RoborockException "Invalid V1 message payload")).
Proof.
  apply (BridgeFacts.bridge_decode_failure_skips_unsubscribe demo
           bridge_waiting 15000 [x00]
           (RoborockException "Invalid V1 message payload")
           bridge_after_reply bridge_undecoded);
    vm_compute; reflexivity.
Defined.

(** X18 on a command with all its fields. *)
Lemma main_sends_only_checked_requests_witness :
  Bridge.main demo ["roborock_bridge.py"; "command"] (Ok (JObj command_input))
  = Bridge.SendCommand (rriot waiting_locals) (JStr "d1") (JStr "key")
      (JStr "app_start") JNull.
Proof.
  apply (BridgeFacts.main_sends_only_checked_requests demo).
  exists "roborock_bridge.py", [], command_input, (JObj creds).
  split; [reflexivity|]. split; [reflexivity|].
  repeat (split; [vm_compute; reflexivity|]). vm_compute. reflexivity.
Defined.

(** X19 on an input without credentials: the action does not matter. *)
Lemma main_checks_credentials_first_witness :
  Bridge.main demo ["roborock_bridge.py"; "dance"] (Ok (JObj ∅)) =
  Bridge.main demo ["roborock_bridge.py"; "command"] (Ok (JObj ∅)).
Proof.
  apply (BridgeFacts.main_checks_credentials_first demo "roborock_bridge.py"
           "dance" [] "command" [] (JObj ∅)).
  intros r. simpl. discriminate.
Defined.

(** X22 on a /command with its four fields. *)
Lemma handlers_pass_on_truthy_fields_witness :
  handle_command (Ok (JObj command_body))
  = SendCommand (JStr "u1") (JStr "d1") (JStr "key") (JStr "app_start") JNull.
Proof.
  apply (handlers_pass_on_truthy_fields (Ok (JObj command_body))).
  exists command_body. split; [reflexivity|].
  repeat (split; [vm_compute; reflexivity|]). vm_compute. reflexivity.
Defined.
